(** * StarRocks BE: publish-version manager, memory-spec parser and the
      persistent-index contracts exercised by [persistent_index_test.cpp].

    The development is a shallow embedding: each C++ function is a Rocq
    function over explicit state; maps keyed by [int64_t] are [gmap Z _],
    [std::set<std::pair<int64_t,int64_t>>] is [gset (Z * Z)]. *)

From Stdlib Require Import ZArith List Bool Lia String Ascii.
From Stdlib Require Import Floats.SpecFloat.
From stdpp Require Import base gmap sets list strings fin_maps.

Local Open Scope Z_scope.

(** ** Thrift and storage types used by [publish_version_manager.cpp] *)

(** [TStatusCode] is a Thrift enum; only the comparison with
    [TStatusCode::OK] is used. *)
Inductive TStatusCode :=
  | TStatusCode_OK
  | TStatusCode_CANCELLED
  | TStatusCode_RUNTIME_ERROR
  | TStatusCode_INTERNAL_ERROR
  | TStatusCode_other (code : Z).

Definition is_OK (c : TStatusCode) : bool :=
  match c with TStatusCode_OK => true | _ => false end.

Inductive KeysType := DUP_KEYS | UNIQUE_KEYS | AGG_KEYS | PRIMARY_KEYS.

Inductive TabletState :=
  | TABLET_NOTREADY | TABLET_RUNNING | TABLET_TOMBSTONED
  | TABLET_STOPPED | TABLET_SHUTDOWN.

Definition is_PRIMARY_KEYS (k : KeysType) : bool :=
  match k with PRIMARY_KEYS => true | _ => false end.

Definition is_TABLET_RUNNING (s : TabletState) : bool :=
  match s with TABLET_RUNNING => true | _ => false end.

Record TTabletVersionPair := {
  tablet_id : Z;
  version : Z;
}.

Record TStatus := { status_code : TStatusCode }.

Record TFinishTaskRequest := {
  signature : Z;
  task_status : TStatus;
  tablet_publish_versions : list TTabletVersionPair;
  tablet_versions : list TTabletVersionPair;
}.

(** What the manager reads from a [TabletSharedPtr]. *)
Record Tablet := {
  keys_type : KeysType;
  tablet_state : TabletState;
  max_readable_version : Z;
}.

(** [StorageEngine::instance()->tablet_manager()]: [get_tablet] yields
    [nullptr] ([None]) for an unknown id. *)
Abbreviation TabletManager := (gmap Z Tablet).

Definition get_tablet (tm : TabletManager) (id : Z) : option Tablet := tm !! id.

Record FinishTaskInfo := {
  request : TFinishTaskRequest;
  last_report_time : Z;
  not_report_tablet_num : Z;
}.

Module PublishVersionManager.

(** *** [init] *)

Definition MIN_FINISH_PUBLISH_WORKER_COUNT : Z := 8.

(** The settings handed to [ThreadPoolBuilder("finish_publish_version")]. *)
Record ThreadPoolBuilder := {
  pool_name : string;
  min_threads : Z;
  max_threads : Z;
}.

(** [config::transaction_publish_version_worker_count] and
    [CpuInfo::num_cores()] are inputs. *)
Definition init_max_thread_count
    (transaction_publish_version_worker_count num_cores : Z) : Z :=
  let max_thread_count := transaction_publish_version_worker_count in
  let max_thread_count :=
    if max_thread_count <=? 0 then num_cores else max_thread_count in
  Z.max max_thread_count MIN_FINISH_PUBLISH_WORKER_COUNT.

(** [init], as the builder it hands to [build]; the status it returns is
    the one of [build]. *)
Definition init (transaction_publish_version_worker_count num_cores : Z)
    : ThreadPoolBuilder :=
  {| pool_name := "finish_publish_version";
     min_threads := MIN_FINISH_PUBLISH_WORKER_COUNT;
     max_threads :=
       init_max_thread_count transaction_publish_version_worker_count num_cores |}.

(** *** Manager state *)

Record t := {
  _finish_task_requests : gmap Z TFinishTaskRequest;
  _waitting_finish_task_requests : gmap Z FinishTaskInfo;
  _unapplied_tablet_by_txn : gmap Z (gset (Z * Z));
}.

Definition set_unapplied (m : t) (u : gmap Z (gset (Z * Z))) : t :=
  {| _finish_task_requests := _finish_task_requests m;
     _waitting_finish_task_requests := _waitting_finish_task_requests m;
     _unapplied_tablet_by_txn := u |}.

(** Outcome of the loop of [_all_task_applied]: either the early
    [return true], or the two locals at loop exit.  The second component of
    the result is the list of tablet ids passed to [get_tablet], in call
    order. *)
Inductive LoopExit :=
  | EarlyReturnTrue
  | LoopDone (all_task_applied : bool) (unapplied_tablet : gset (Z * Z)).

Fixpoint all_task_applied_loop (tm : TabletManager)
    (tvs : list TTabletVersionPair)
    (all_task_applied : bool) (unapplied_tablet : gset (Z * Z))
    : LoopExit * list Z :=
  match tvs with
  | [] => (LoopDone all_task_applied unapplied_tablet, [])
  | tablet_version :: rest =>
      let tid := tablet_id tablet_version in
      let request_version := version tablet_version in
      match get_tablet tm tid with
      | Some tablet =>
          if negb (is_PRIMARY_KEYS (keys_type tablet))
             || negb (is_TABLET_RUNNING (tablet_state tablet))
          then (EarlyReturnTrue, [tid])
          else
            let '(r, looked) :=
              if max_readable_version tablet <? request_version
              then all_task_applied_loop tm rest false
                     ({[ (tid, request_version) ]} ∪ unapplied_tablet)
              else all_task_applied_loop tm rest all_task_applied unapplied_tablet
            in (r, tid :: looked)
      | None =>
          let '(r, looked) :=
            all_task_applied_loop tm rest all_task_applied unapplied_tablet
          in (r, tid :: looked)
      end
  end.

(** [_all_task_applied]: result, new manager state, tablets looked up. *)
Definition _all_task_applied (tm : TabletManager) (m : t)
    (finish_task_request : TFinishTaskRequest) : bool * t * list Z :=
  if negb (is_OK (status_code (task_status finish_task_request)))
  then (true, m, [])
  else
    match all_task_applied_loop tm
            (tablet_publish_versions finish_task_request) true ∅ with
    | (EarlyReturnTrue, looked) => (true, m, looked)
    | (LoopDone all_task_applied unapplied_tablet, looked) =>
        if negb all_task_applied
        then (all_task_applied,
              set_unapplied m
                (<[signature finish_task_request := unapplied_tablet]>
                   (_unapplied_tablet_by_txn m)),
              looked)
        else (all_task_applied, m, looked)
    end.

(** The body of the [for] over [iter->second] in [_left_task_applied]:
    whether the pair is counted and re-inserted. *)
Definition still_unapplied (tm : TabletManager) (tablet_pair : Z * Z) : bool :=
  match get_tablet tm (fst tablet_pair) with
  | Some tablet =>
      if negb (is_TABLET_RUNNING (tablet_state tablet)) then false
      else max_readable_version tablet <? snd tablet_pair
  | None => false
  end.

Fixpoint left_task_applied_loop (tm : TabletManager) (pairs : list (Z * Z))
    (unapplied_tablet_num : Z) (unapplied_tablet : gset (Z * Z))
    : Z * gset (Z * Z) :=
  match pairs with
  | [] => (unapplied_tablet_num, unapplied_tablet)
  | tablet_pair :: rest =>
      if still_unapplied tm tablet_pair
      then left_task_applied_loop tm rest (unapplied_tablet_num + 1)
             ({[ tablet_pair ]} ∪ unapplied_tablet)
      else left_task_applied_loop tm rest unapplied_tablet_num unapplied_tablet
  end.

(** [_left_task_applied] has return type [size_t]; the statement
    [return true;] converts [true] to [1]. *)
Definition _left_task_applied (tm : TabletManager) (m : t)
    (finish_task_request : TFinishTaskRequest) : Z * t :=
  let sig := signature finish_task_request in
  match _unapplied_tablet_by_txn m !! sig with
  | None => (Z.b2z true, m)
  | Some pairs =>
      let '(unapplied_tablet_num, unapplied_tablet) :=
        left_task_applied_loop tm (elements pairs) 0 ∅ in
      if 0 <? unapplied_tablet_num
      then (unapplied_tablet_num,
            set_unapplied m (<[sig := unapplied_tablet]> (_unapplied_tablet_by_txn m)))
      else (unapplied_tablet_num,
            set_unapplied m (delete sig (_unapplied_tablet_by_txn m)))
  end.

(** The body of the loop of [wait_publish_task_apply_finish]; [now] is the
    value [MonotonicMillis()] returns in that iteration. *)
Definition wait_step (tm : TabletManager) (now : Z) (m : t)
    (req : TFinishTaskRequest) : t :=
  let '(applied, m1, _) := _all_task_applied tm m req in
  if applied
  then {| _finish_task_requests := <[signature req := req]> (_finish_task_requests m1);
          _waitting_finish_task_requests := _waitting_finish_task_requests m1;
          _unapplied_tablet_by_txn := _unapplied_tablet_by_txn m1 |}
  else
    let info := {| request := req;
                   last_report_time := now;
                   not_report_tablet_num :=
                     Z.of_nat (length (tablet_publish_versions req)) |} in
    {| _finish_task_requests := _finish_task_requests m1;
       _waitting_finish_task_requests :=
         <[signature req := info]> (_waitting_finish_task_requests m1);
       _unapplied_tablet_by_txn := _unapplied_tablet_by_txn m1 |}.

(** [clock i] is the monotonic time read while handling request [i]. *)
Fixpoint wait_publish_task_apply_finish_from (tm : TabletManager)
    (clock : nat → Z) (i : nat)
    (finish_task_requests : list TFinishTaskRequest) (m : t) : t :=
  match finish_task_requests with
  | [] => m
  | req :: rest =>
      wait_publish_task_apply_finish_from tm clock (S i) rest
        (wait_step tm (clock i) m req)
  end.

Definition wait_publish_task_apply_finish (tm : TabletManager)
    (clock : nat → Z) (finish_task_requests : list TFinishTaskRequest)
    (m : t) : t :=
  wait_publish_task_apply_finish_from tm clock 0 finish_task_requests m.

(** The test [unapplied_tablet_num == 0] that [finish_publish_version_task]
    applies to each waiting request before submitting its finish task. *)
Definition waiting_task_ready (tm : TabletManager) (m : t)
    (req : TFinishTaskRequest) : bool * t :=
  let '(unapplied_tablet_num, m1) := _left_task_applied tm m req in
  (unapplied_tablet_num =? 0, m1).

End PublishVersionManager.

(** ** The rest of [publish_version_manager.cpp] *)

(** A listed tablet that exists and is behind the requested version. *)
Definition lagging (tm : TabletManager) (tv : TTabletVersionPair) : bool :=
  match get_tablet tm (tablet_id tv) with
  | Some tablet => max_readable_version tablet <? version tv
  | None => false
  end.

(** A listed tablet that exists and is not a running primary-keys tablet. *)
Definition skipped (tm : TabletManager) (tv : TTabletVersionPair) : bool :=
  match get_tablet tm (tablet_id tv) with
  | Some tablet =>
      negb (is_PRIMARY_KEYS (keys_type tablet))
      || negb (is_TABLET_RUNNING (tablet_state tablet))
  | None => false
  end.

(** The pair [std::make_pair(tablet_id, request_version)]. *)
Definition pair_of (tv : TTabletVersionPair) : Z * Z :=
  (tablet_id tv, version tv).

(** The pairs of the lagging tablets of a list. *)
Definition lagging_pairs (tm : TabletManager) (tvs : list TTabletVersionPair)
    : gset (Z * Z) :=
  list_to_set (pair_of <$> filter (λ tv, lagging tm tv = true) tvs).

(** The pairs of an entry that [_left_task_applied] counts and keeps. *)
Definition remaining (tm : TabletManager) (pairs : gset (Z * Z)) : gset (Z * Z) :=
  filter (λ p, PublishVersionManager.still_unapplied tm p = true) pairs.

(** What [_left_task_applied] returns and what it leaves as the entry of
    the signature, from the entry it finds. *)
Definition left_count (tm : TabletManager) (entry : option (gset (Z * Z))) : Z :=
  match entry with
  | None => 1
  | Some pairs => Z.of_nat (size (remaining tm pairs))
  end.

Definition left_entry (tm : TabletManager) (entry : option (gset (Z * Z)))
    : option (gset (Z * Z)) :=
  match entry with
  | None => None
  | Some pairs =>
      if decide (remaining tm pairs = ∅) then None
      else Some (remaining tm pairs)
  end.

Module FinishPublishVersion.
Import PublishVersionManager.

(** [update_tablet_version]: the version of every pair whose tablet exists
    is overwritten with the tablet's max readable version. *)
Definition update_tablet_version (tm : TabletManager)
    (tablet_versions : list TTabletVersionPair) : list TTabletVersionPair :=
  (λ tv,
     match get_tablet tm (tablet_id tv) with
     | Some tablet =>
         {| tablet_id := tablet_id tv; version := max_readable_version tablet |}
     | None => tv
     end) <$> tablet_versions.

(** What [finish_publish_version_task] hands to the thread pool: the finish
    task of a request, or the [TUpdateTabletVersionRequest] built from a
    waiting request (its signature and its [tablet_versions]). *)
Inductive SubmittedTask :=
  | FinishTask (finish_request : TFinishTaskRequest)
  | UpdateTabletVersionTask (sig : Z) (tablet_versions : list TTabletVersionPair).

Section FinishPublishVersionTask.

(** The tablets, read while the lock is held. *)
Variable tm : TabletManager.
(** Whether [submit_func] accepts a task. *)
Variable submit_ok : SubmittedTask → bool.
(** A request after [std::move] has taken its content into a task. *)
Variable moved_from : TFinishTaskRequest → TFinishTaskRequest.
(** [MonotonicMillis()] as read in the test of the report interval and as
    stored in [last_report_time], for the waiting request of a signature. *)
Variable now_check : Z → Z.
Variable now_report : Z → Z.
Variable max_update_tablet_version_internal_ms : Z.

(** The state threaded through the two loops: the signatures to erase, the
    tasks accepted by the pool in submission order, and the manager. *)
Record LoopState := {
  erase_signature : list Z;
  submitted : list SubmittedTask;
  manager : t;
}.

Definition set_finish (m : t) (f : gmap Z TFinishTaskRequest) : t :=
  {| _finish_task_requests := f;
     _waitting_finish_task_requests := _waitting_finish_task_requests m;
     _unapplied_tablet_by_txn := _unapplied_tablet_by_txn m |}.

Definition set_waitting (m : t) (w : gmap Z FinishTaskInfo) : t :=
  {| _finish_task_requests := _finish_task_requests m;
     _waitting_finish_task_requests := w;
     _unapplied_tablet_by_txn := _unapplied_tablet_by_txn m |}.

(** Body of the loop over [_finish_task_requests].  The request is moved
    into the closure before [submit_func] is called, so the map is left
    with the moved-from request also when the submit fails. *)
Definition finish_step (st : LoopState) (entry : Z * TFinishTaskRequest)
    : LoopState :=
  let '(sig, finish_task_request) := entry in
  let task := FinishTask finish_task_request in
  let m1 :=
    set_finish (manager st)
      (<[sig := moved_from finish_task_request]>
         (_finish_task_requests (manager st))) in
  if submit_ok task
  then {| erase_signature := erase_signature st ++ [sig];
          submitted := submitted st ++ [task];
          manager := m1 |}
  else {| erase_signature := erase_signature st;
          submitted := submitted st;
          manager := m1 |}.

(** Body of the loop over [_waitting_finish_task_requests]. *)
Definition waitting_step (st : LoopState) (entry : Z * FinishTaskInfo)
    : LoopState :=
  let '(sig, finish_task_info) := entry in
  let '(unapplied_tablet_num, m1) :=
    _left_task_applied tm (manager st) (request finish_task_info) in
  if unapplied_tablet_num =? 0
  then
    let task := FinishTask (request finish_task_info) in
    let info :=
      {| request := moved_from (request finish_task_info);
         last_report_time := last_report_time finish_task_info;
         not_report_tablet_num := not_report_tablet_num finish_task_info |} in
    let m2 :=
      set_waitting m1 (<[sig := info]> (_waitting_finish_task_requests m1)) in
    if submit_ok task
    then {| erase_signature := erase_signature st ++ [sig];
            submitted := submitted st ++ [task];
            manager := m2 |}
    else {| erase_signature := erase_signature st;
            submitted := submitted st;
            manager := m2 |}
  else
    if (unapplied_tablet_num <? not_report_tablet_num finish_task_info)
       && (max_update_tablet_version_internal_ms
           <? now_check sig - last_report_time finish_task_info)
    then
      let info :=
        {| request := request finish_task_info;
           last_report_time := now_report sig;
           not_report_tablet_num := unapplied_tablet_num |} in
      let task :=
        UpdateTabletVersionTask sig
          (tablet_versions (request finish_task_info)) in
      {| erase_signature := erase_signature st;
         submitted :=
           if submit_ok task then submitted st ++ [task] else submitted st;
         manager :=
           set_waitting m1 (<[sig := info]> (_waitting_finish_task_requests m1)) |}
    else {| erase_signature := erase_signature st;
            submitted := submitted st;
            manager := m1 |}.

(** The two erase loops at the end. *)
Definition erase_finish (m : t) (sig : Z) : t :=
  set_finish m (delete sig (_finish_task_requests m)).

Definition erase_waitting (m : t) (sig : Z) : t :=
  {| _finish_task_requests := _finish_task_requests m;
     _waitting_finish_task_requests :=
       delete sig (_waitting_finish_task_requests m);
     _unapplied_tablet_by_txn := delete sig (_unapplied_tablet_by_txn m) |}.

(** [finish_publish_version_task]: the manager it leaves and the tasks the
    pool accepted.  Each map is visited in the order of [map_to_list]. *)
Definition finish_publish_version_task (m : t) : t * list SubmittedTask :=
  let st1 :=
    fold_left finish_step (map_to_list (_finish_task_requests m))
      {| erase_signature := []; submitted := []; manager := m |} in
  let st2 :=
    fold_left waitting_step
      (map_to_list (_waitting_finish_task_requests (manager st1)))
      {| erase_signature := []; submitted := submitted st1;
         manager := manager st1 |} in
  let m3 := fold_left erase_finish (erase_signature st1) (manager st2) in
  let m4 := fold_left erase_waitting (erase_signature st2) m3 in
  (m4, submitted st2).

End FinishPublishVersionTask.

(** Every waiting request is filed under its own signature. *)
Definition keyed_by_signature (m : t) : Prop :=
  ∀ sig info,
    _waitting_finish_task_requests m !! sig = Some info →
    signature (request info) = sig.

(** Every waiting request has an entry of unapplied tablets, and no entry
    is empty. *)
Definition waitting_has_unapplied (m : t) : Prop :=
  (∀ sig, is_Some (_waitting_finish_task_requests m !! sig) →
          is_Some (_unapplied_tablet_by_txn m !! sig))
  ∧ (∀ sig pairs, _unapplied_tablet_by_txn m !! sig = Some pairs → pairs ≠ ∅).

(** A request is filed under [sig], ready to report or waiting. *)
Definition filed (m : t) (sig : Z) : Prop :=
  is_Some (_finish_task_requests m !! sig)
  ∨ is_Some (_waitting_finish_task_requests m !! sig).

(** The request itself is what the manager holds under its signature, ready
    to report or waiting. *)
Definition stored (m : t) (req : TFinishTaskRequest) : Prop :=
  _finish_task_requests m !! signature req = Some req
  ∨ ∃ info, _waitting_finish_task_requests m !! signature req = Some info
            ∧ request info = req.

(** The surroundings of one call of [finish_publish_version_task]. *)
Record Round := {
  round_tablets : TabletManager;
  round_submit_ok : SubmittedTask → bool;
  round_now_check : Z → Z;
  round_now_report : Z → Z;
  round_max_ms : Z;
}.

(** One more call of [finish_publish_version_task]: the manager it leaves
    and the tasks submitted so far. *)
Definition finish_round (moved_from : TFinishTaskRequest → TFinishTaskRequest)
    (acc : t * list SubmittedTask) (r : Round) : t * list SubmittedTask :=
  let '(m, tasks) :=
    finish_publish_version_task (round_tablets r) (round_submit_ok r)
      moved_from (round_now_check r) (round_now_report r) (round_max_ms r)
      acc.1 in
  (m, acc.2 ++ tasks).

(** Successive calls of [finish_publish_version_task], one per round, with
    all the tasks they submit. *)
Definition finish_rounds (moved_from : TFinishTaskRequest → TFinishTaskRequest)
    (rounds : list Round) (m : t) : t * list SubmittedTask :=
  fold_left (finish_round moved_from) rounds (m, []).

(** A waiting request whose entry of unapplied tablets is gone. *)
Definition waits_without_entry (m : t) (sig : Z) : Prop :=
  keyed_by_signature m
  ∧ is_Some (_waitting_finish_task_requests m !! sig)
  ∧ _unapplied_tablet_by_txn m !! sig = None.

(** A move that keeps the [int64_t] signature and drops the lists. *)
Definition move_lists_out (req : TFinishTaskRequest) : TFinishTaskRequest :=
  {| signature := signature req;
     task_status := task_status req;
     tablet_publish_versions := [];
     tablet_versions := [] |}.

(** Managers with one waiting request, with and without its entry, and a
    round in which every submit succeeds, for the examples. *)
Definition waiting_info (req : TFinishTaskRequest) : FinishTaskInfo :=
  {| request := req; last_report_time := 0;
     not_report_tablet_num := Z.of_nat (length (tablet_publish_versions req)) |}.

Definition manager_waiting (req : TFinishTaskRequest) (pairs : gset (Z * Z)) : t :=
  {| _finish_task_requests := ∅;
     _waitting_finish_task_requests := {[ signature req := waiting_info req ]};
     _unapplied_tablet_by_txn := {[ signature req := pairs ]} |}.

Definition manager_without_entry (req : TFinishTaskRequest) : t :=
  {| _finish_task_requests := ∅;
     _waitting_finish_task_requests := {[ signature req := waiting_info req ]};
     _unapplied_tablet_by_txn := ∅ |}.

Definition round_all_accepted (tm : TabletManager) : Round :=
  {| round_tablets := tm; round_submit_ok := λ _, true;
     round_now_check := λ _, 0; round_now_report := λ _, 0;
     round_max_ms := 1000 |}.

(** A request of transaction 42 for tablet 1 alone, at version [v]. *)
Definition request_42 (v : Z) : TFinishTaskRequest :=
  {| signature := 42;
     task_status := {| status_code := TStatusCode_OK |};
     tablet_publish_versions := [ {| tablet_id := 1; version := v |} ];
     tablet_versions := [ {| tablet_id := 1; version := v |} ] |}.

End FinishPublishVersion.

Section PublishVersionInputs.
Import PublishVersionManager.

(** A tablet that makes [_all_task_applied] return at once. *)
Definition skipped_tablet (tablet : Tablet) : bool :=
  negb (is_PRIMARY_KEYS (keys_type tablet))
  || negb (is_TABLET_RUNNING (tablet_state tablet)).

(** *** Concrete managers and requests used in the examples *)

Definition empty_manager : t :=
  {| _finish_task_requests := ∅;
     _waitting_finish_task_requests := ∅;
     _unapplied_tablet_by_txn := ∅ |}.

Definition mk_request (sig : Z) (code : TStatusCode)
    (tvs : list TTabletVersionPair) : TFinishTaskRequest :=
  {| signature := sig;
     task_status := {| status_code := code |};
     tablet_publish_versions := tvs;
     tablet_versions := tvs |}.

Definition pk_tablet (v : Z) : Tablet :=
  {| keys_type := PRIMARY_KEYS; tablet_state := TABLET_RUNNING;
     max_readable_version := v |}.

Definition dup_tablet (v : Z) : Tablet :=
  {| keys_type := DUP_KEYS; tablet_state := TABLET_RUNNING;
     max_readable_version := v |}.

(** Tablet 1 is a running primary-keys tablet at version 3, tablet 2 a
    duplicate-keys tablet. *)
Definition two_tablets : TabletManager :=
  <[1 := pk_tablet 3]> (<[2 := dup_tablet 9]> ∅).

Definition lagging_then_dup : TFinishTaskRequest :=
  mk_request 42 TStatusCode_OK
    [ {| tablet_id := 1; version := 5 |}; {| tablet_id := 2; version := 5 |};
      {| tablet_id := 1; version := 6 |} ].

(** A manager still holding the entry of transaction 42 for tablet 1 at
    version 3, which tablet 1 of [two_tablets] has reached. *)
Definition waiting_manager : t :=
  {| _finish_task_requests := ∅;
     _waitting_finish_task_requests := ∅;
     _unapplied_tablet_by_txn := {[ 42 := {[ (1, 3) ]} ]} |}.

Definition failed_request : TFinishTaskRequest :=
  mk_request 43 TStatusCode_INTERNAL_ERROR
    [ {| tablet_id := 1; version := 5 |} ].

(** The maximum the spec's sentence gives: [max(configured, min(cpu, 8))],
    with the cpu count standing in for a non-positive configured value. *)
Definition spec_max_thread_count (configured cpu : Z) : Z :=
  Z.max (if configured <=? 0 then cpu else configured) (Z.min cpu 8).

End PublishVersionInputs.

(** ** Status kinds *)

Inductive Status :=
  | OK
  | InvalidArgument
  | Corruption
  | NotFound
  | AlreadyExists
  | IOError
  | MemLimitExceeded
  | Aborted
  | InternalError.

#[global] Instance Status_eq_dec : EqDecision Status.
Proof. solve_decision. Defined.

Definition Status_ok (st : Status) : bool :=
  match st with OK => true | _ => false end.

(** [StatusOr<T>] *)
Inductive StatusOr (A : Type) :=
  | Value (a : A)
  | Err (st : Status).
Arguments Value {A} a.
Arguments Err {A} st.

(** ** Edit versions *)

Definition INT64_MAX : Z := 2 ^ 63 - 1.
Definition INT64_MIN : Z := - 2 ^ 63.

Record EditVersion := {
  major_number : Z;
  minor_number : Z;
}.

#[global] Instance EditVersion_eq_dec : EqDecision EditVersion.
Proof. solve_decision. Defined.

Module EditVersionOps.

(** Modelled from the spec: [EditVersion::operator==] of
    storage/edit_version.h, which is not among the sources.  A version is a
    pair (major, minor). *)
Definition eqb (a b : EditVersion) : bool :=
  (major_number a =? major_number b) && (minor_number a =? minor_number b).

(** Modelled from the spec: [EditVersion::operator<], of the same absent
    header; (major, minor) in lexicographic order. *)
Definition ltb (a b : EditVersion) : bool :=
  (major_number a <? major_number b)
  || ((major_number a =? major_number b) && (minor_number a <? minor_number b)).

End EditVersionOps.

Record EditVersionWithMerge := {
  edit_version : EditVersion;
  merged : bool;
}.

(** The constructor [EditVersionWithMerge(major, minor, merged)] used by the
    test. *)
Definition mk_EditVersionWithMerge (major minor : Z) (mrg : bool)
    : EditVersionWithMerge :=
  {| edit_version := {| major_number := major; minor_number := minor |};
     merged := mrg |}.

Module EditVersionWithMergeOps.

(** Modelled from the spec: [EditVersionWithMerge::operator<] of
    storage/edit_version.h, which is not among the sources.  Different
    versions compare lexicographically, as the spec says.  At equal version
    the order is the one [test_l2_versions] asserts: the value that is not
    merged is below the merged one. *)
Definition ltb (a b : EditVersionWithMerge) : bool :=
  if EditVersionOps.eqb (edit_version a) (edit_version b)
  then negb (merged a) && merged b
  else EditVersionOps.ltb (edit_version a) (edit_version b).

(** The comparison as the spec words it: at equal version the non-merged
    value sorts greater. *)
Definition spec_ltb (a b : EditVersionWithMerge) : bool :=
  if EditVersionOps.eqb (edit_version a) (edit_version b)
  then merged a && negb (merged b)
  else EditVersionOps.ltb (edit_version a) (edit_version b).

End EditVersionWithMergeOps.

(** The values and the assertions of [TEST_P(PersistentIndexTest,
    test_l2_versions)], for a candidate [operator<]. *)
Section TestL2Versions.
Variable lt : EditVersionWithMerge → EditVersionWithMerge → bool.

Definition m1 := mk_EditVersionWithMerge INT64_MAX INT64_MAX true.
Definition m2 := mk_EditVersionWithMerge INT64_MAX INT64_MAX false.
Definition m3 := mk_EditVersionWithMerge 10 0 true.
Definition m4 := mk_EditVersionWithMerge 10 0 false.
Definition m5 := mk_EditVersionWithMerge 11 0 true.
Definition m6 := mk_EditVersionWithMerge 11 0 false.
Definition m7 := mk_EditVersionWithMerge 11 1 true.
Definition m8 := mk_EditVersionWithMerge 11 1 false.
Definition m9 := mk_EditVersionWithMerge 11 2 true.
Definition m10 := mk_EditVersionWithMerge 11 2 false.

Definition test_l2_versions : bool :=
  lt m2 m1 && negb (lt m1 m2)
  && lt m3 m2 && negb (lt m2 m3)
  && lt m4 m3 && negb (lt m3 m4)
  && lt m3 m6 && negb (lt m6 m3)
  && lt m6 m5 && negb (lt m5 m6)
  && lt m5 m7
  && lt m8 m9
  && lt m10 m9.

End TestL2Versions.

(** ** The index descriptor and [modify_l2_versions] *)

(** The part of [l0_meta] the spec lists. *)
Record MutableIndexMetaPB := {
  format_version : Z;
  snapshot_version : EditVersion;
  wal_offsets : list Z;
}.

Module PersistentIndexMetaPB.
Record t := {
  key_size : Z;
  size : Z;
  version : EditVersion;
  l0_meta : MutableIndexMetaPB;
  l1_version : EditVersion;
  l2_versions : list EditVersion;
  l2_version_merged : list bool;
}.
End PersistentIndexMetaPB.

Module PersistentIndex.
Import PersistentIndexMetaPB.

(** [input] read as a prefix of [versions], element by element. *)
Fixpoint is_prefix (input versions : list EditVersion) : bool :=
  match input, versions with
  | [], _ => true
  | i :: input', v :: versions' =>
      EditVersionOps.eqb i v && is_prefix input' versions'
  | _ :: _, [] => false
  end.

(** Modelled from the spec: [PersistentIndex::modify_l2_versions] of
    storage/persistent_index.cpp, which is not among the sources.  The
    input list must be a contiguous prefix of [meta.l2_versions]; the prefix
    is removed and [merged_version] is put first with merged flag [true];
    with an empty [meta.l2_versions] or an input that is not a prefix the
    call fails and the descriptor is not touched.  The spec names no error
    kind for the failure; [InternalError] stands for it. *)
Definition modify_l2_versions (input_l2_versions : list EditVersion)
    (merged_version : EditVersion) (index_meta : PersistentIndexMetaPB.t)
    : Status * PersistentIndexMetaPB.t :=
  match l2_versions index_meta with
  | [] => (InternalError, index_meta)
  | _ :: _ =>
      if is_prefix input_l2_versions (l2_versions index_meta)
      then
        let n := length input_l2_versions in
        (OK,
         {| key_size := key_size index_meta;
            size := size index_meta;
            version := version index_meta;
            l0_meta := l0_meta index_meta;
            l1_version := l1_version index_meta;
            l2_versions := merged_version :: drop n (l2_versions index_meta);
            l2_version_merged := true :: drop n (l2_version_merged index_meta) |})
      else (InternalError, index_meta)
  end.

End PersistentIndex.

(** The descriptor built by [pindex_major_compact_meta]: versions (1.0),
    (1.1), (3.0), (4.1), (5.0), none merged. *)
Definition ev (major minor : Z) : EditVersion :=
  {| major_number := major; minor_number := minor |}.

Definition default_l0_meta : MutableIndexMetaPB :=
  {| format_version := 0; snapshot_version := ev 0 0; wal_offsets := [] |}.

Definition meta_with (versions : list EditVersion) (flags : list bool)
    : PersistentIndexMetaPB.t :=
  {| PersistentIndexMetaPB.key_size := 0;
     PersistentIndexMetaPB.size := 0;
     PersistentIndexMetaPB.version := ev 0 0;
     PersistentIndexMetaPB.l0_meta := default_l0_meta;
     PersistentIndexMetaPB.l1_version := ev 0 0;
     PersistentIndexMetaPB.l2_versions := versions;
     PersistentIndexMetaPB.l2_version_merged := flags |}.

Definition current_l2_versions : list EditVersion :=
  [ev 1 0; ev 1 1; ev 3 0; ev 4 1; ev 5 0].

Definition current_l2_version_merged : list bool :=
  [false; false; false; false; false].

Definition index_meta_test : PersistentIndexMetaPB.t :=
  meta_with current_l2_versions current_l2_version_merged.

Definition input_l2_versions_test : list EditVersion :=
  [ev 1 0; ev 1 1; ev 3 0].

(** ** The compaction manager *)

(** A [DataDir*] is identified by the path of the directory. *)
Abbreviation DataDir := string (only parsing).

Module PersistentIndexCompactionManager.

(** Modelled from the spec: [PersistentIndexCompactionManager] of
    storage/persistent_index_compaction_manager.cpp, which is not among the
    sources.  The manager keeps a set of running tablet ids and a count per
    data directory; [mark_running] and [unmark_running] update both, and
    [disk_limit] compares the count of the directory with
    [config::pindex_major_compaction_limit_per_disk]. *)
Record t := {
  _running_tablets : gset Z;
  _data_dir_to_task_num_map : gmap DataDir Z;
}.

Definition create : t :=
  {| _running_tablets := ∅; _data_dir_to_task_num_map := ∅ |}.

(** [_data_dir_to_task_num_map[data_dir]], zero for a directory not seen. *)
Definition task_num (m : t) (data_dir : DataDir) : Z :=
  default 0 (_data_dir_to_task_num_map m !! data_dir).

(** Modelled from the spec: [mark_running] of the absent
    persistent_index_compaction_manager.cpp; it updates both maps: the id
    joins the set and the count of the directory goes up by one. *)
Definition mark_running (tablet_id : Z) (data_dir : DataDir) (m : t) : t :=
  {| _running_tablets := {[ tablet_id ]} ∪ _running_tablets m;
     _data_dir_to_task_num_map :=
       <[data_dir := task_num m data_dir + 1]> (_data_dir_to_task_num_map m) |}.

(** Modelled from the spec: [unmark_running] of the same absent file; the
    id leaves the set and the count of the directory goes down by one. *)
Definition unmark_running (tablet_id : Z) (data_dir : DataDir) (m : t) : t :=
  {| _running_tablets := _running_tablets m ∖ {[ tablet_id ]};
     _data_dir_to_task_num_map :=
       <[data_dir := task_num m data_dir - 1]> (_data_dir_to_task_num_map m) |}.

(** Modelled from the spec: [is_running] of the same absent file;
    membership in the set of running tablet ids. *)
Definition is_running (m : t) (tablet_id : Z) : bool :=
  bool_decide (tablet_id ∈ _running_tablets m).

(** Modelled from the spec: [disk_limit] of the same absent file; true iff
    the count of the directory is at least
    [config::pindex_major_compaction_limit_per_disk]. *)
Definition disk_limit (pindex_major_compaction_limit_per_disk : Z) (m : t)
    (data_dir : DataDir) : bool :=
  pindex_major_compaction_limit_per_disk <=? task_num m data_dir.

(** A sequence of calls on one manager. *)
Inductive Call :=
  | MarkRunning (tablet_id : Z) (data_dir : DataDir)
  | UnmarkRunning (tablet_id : Z) (data_dir : DataDir).

Definition step (m : t) (c : Call) : t :=
  match c with
  | MarkRunning tablet_id data_dir => mark_running tablet_id data_dir m
  | UnmarkRunning tablet_id data_dir => unmark_running tablet_id data_dir m
  end.

Definition run (calls : list Call) (m : t) : t := fold_left step calls m.

(** The tablets marked at a point of the call sequence, each with the
    directory it was marked on. *)
Definition marked_step (marked : gmap Z DataDir) (c : Call) : gmap Z DataDir :=
  match c with
  | MarkRunning tablet_id data_dir => <[tablet_id := data_dir]> marked
  | UnmarkRunning tablet_id _ => delete tablet_id marked
  end.

Definition marked_after (calls : list Call) (marked : gmap Z DataDir)
    : gmap Z DataDir :=
  fold_left marked_step calls marked.

(** Number of marked tablets on a directory. *)
Definition marked_on (marked : gmap Z DataDir) (data_dir : DataDir) : nat :=
  size (filter (λ kv, kv.2 = data_dir) marked).

(** The calling discipline of the scheduler: a tablet is marked only while
    it is not marked, and unmarked only while it is marked, with the
    directory it was marked on. *)
Fixpoint disciplined (marked : gmap Z DataDir) (calls : list Call) : bool :=
  match calls with
  | [] => true
  | c :: rest =>
      match c with
      | MarkRunning tablet_id _ => bool_decide (marked !! tablet_id = None)
      | UnmarkRunning tablet_id data_dir =>
          bool_decide (marked !! tablet_id = Some data_dir)
      end
      && disciplined (marked_step marked c) rest
  end.

(** The manager agrees with the marked tablets: same ids, and for each
    directory a count equal to the number of tablets marked on it. *)
Definition agrees (m : t) (marked : gmap Z DataDir) : Prop :=
  (∀ tablet_id, tablet_id ∈ _running_tablets m ↔ is_Some (marked !! tablet_id))
  ∧ (∀ data_dir, task_num m data_dir = Z.of_nat (marked_on marked data_dir)).

(** A call sequence used in the examples. *)
Definition mark_two_unmark_one : list Call :=
  [MarkRunning 1 "/data"; MarkRunning 2 "/data"; UnmarkRunning 1 "/data"].

End PersistentIndexCompactionManager.

(** ** Choosing the buckets to move out of a page *)

Module MoveBuckets.

Local Open Scope N_scope.

(** [bucket_packs_in_page[i]], the record count of bucket [i]. *)
Definition pack_of (bucket_packs_in_page : list N) (i : nat) : N :=
  default 0 (bucket_packs_in_page !! i).

(** Combined record count of a selection of buckets. *)
Definition packs_sum (bucket_packs_in_page : list N) (sel : list nat) : N :=
  foldr (λ i acc, pack_of bucket_packs_in_page i + acc) 0 sel.

Definition total_packs (bucket_packs_in_page : list N) : N :=
  foldr N.add 0 bucket_packs_in_page.

(** All selections of the given bucket indices, each in increasing order;
    a selection with a bucket comes before the same selection without it,
    so that among selections of equal count the one holding the lower
    index comes first. *)
Fixpoint candidates (idxs : list nat) : list (list nat) :=
  match idxs with
  | [] => [[]]
  | i :: rest => ((i ::.) <$> candidates rest) ++ candidates rest
  end.

(** The search behind the selector, for a given reading of "smallest":
    [measure sel] is what is made small.  Among the candidates that reach
    [target], the one of least measure is kept, the first met when several
    have it. *)
Section Select.
Variable measure : list nat → N.

Definition better (target : N) (bucket_packs_in_page : list N)
    (best : option (list nat)) (cand : list nat) : option (list nat) :=
  if target <=? packs_sum bucket_packs_in_page cand
  then match best with
       | None => Some cand
       | Some b => if measure cand <? measure b then Some cand else Some b
       end
  else best.

Definition select (target : N) (bucket_packs_in_page : list N) : list nat :=
  default []
    (fold_left (better target bucket_packs_in_page)
       (candidates (seq 0 (length bucket_packs_in_page))) None).

End Select.

(** Modelled from the spec: [get_move_buckets] of
    storage/persistent_index.cpp, which is not among the sources.  The
    selector returns the smallest set of buckets whose combined record
    count meets [target], ties broken by lower index: the fewest buckets,
    and among selections of that size the one met first in [candidates].
    When no selection reaches [target] the result is empty. *)
Definition get_move_buckets (target : N) (bucket_packs_in_page : list N)
    : list nat :=
  select (λ sel, N.of_nat (length sel)) target bucket_packs_in_page.

(** The other reading of "smallest": the least combined record count. *)
Definition get_move_buckets_least_count (target : N)
    (bucket_packs_in_page : list N) : list nat :=
  select (packs_sum bucket_packs_in_page) target bucket_packs_in_page.

(** Record counts of a page with five buckets, used in the examples. *)
Definition five_buckets : list N := [3; 0; 5; 2; 7].

End MoveBuckets.

(** ** The mutable index (L0) *)

(** A key is an opaque byte string ([Slice]); an [IndexValue] is an unsigned
    64-bit handle. *)
Abbreviation Slice := string (only parsing).
Abbreviation IndexValue := Z (only parsing).

Definition NullIndexValue : IndexValue := 2 ^ 64 - 1.

Module MutableIndex.

(** Modelled from the spec: [MutableIndex] of storage/persistent_index.cpp,
    which is not among the sources.  L0 is a set of shards, fixed at
    creation, each a hash map from key to [IndexValue]; a tombstone is an
    entry with [NullIndexValue].  [insert] fails with AlreadyExists on the
    first key already present and leaves that key as it is, the keys of the
    batch before it stay inserted.  [get] writes the value of each position
    and records the positions with no entry. *)
Record t := { shards : list (gmap Slice IndexValue) }.

Section Shards.
(** The shard a key is routed to by its hash. *)
Variable shard_of : Slice → nat.

Definition create (nshard : nat) : t := {| shards := replicate nshard ∅ |}.

(** Every key is routed to a shard of the index. *)
Definition routed (idx : t) : Prop :=
  ∀ k, (shard_of k < length (shards idx))%nat.

Definition lookup_key (idx : t) (k : Slice) : option IndexValue :=
  shards idx !! shard_of k ≫= (λ m, m !! k).

(** Modelled from the spec: one step of [MutableIndex::insert] of the
    absent persistent_index.cpp; a key with an entry, tombstone or not, is
    refused with AlreadyExists and the index is left as it is. *)
Definition insert_one (idx : t) (k : Slice) (v : IndexValue) : Status * t :=
  match shards idx !! shard_of k with
  | None => (InternalError, idx)
  | Some m =>
      match m !! k with
      | Some _ => (AlreadyExists, idx)
      | None => (OK, {| shards := <[shard_of k := <[k := v]> m]> (shards idx) |})
      end
  end.

(** Modelled from the spec: [MutableIndex::insert(keys, values, idxes)] of
    the absent persistent_index.cpp.  The arrays are read at the positions
    listed in [idxes]; the batch stops at the first duplicate, the keys
    before it stay inserted.  A position outside the arrays, which the C++
    caller must not pass, stops the batch with InvalidArgument. *)
Fixpoint insert (keys : list Slice) (values : list IndexValue)
    (idxes : list nat) (idx : t) : Status * t :=
  match idxes with
  | [] => (OK, idx)
  | i :: rest =>
      match keys !! i, values !! i with
      | Some k, Some v =>
          match insert_one idx k v with
          | (OK, idx') => insert keys values rest idx'
          | (st, idx') => (st, idx')
          end
      | _, _ => (InvalidArgument, idx)
      end
  end.

(** What [get] hands back: the value array, the positions not found and
    the number of positions found with a value other than the tombstone. *)
Record GetResult := {
  out_values : list IndexValue;
  not_found : list nat;
  num_found : Z;
}.

(** Modelled from the spec: [MutableIndex::get(keys, out_values,
    not_found_info, num_found, idxes)] of the absent persistent_index.cpp;
    a position whose key has no entry gets [NullIndexValue] and is recorded
    in [not_found]. *)
Fixpoint get (keys : list Slice) (idxes : list nat) (idx : t)
    (acc : GetResult) : Status * GetResult :=
  match idxes with
  | [] => (OK, acc)
  | i :: rest =>
      match keys !! i with
      | Some k =>
          match lookup_key idx k with
          | Some v =>
              get keys rest idx
                {| out_values := <[i := v]> (out_values acc);
                   not_found := not_found acc;
                   num_found :=
                     num_found acc + (if v =? NullIndexValue then 0 else 1) |}
          | None =>
              get keys rest idx
                {| out_values := <[i := NullIndexValue]> (out_values acc);
                   not_found := not_found acc ++ [i];
                   num_found := num_found acc |}
          end
      | None => (InvalidArgument, acc)
      end
  end.

End Shards.

(** A routing for the examples: keys go to one of two shards by length. *)
Definition by_length (k : Slice) : nat := Nat.modulo (String.length k) 2.

Definition three_keys : list Slice := ["a"; "bb"; "ccc"].
Definition three_values : list IndexValue := [0; 2; 4].
Definition other_values : list IndexValue := [7; 7; 7].
Definition fresh_result : GetResult :=
  {| out_values := [0; 0; 0]; not_found := []; num_found := 0 |}.

(** The index after the first insert of [test_fixlen_mutable_index], here
    with three keys. *)
Definition after_first_insert : t :=
  snd (insert by_length three_keys three_values [0; 1; 2]%nat (create 2)).

End MutableIndex.

(** ** [double] arithmetic *)

(** IEEE 754 binary64 with round to nearest even, as [spec_float]. *)
Module Double.

Definition prec : Z := 53.
Definition emax : Z := 1024.

(** Conversion of an [int64_t] to [double]. *)
Definition of_int64 (z : Z) : spec_float := binary_normalize prec emax z 0 false.

Definition mul : spec_float → spec_float → spec_float := SFmul prec emax.
Definition div : spec_float → spec_float → spec_float := SFdiv prec emax.

(** Conversion of a [double] to [int64_t]: the value is truncated toward
    zero; the conversion is undefined ([None]) for a NaN, an infinity or a
    truncated value outside the range of [int64_t].  C++ leaves the result
    open there; the conversion instruction of x86-64 yields INT64_MIN. *)
Definition to_int64 (x : spec_float) : option Z :=
  match x with
  | S754_zero _ => Some 0
  | S754_finite s m e =>
      let a := if 0 <=? e then Z.pos m * 2 ^ e else Z.pos m / 2 ^ (- e) in
      let z := if s then - a else a in
      if (INT64_MIN <=? z) && (z <=? INT64_MAX) then Some z else None
  | S754_infinity _ | S754_nan => None
  end.

End Double.

(** ** [parse_util.cpp] *)

Inductive ParseResult :=
  | PARSE_SUCCESS
  | PARSE_FAILURE
  | PARSE_OVERFLOW
  | PARSE_UNDERFLOW.

Definition is_PARSE_SUCCESS (r : ParseResult) : bool :=
  match r with PARSE_SUCCESS => true | _ => false end.

(** Conversion of a [size_t] to [int32_t]. *)
Definition wrap_int32 (z : Z) : Z := (z + 2 ^ 31) mod 2 ^ 32 - 2 ^ 31.

(** [*mem_spec_str.rbegin()]; [None] for the empty string. *)
Fixpoint rbegin (s : string) : option ascii :=
  match s with
  | EmptyString => None
  | String c EmptyString => Some c
  | String _ rest => rbegin rest
  end.

(** The characters [data[0 .. len)] handed to a parser. *)
Definition data_prefix (s : string) (len : Z) : string :=
  substring 0 (Z.to_nat len) s.

Definition is_char (c : ascii) (lower upper : ascii) : bool :=
  Ascii.eqb c lower || Ascii.eqb c upper.

Module ParseUtil.

Section ParseMemSpec.

(** [StringParser::string_to_int<int64_t>] and
    [StringParser::string_to_float<double>] of util/string_parser.hpp, which
    is not among the sources: each maps the characters it is given to a
    value and a [ParseResult]. *)
Variable string_to_int : string → Z * ParseResult.
Variable string_to_float : string → spec_float * ParseResult.

(** The [switch] on the last character: the new values of
    [number_str_len], [multiplier] and [is_percent]. *)
Definition switch_suffix (c : ascii) (size : Z) : Z * Z * bool :=
  if is_char c "t" "T" then (wrap_int32 (size - 1), 1024 * 1024 * 1024 * 1024, false)
  else if is_char c "g" "G" then (wrap_int32 (size - 1), 1024 * 1024 * 1024, false)
  else if is_char c "m" "M" then (wrap_int32 (size - 1), 1024 * 1024, false)
  else if is_char c "k" "K" then (wrap_int32 (size - 1), 1024, false)
  else if is_char c "b" "B" then (wrap_int32 (size - 1), -1, false)
  else if Ascii.eqb c "%" then (wrap_int32 (size - 1), -1, true)
  else (wrap_int32 size, -1, false).

(** [parse_mem_spec]; [None] when the conversion of the [double] result to
    [int64_t] is undefined: the function then returns a status OK whose
    value the language does not fix. *)
Definition parse_mem_spec (mem_spec_str : string) (memory_limit : Z)
    : option (StatusOr Z) :=
  match rbegin mem_spec_str with
  | None => Some (Value 0)
  | Some c =>
      let '(number_str_len, multiplier, is_percent) :=
        switch_suffix c (Z.of_nat (String.length mem_spec_str)) in
      if negb (multiplier =? -1)
      then
        let '(limit_val, result) :=
          string_to_float (data_prefix mem_spec_str number_str_len) in
        if negb (is_PARSE_SUCCESS result)
        then Some (Err InvalidArgument)
        else Value <$>
               Double.to_int64 (Double.mul (Double.of_int64 multiplier) limit_val)
      else
        let '(limit_val, result) :=
          string_to_int (data_prefix mem_spec_str number_str_len) in
        if negb (is_PARSE_SUCCESS result)
        then Some (Err InvalidArgument)
        else if is_percent
        then Value <$>
               Double.to_int64
                 (Double.mul
                    (Double.div (Double.of_int64 limit_val) (Double.of_int64 100))
                    (Double.of_int64 memory_limit))
        else Some (Value limit_val)
  end.

End ParseMemSpec.

(** The multiplier of a unit character, if it is one of t, g, m, k. *)
Definition float_unit (c : ascii) : option Z :=
  if is_char c "t" "T" then Some (1024 ^ 4)
  else if is_char c "g" "G" then Some (1024 ^ 3)
  else if is_char c "m" "M" then Some (1024 ^ 2)
  else if is_char c "k" "K" then Some (1024 ^ 1)
  else None.

(** A last character that is no suffix: the whole string is the number. *)
Definition no_suffix (c : ascii) : bool :=
  negb (is_char c "t" "T" || is_char c "g" "G" || is_char c "m" "M"
        || is_char c "k" "K" || is_char c "b" "B" || Ascii.eqb c "%").

End ParseUtil.

(** *** Decimal parsers for the examples *)

Definition digit_of (c : ascii) : option Z :=
  let n := Z.of_N (N_of_ascii c) in
  if (48 <=? n) && (n <=? 57) then Some (n - 48) else None.

(** Value of a string of decimal digits, with the number of digits read. *)
Fixpoint digits_value (s : string) (acc : Z) (n : Z) : option (Z * Z) :=
  match s with
  | EmptyString => Some (acc, n)
  | String c rest =>
      match digit_of c with
      | Some d => digits_value rest (10 * acc + d) (n + 1)
      | None => None
      end
  end.

Definition split_sign (s : string) : bool * string :=
  match s with
  | String c rest =>
      if Ascii.eqb c "-" then (true, rest)
      else if Ascii.eqb c "+" then (false, rest)
      else (false, s)
  | EmptyString => (false, s)
  end.

(** Modelled from the spec: [StringParser::string_to_int<int64_t>] of
    util/string_parser.hpp, which is not among the sources, on the inputs of
    the examples: an optional sign and decimal digits give the integer, a
    value outside [int64_t] gives PARSE_OVERFLOW, anything else
    PARSE_FAILURE. *)
Definition decimal_string_to_int (s : string) : Z * ParseResult :=
  let '(neg, body) := split_sign s in
  match body with
  | EmptyString => (0, PARSE_FAILURE)
  | _ =>
      match digits_value body 0 0 with
      | Some (v, _) =>
          let z := if neg then - v else v in
          if (INT64_MIN <=? z) && (z <=? INT64_MAX) then (z, PARSE_SUCCESS)
          else (if neg then INT64_MIN else INT64_MAX, PARSE_OVERFLOW)
      | None => (0, PARSE_FAILURE)
      end
  end.

(** The text before and after the first ['.'] of [s]. *)
Fixpoint split_point (s : string) : string * option string :=
  match s with
  | EmptyString => (EmptyString, None)
  | String c rest =>
      if Ascii.eqb c "." then (EmptyString, Some rest)
      else let '(a, b) := split_point rest in (String c a, b)
  end.

(** Modelled from the spec: [StringParser::string_to_float<double>] of
    util/string_parser.hpp, which is not among the sources, on the inputs of
    the examples: an optional sign, decimal digits and an optional fraction
    part give the quotient of the digits by the power of ten, as a
    [double]; anything else PARSE_FAILURE. *)
Definition decimal_string_to_float (s : string) : spec_float * ParseResult :=
  let '(neg, body) := split_sign s in
  let '(int_part, frac_part) := split_point body in
  match digits_value (int_part +:+ default EmptyString frac_part) 0 0,
        digits_value (default EmptyString frac_part) 0 0 with
  | Some (v, n), Some (_, k) =>
      if n =? 0 then (S754_zero false, PARSE_FAILURE)
      else
        let q := Double.div (Double.of_int64 v) (Double.of_int64 (10 ^ k)) in
        (if neg then SFopp q else q, PARSE_SUCCESS)
  | _, _ => (S754_zero false, PARSE_FAILURE)
  end.

(** ** Properties of the publish-version manager *)

Section PublishVersionFacts.
Import PublishVersionManager.

Implicit Types (tm : TabletManager) (m : t) (req : TFinishTaskRequest).

Lemma skipped_tablet_spec tablet :
  skipped_tablet tablet = true ↔
  keys_type tablet ≠ PRIMARY_KEYS ∨ tablet_state tablet ≠ TABLET_RUNNING.
Proof.
  unfold skipped_tablet.
  destruct (keys_type tablet), (tablet_state tablet); simpl;
    split; intros H; try done; try (left; done); try (right; done);
    destruct H as [H | H]; done.
Qed.

Lemma is_OK_false c : c ≠ TStatusCode_OK → is_OK c = false.
Proof. by destruct c. Qed.

Lemma left_task_applied_absent tm m req :
  _unapplied_tablet_by_txn m !! signature req = None →
  _left_task_applied tm m req = (1, m).
Proof. intros H. unfold _left_task_applied. by rewrite H. Qed.

Lemma all_task_applied_loop_skips tm tvs :
  ∀ all un tv tablet,
    tv ∈ tvs →
    get_tablet tm (tablet_id tv) = Some tablet →
    skipped_tablet tablet = true →
    ∃ pre tv' tablet' post,
      tvs = pre ++ tv' :: post
      ∧ Forall (λ p, ∀ t, get_tablet tm (tablet_id p) = Some t →
                          skipped_tablet t = false) pre
      ∧ get_tablet tm (tablet_id tv') = Some tablet'
      ∧ skipped_tablet tablet' = true
      ∧ all_task_applied_loop tm tvs all un
        = (EarlyReturnTrue, (tablet_id <$> pre) ++ [tablet_id tv']).
Proof.
  induction tvs as [| hd rest IH]; intros all un tv tablet Hin Hget Hskip.
  - by apply elem_of_nil in Hin.
  - simpl. destruct (get_tablet tm (tablet_id hd)) as [thd |] eqn:Hhd.
    + fold (skipped_tablet thd). destruct (skipped_tablet thd) eqn:Hs.
      * exists [], hd, thd, rest. by split_and!.
      * assert (tv ∈ rest) as Hin'.
        { apply elem_of_cons in Hin as [-> | ?]; [| done].
          rewrite Hget in Hhd. congruence. }
        assert (∀ t, get_tablet tm (tablet_id hd) = Some t →
                     skipped_tablet t = false) as Hhd'
          by (intros t Ht; congruence).
        destruct (max_readable_version thd <? version hd).
        -- destruct (IH false ({[(tablet_id hd, version hd)]} ∪ un) tv tablet
                       Hin' Hget Hskip)
             as (pre & tv' & tablet' & post & -> & Hpre & Hg & Hs' & ->).
           exists (hd :: pre), tv', tablet', post.
           split_and!; try done. by apply Forall_cons.
        -- destruct (IH all un tv tablet Hin' Hget Hskip)
             as (pre & tv' & tablet' & post & -> & Hpre & Hg & Hs' & ->).
           exists (hd :: pre), tv', tablet', post.
           split_and!; try done. by apply Forall_cons.
    + assert (tv ∈ rest) as Hin'.
      { apply elem_of_cons in Hin as [-> | ?]; [| done]. congruence. }
      destruct (IH all un tv tablet Hin' Hget Hskip)
        as (pre & tv' & tablet' & post & -> & Hpre & Hg & Hs' & ->).
      exists (hd :: pre), tv', tablet', post.
      split_and!; try done. apply Forall_cons. split; [| done].
      intros t Ht. congruence.
Qed.

(** Once [_left_task_applied] has answered 0 it has erased the entry of the
    signature, and the next call for the same request answers 1. *)
Lemma left_task_applied_zero_then_one tm m req m1 :
  _left_task_applied tm m req = (0, m1) →
  _left_task_applied tm m1 req = (1, m1).
Proof.
  unfold _left_task_applied at 1.
  destruct (_unapplied_tablet_by_txn m !! signature req) as [pairs |] eqn:E;
    [| done].
  destruct (left_task_applied_loop tm (elements pairs) 0 ∅) as [n un] eqn:L.
  destruct (Z.ltb_spec 0 n) as [Hpos | Hle].
  - intros [= -> _]. lia.
  - intros [= -> <-]. apply left_task_applied_absent. simpl.
    apply lookup_delete_eq.
Qed.

(** C1 (the code at the failing input). With no entry for the signature in
    [_unapplied_tablet_by_txn], [_left_task_applied] returns [1], the
    conversion of [true] to [size_t], and not [0]; the caller's test
    [unapplied_tablet_num == 0] is therefore false.  The state is reached
    from [waiting_manager]: the first call finds tablet 1 caught up,
    returns 0 and erases the entry; the second call returns 1. *)
Theorem left_task_applied_absent_signature_returns_one :
  _left_task_applied two_tablets empty_manager lagging_then_dup
    = (1, empty_manager)
  ∧ fst (_left_task_applied two_tablets empty_manager lagging_then_dup) ≠ 0
  ∧ waiting_task_ready two_tablets empty_manager lagging_then_dup
    = (false, empty_manager)
  ∧ _unapplied_tablet_by_txn waiting_manager !! 42 = Some {[ (1, 3) ]}
  ∧ _left_task_applied two_tablets waiting_manager lagging_then_dup
    = (0, empty_manager)
  ∧ _left_task_applied two_tablets
      (snd (_left_task_applied two_tablets waiting_manager lagging_then_dup))
      lagging_then_dup
    = (1, empty_manager).
Proof.
  assert (_left_task_applied two_tablets empty_manager lagging_then_dup
          = (1, empty_manager)) as E
    by (by apply left_task_applied_absent).
  assert (_left_task_applied two_tablets waiting_manager lagging_then_dup
          = (0, empty_manager)) as E0.
  { unfold _left_task_applied, waiting_manager. simpl.
    rewrite lookup_singleton_eq, elements_singleton. simpl.
    unfold set_unapplied. simpl. by rewrite delete_singleton_eq. }
  unfold waiting_task_ready. rewrite E0, E. simpl.
  by split_and!.
Qed.

(** C3 (counterexample). With 4 configured workers on a 4-core machine the
    pool is built with 8 threads at most, while [max(4, min(4, 8))] is 4,
    whether or not the cpu count replaces the configured value. *)
Lemma init_max_threads_not_min_cpu_8 :
  max_threads (init 4 4) = 8
  ∧ Z.max 4 (Z.min 4 8) = 4
  ∧ spec_max_thread_count 4 4 = 4
  ∧ max_threads (init 4 4) ≠ spec_max_thread_count 4 4.
Proof. by split_and!. Qed.

(** C3 (amended). [init] builds the pool with at least and at most
    [max(c, 8)] threads, where [c] is the configured worker count when it is
    positive and the number of cpu cores otherwise; the minimum is the
    constant 8 and never exceeds the maximum. *)
Theorem init_max_threads :
  ∀ configured cpu,
    (0 < configured → max_threads (init configured cpu) = Z.max configured 8)
    ∧ (configured ≤ 0 → max_threads (init configured cpu) = Z.max cpu 8)
    ∧ min_threads (init configured cpu) = 8
    ∧ min_threads (init configured cpu) ≤ max_threads (init configured cpu).
Proof.
  intros configured cpu. unfold init, init_max_thread_count,
    MIN_FINISH_PUBLISH_WORKER_COUNT. simpl.
  destruct (Z.leb_spec configured 0); split_and!; intros; try lia; done.
Qed.

Lemma init_max_threads_witness :
  max_threads (init 16 4) = Z.max 16 8
  ∧ max_threads (init 0 32) = Z.max 32 8
  ∧ max_threads (init (-1) 2) = Z.max 2 8.
Proof.
  split_and!.
  - apply (proj1 (init_max_threads 16 4)). lia.
  - apply (proj1 (proj2 (init_max_threads 0 32))). lia.
  - apply (proj1 (proj2 (init_max_threads (-1) 2))). lia.
Defined.

(** C9. A request whose status code is not OK makes [_all_task_applied]
    return [true] with no tablet looked up and the manager unchanged, and
    [wait_publish_task_apply_finish] files it under [_finish_task_requests]
    and adds nothing to the waiting requests. *)
Theorem all_task_applied_failed_status tm clock m req rest :
  status_code (task_status req) ≠ TStatusCode_OK →
  _all_task_applied tm m req = (true, m, [])
  ∧ wait_step tm (clock 0%nat) m req
    = {| _finish_task_requests := <[signature req := req]> (_finish_task_requests m);
         _waitting_finish_task_requests := _waitting_finish_task_requests m;
         _unapplied_tablet_by_txn := _unapplied_tablet_by_txn m |}
  ∧ wait_publish_task_apply_finish tm clock (req :: rest) m
    = wait_publish_task_apply_finish_from tm clock 1 rest
        {| _finish_task_requests := <[signature req := req]> (_finish_task_requests m);
           _waitting_finish_task_requests := _waitting_finish_task_requests m;
           _unapplied_tablet_by_txn := _unapplied_tablet_by_txn m |}.
Proof.
  intros Hst. apply is_OK_false in Hst.
  assert (_all_task_applied tm m req = (true, m, [])) as E.
  { unfold _all_task_applied. by rewrite Hst. }
  assert (∀ now, wait_step tm now m req
    = {| _finish_task_requests := <[signature req := req]> (_finish_task_requests m);
         _waitting_finish_task_requests := _waitting_finish_task_requests m;
         _unapplied_tablet_by_txn := _unapplied_tablet_by_txn m |}) as W.
  { intros now. unfold wait_step. by rewrite E. }
  split_and!; [done | apply W |].
  unfold wait_publish_task_apply_finish. simpl. by rewrite W.
Qed.

Lemma all_task_applied_failed_status_witness :
  _all_task_applied two_tablets empty_manager failed_request
    = (true, empty_manager, [])
  ∧ _finish_task_requests
      (wait_publish_task_apply_finish two_tablets (λ _, 100) [failed_request]
         empty_manager) !! 43 = Some failed_request
  ∧ _waitting_finish_task_requests
      (wait_publish_task_apply_finish two_tablets (λ _, 100) [failed_request]
         empty_manager) = ∅.
Proof.
  destruct (all_task_applied_failed_status two_tablets (λ _, 100)
              empty_manager failed_request []) as (E & _ & W).
  - simpl. discriminate.
  - rewrite W. simpl. split_and!; [exact E | apply lookup_insert_eq | reflexivity].
Defined.

(** C10. If some tablet listed in the request exists and is not a
    primary-keys tablet or not in TABLET_RUNNING state, [_all_task_applied]
    returns [true] and leaves the manager unchanged, whatever the versions
    of the other tablets; when the status is OK the lookups stop at the
    first such tablet of the list. *)
Theorem all_task_applied_skipped_tablet tm m req tv tablet :
  tv ∈ tablet_publish_versions req →
  get_tablet tm (tablet_id tv) = Some tablet →
  keys_type tablet ≠ PRIMARY_KEYS ∨ tablet_state tablet ≠ TABLET_RUNNING →
  ∃ looked,
    _all_task_applied tm m req = (true, m, looked)
    ∧ (status_code (task_status req) = TStatusCode_OK →
       ∃ pre tv' tablet' post,
         tablet_publish_versions req = pre ++ tv' :: post
         ∧ Forall (λ p, ∀ t, get_tablet tm (tablet_id p) = Some t →
                             skipped_tablet t = false) pre
         ∧ get_tablet tm (tablet_id tv') = Some tablet'
         ∧ skipped_tablet tablet' = true
         ∧ looked = (tablet_id <$> pre) ++ [tablet_id tv']).
Proof.
  intros Hin Hget Hskip. apply skipped_tablet_spec in Hskip.
  unfold _all_task_applied.
  destruct (is_OK (status_code (task_status req))) eqn:Hok; simpl.
  - destruct (all_task_applied_loop_skips tm _ true ∅ tv tablet Hin Hget Hskip)
      as (pre & tv' & tablet' & post & Htvs & Hpre & Hg & Hs & Hloop).
    rewrite Hloop. eexists; split; [done |].
    intros _. by exists pre, tv', tablet', post.
  - exists []. split; [done |]. intros Hc. rewrite Hc in Hok. done.
Qed.

Lemma all_task_applied_skipped_tablet_witness :
  max_readable_version (pk_tablet 3) < 5
  ∧ ∃ looked,
      _all_task_applied two_tablets empty_manager lagging_then_dup
        = (true, empty_manager, looked)
      ∧ (status_code (task_status lagging_then_dup) = TStatusCode_OK →
         ∃ pre tv' tablet' post,
           tablet_publish_versions lagging_then_dup = pre ++ tv' :: post
           ∧ Forall (λ p, ∀ t, get_tablet two_tablets (tablet_id p) = Some t →
                               skipped_tablet t = false) pre
           ∧ get_tablet two_tablets (tablet_id tv') = Some tablet'
           ∧ skipped_tablet tablet' = true
           ∧ looked = (tablet_id <$> pre) ++ [tablet_id tv']).
Proof.
  split; [reflexivity |].
  apply (all_task_applied_skipped_tablet two_tablets empty_manager
           lagging_then_dup {| tablet_id := 2; version := 5 |} (dup_tablet 9)).
  - simpl. by repeat constructor.
  - reflexivity.
  - left. simpl. discriminate.
Defined.

(** The run of [_all_task_applied] on [lagging_then_dup]: tablet 1 lags
    behind version 5, tablet 2 ends the loop, the third pair is not read. *)
Example all_task_applied_lagging_then_dup :
  _all_task_applied two_tablets empty_manager lagging_then_dup
    = (true, empty_manager, [1; 2]).
Proof. reflexivity. Qed.

End PublishVersionFacts.
(** ** More on the publish-version manager *)

Section PublishVersionMoreFacts.
Import PublishVersionManager FinishPublishVersion.

Implicit Types (tm : TabletManager) (m : t) (req : TFinishTaskRequest)
  (tv : TTabletVersionPair) (tvs : list TTabletVersionPair).

Lemma lagging_pairs_cons tm tv tvs :
  lagging_pairs tm (tv :: tvs)
  = if lagging tm tv then {[ pair_of tv ]} ∪ lagging_pairs tm tvs
    else lagging_pairs tm tvs.
Proof.
  unfold lagging_pairs. rewrite filter_cons.
  destruct (lagging tm tv) eqn:E.
  - by rewrite decide_True.
  - rewrite decide_False; [done | congruence].
Qed.

Lemma lagging_pairs_empty tm tvs :
  lagging_pairs tm tvs = ∅ ↔ ∀ tv, tv ∈ tvs → lagging tm tv = false.
Proof.
  induction tvs as [| hd rest IH].
  - split; [intros _ tv Hin; by apply elem_of_nil in Hin | done].
  - rewrite lagging_pairs_cons. destruct (lagging tm hd) eqn:E.
    + split.
      * intros H. assert (pair_of hd ∈ (∅ : gset (Z * Z))) as Hin.
        { rewrite <- H. apply elem_of_union_l. by apply elem_of_singleton. }
        by apply elem_of_empty in Hin.
      * intros H. specialize (H hd (list_elem_of_here _ _)). congruence.
    + rewrite IH. split.
      * intros H tv Hin. apply elem_of_cons in Hin as [-> | ?]; auto.
      * intros H tv Hin. apply H. by apply list_elem_of_further.
Qed.

Lemma lagging_pairs_nonempty tm tvs :
  lagging_pairs tm tvs ≠ ∅ → ∃ tv, tv ∈ tvs ∧ lagging tm tv = true.
Proof.
  induction tvs as [| hd rest IH]; [done |].
  rewrite lagging_pairs_cons. destruct (lagging tm hd) eqn:E.
  - intros _. exists hd. split; [apply list_elem_of_here | done].
  - intros H. destruct (IH H) as (tv & Hin & Hl).
    exists tv. split; [by apply list_elem_of_further | done].
Qed.

(** The loop of [_all_task_applied] when no listed tablet is skipped: every
    tablet is looked up, and the locals end as the conjunction and the set
    of the lagging ones. *)
Lemma all_task_applied_loop_done tm tvs :
  ∀ all un,
    (∀ tv, tv ∈ tvs → skipped tm tv = false) →
    all_task_applied_loop tm tvs all un
    = (LoopDone
         (all && bool_decide (lagging_pairs tm tvs = ∅))
         (lagging_pairs tm tvs ∪ un),
       tablet_id <$> tvs).
Proof.
  induction tvs as [| hd rest IH]; intros all un Hns.
  - simpl. unfold lagging_pairs. simpl.
    rewrite bool_decide_eq_true_2 by done.
    rewrite andb_true_r. do 2 f_equal. by rewrite (left_id_L ∅ (∪)).
  - assert (skipped tm hd = false) as Hhd by apply Hns, list_elem_of_here.
    assert (∀ tv, tv ∈ rest → skipped tm tv = false) as Hrest
      by (intros tv Hin; by apply Hns, list_elem_of_further).
    rewrite lagging_pairs_cons. unfold skipped, lagging in *. simpl.
    destruct (get_tablet tm (tablet_id hd)) as [thd |] eqn:Hget.
    + rewrite Hhd.
      destruct (max_readable_version thd <? version hd) eqn:Hlag.
      * rewrite (IH _ _ Hrest). simpl.
        rewrite bool_decide_eq_false_2.
        2:{ intros H. assert (pair_of hd ∈ (∅ : gset (Z * Z))) as Hin.
            { rewrite <- H. apply elem_of_union_l. by apply elem_of_singleton. }
            by apply elem_of_empty in Hin. }
        rewrite andb_false_r. do 2 f_equal. unfold pair_of.
        rewrite (comm_L (∪) {[(tablet_id hd, version hd)]}
                   (lagging_pairs tm rest)).
        by rewrite (assoc_L (∪)).
      * by rewrite (IH _ _ Hrest).
    + by rewrite (IH _ _ Hrest).
Qed.

Lemma skipped_tablet_found tm tvs :
  (∃ tv, tv ∈ tvs ∧ skipped tm tv = true) →
  ∀ all un, ∃ looked,
    all_task_applied_loop tm tvs all un = (EarlyReturnTrue, looked).
Proof.
  intros (tv & Hin & Hs) all un. unfold skipped in Hs.
  destruct (get_tablet tm (tablet_id tv)) as [tablet |] eqn:Hget; [| done].
  destruct (all_task_applied_loop_skips tm tvs all un tv tablet Hin Hget Hs)
    as (pre & tv' & tablet' & post & _ & _ & _ & _ & ->).
  eauto.
Qed.

Lemma skipped_decide tm tvs :
  (∃ tv, tv ∈ tvs ∧ skipped tm tv = true)
  ∨ (∀ tv, tv ∈ tvs → skipped tm tv = false).
Proof.
  induction tvs as [| hd rest [(tv & Hin & Hs) | IH]].
  - right. intros tv Hin. by apply elem_of_nil in Hin.
  - left. exists tv. split; [by apply list_elem_of_further | done].
  - destruct (skipped tm hd) eqn:E.
    + left. exists hd. split; [apply list_elem_of_here | done].
    + right. intros tv Hin. apply elem_of_cons in Hin as [-> | ?]; auto.
Qed.

(** X1. [_all_task_applied] answers false exactly when the status is OK, no
    listed tablet that exists is other than a running primary-keys tablet,
    and some listed tablet that exists is behind its requested version. *)
Theorem all_task_applied_false_iff tm m req :
  (_all_task_applied tm m req).1.1 = false
  ↔ status_code (task_status req) = TStatusCode_OK
    ∧ (∀ tv, tv ∈ tablet_publish_versions req → skipped tm tv = false)
    ∧ (∃ tv, tv ∈ tablet_publish_versions req ∧ lagging tm tv = true).
Proof.
  unfold _all_task_applied.
  destruct (status_code (task_status req)) eqn:Hst; simpl;
    try (split; [done | by intros [? _]]).
  destruct (skipped_decide tm (tablet_publish_versions req)) as [Hs | Hns].
  - destruct (skipped_tablet_found tm _ Hs true ∅) as [looked ->]. simpl.
    split; [done |]. intros (_ & Hns & _).
    destruct Hs as (tv & Hin & Hs). rewrite (Hns tv Hin) in Hs. done.
  - rewrite (all_task_applied_loop_done tm _ true ∅ Hns). simpl.
    destruct (bool_decide (lagging_pairs tm (tablet_publish_versions req) = ∅))
      eqn:E; simpl.
    + apply bool_decide_eq_true in E. split; [done |].
      intros (_ & _ & tv & Hin & Hlag).
      rewrite (proj1 (lagging_pairs_empty tm _) E tv Hin) in Hlag. done.
    + apply bool_decide_eq_false in E. split; [| done]. intros _.
      split_and!; [done | done |]. by apply lagging_pairs_nonempty.
Qed.

(** X2. When [_all_task_applied] answers true the manager is as before; when
    it answers false the only change is the entry of the request's
    signature, now the set of (tablet, version) pairs of the lagging
    tablets, which is not empty. *)
Theorem all_task_applied_records_lagging tm m req :
  (_all_task_applied tm m req).1.2
  = (if (_all_task_applied tm m req).1.1 then m
     else set_unapplied m
            (<[signature req := lagging_pairs tm (tablet_publish_versions req)]>
               (_unapplied_tablet_by_txn m)))
  ∧ ((_all_task_applied tm m req).1.1 = false →
     lagging_pairs tm (tablet_publish_versions req) ≠ ∅).
Proof.
  unfold _all_task_applied.
  destruct (is_OK (status_code (task_status req))); simpl; [| done].
  destruct (skipped_decide tm (tablet_publish_versions req)) as [Hs | Hns].
  - destruct (skipped_tablet_found tm _ Hs true ∅) as [looked ->]. done.
  - rewrite (all_task_applied_loop_done tm _ true ∅ Hns). simpl.
    destruct (bool_decide (lagging_pairs tm (tablet_publish_versions req) = ∅))
      eqn:E; simpl; [done |].
    apply bool_decide_eq_false in E. split; [| done].
    do 3 f_equal. apply (right_id_L ∅ (∪)).
Qed.

Lemma left_task_applied_loop_spec tm (l : list (Z * Z)) :
  ∀ n un,
    left_task_applied_loop tm l n un
    = (n + Z.of_nat (length (filter (λ p, still_unapplied tm p = true) l)),
       list_to_set (filter (λ p, still_unapplied tm p = true) l) ∪ un).
Proof.
  induction l as [| p rest IH]; intros n un; simpl.
  - rewrite Z.add_0_r. by rewrite (left_id_L ∅ (∪)).
  - rewrite filter_cons. destruct (still_unapplied tm p) eqn:E.
    + rewrite decide_True by done. rewrite IH. simpl. f_equal; [lia |].
      rewrite (comm_L (∪) {[p]} (list_to_set _)).
      by rewrite (assoc_L (∪)).
    + rewrite decide_False by congruence. apply IH.
Qed.

Lemma remaining_elements tm (pairs : gset (Z * Z)) :
  list_to_set (filter (λ p, still_unapplied tm p = true) (elements pairs))
  = remaining tm pairs
  ∧ length (filter (λ p, still_unapplied tm p = true) (elements pairs))
    = size (remaining tm pairs).
Proof.
  assert (list_to_set
            (filter (λ p, still_unapplied tm p = true) (elements pairs))
          = remaining tm pairs) as E.
  { apply set_eq. intros x. unfold remaining.
    rewrite elem_of_list_to_set, list_elem_of_filter, elem_of_elements,
      elem_of_filter. done. }
  split; [done |]. rewrite <- E. symmetry. apply size_list_to_set.
  apply NoDup_filter, NoDup_elements.
Qed.

Lemma left_task_applied_present tm m req pairs :
  _unapplied_tablet_by_txn m !! signature req = Some pairs →
  _left_task_applied tm m req
  = (Z.of_nat (size (remaining tm pairs)),
     set_unapplied m
       (if decide (remaining tm pairs = ∅)
        then delete (signature req) (_unapplied_tablet_by_txn m)
        else <[signature req := remaining tm pairs]>
               (_unapplied_tablet_by_txn m))).
Proof.
  intros Hl. unfold _left_task_applied. rewrite Hl.
  rewrite left_task_applied_loop_spec.
  destruct (remaining_elements tm pairs) as [-> ->].
  rewrite (right_id_L ∅ (∪)), Z.add_0_l.
  case_decide as E.
  - rewrite E, size_empty. done.
  - assert (size (remaining tm pairs) ≠ 0%nat) as Hs.
    { intros Hz. apply size_empty_iff in Hz. by apply E, leibniz_equiv. }
    destruct (Z.ltb_spec 0 (Z.of_nat (size (remaining tm pairs)))); [done | lia].
Qed.

Lemma remaining_idempotent tm (pairs : gset (Z * Z)) :
  remaining tm (remaining tm pairs) = remaining tm pairs.
Proof.
  apply set_eq. intros x. unfold remaining. rewrite !elem_of_filter. tauto.
Qed.

Lemma remaining_subseteq tm (pairs : gset (Z * Z)) : remaining tm pairs ⊆ pairs.
Proof. intros x. unfold remaining. rewrite elem_of_filter. tauto. Qed.

(** X3. With an entry for the signature, [_left_task_applied] returns the
    number of its pairs whose tablet exists, is running and is still behind
    the requested version; the entry becomes exactly those pairs, or is
    erased when there is none, and no other entry changes. *)
Theorem left_task_applied_counts_remaining tm m req pairs :
  _unapplied_tablet_by_txn m !! signature req = Some pairs →
  _left_task_applied tm m req
  = (Z.of_nat (size (remaining tm pairs)),
     set_unapplied m
       (if decide (remaining tm pairs = ∅)
        then delete (signature req) (_unapplied_tablet_by_txn m)
        else <[signature req := remaining tm pairs]>
               (_unapplied_tablet_by_txn m)))
  ∧ (∀ x, x ∈ remaining tm pairs
          ↔ x ∈ pairs
            ∧ ∃ tablet, get_tablet tm x.1 = Some tablet
                        ∧ tablet_state tablet = TABLET_RUNNING
                        ∧ max_readable_version tablet < x.2).
Proof.
  intros Hl. split; [by apply left_task_applied_present |].
  intros x. unfold remaining, still_unapplied. rewrite elem_of_filter.
  destruct (get_tablet tm x.1) as [tablet |].
  - destruct (tablet_state tablet) eqn:Hs; simpl;
      try (split; [by intros [? _] | intros (_ & ? & [= <-] & ? & _); congruence]).
    rewrite Z.ltb_lt. split.
    + intros [Hlt Hin]. split; [done |]. by exists tablet.
    + intros (Hin & t & [= <-] & _ & Hlt). done.
  - split; [by intros [? _] | by intros (_ & ? & ? & _)].
Qed.

Lemma left_task_applied_counts_remaining_witness :
  _left_task_applied two_tablets waiting_manager lagging_then_dup
  = (Z.of_nat (size (remaining two_tablets {[ (1, 3) ]})),
     set_unapplied waiting_manager
       (if decide (remaining two_tablets {[ (1, 3) ]} = ∅)
        then delete 42 (_unapplied_tablet_by_txn waiting_manager)
        else <[42 := remaining two_tablets {[ (1, 3) ]}]>
               (_unapplied_tablet_by_txn waiting_manager))).
Proof.
  apply (proj1 (left_task_applied_counts_remaining two_tablets waiting_manager
                  lagging_then_dup {[ (1, 3) ]} (lookup_singleton_eq _ _))).
Defined.

(** X4. While [_left_task_applied] reports tablets left, a later call for
    the same request never reports more of them, whatever has happened to
    the tablets in between; with the tablets unchanged it reports the same
    number and leaves the manager as it is. *)
Theorem left_task_applied_never_grows tm tm' m req :
  0 < (_left_task_applied tm m req).1 →
  (_left_task_applied tm' (_left_task_applied tm m req).2 req).1
    ≤ (_left_task_applied tm m req).1
  ∧ _left_task_applied tm (_left_task_applied tm m req).2 req
    = _left_task_applied tm m req.
Proof.
  destruct (_unapplied_tablet_by_txn m !! signature req) as [pairs |] eqn:Hl.
  - rewrite (left_task_applied_present tm m req pairs Hl). simpl. intros Hpos.
    assert (remaining tm pairs ≠ ∅) as Hne.
    { intros E. rewrite E, size_empty in Hpos. lia. }
    rewrite decide_False by done.
    assert (_unapplied_tablet_by_txn
              (set_unapplied m
                 (<[signature req := remaining tm pairs]>
                    (_unapplied_tablet_by_txn m))) !! signature req
            = Some (remaining tm pairs)) as Hl'
      by apply lookup_insert_eq.
    rewrite (left_task_applied_present tm' _ req _ Hl'),
      (left_task_applied_present tm _ req _ Hl'). simpl. split.
    + apply inj_le, subseteq_size, remaining_subseteq.
    + rewrite remaining_idempotent, decide_False by done.
      unfold set_unapplied. simpl. by rewrite insert_insert_eq.
  - rewrite (left_task_applied_absent tm m req Hl). simpl. intros _.
    by rewrite (left_task_applied_absent tm' m req Hl),
      (left_task_applied_absent tm m req Hl).
Qed.

Lemma left_task_applied_never_grows_witness :
  (_left_task_applied (<[1 := pk_tablet 9]> ∅)
     (_left_task_applied (<[1 := pk_tablet 2]> ∅) waiting_manager
        lagging_then_dup).2 lagging_then_dup).1
    ≤ (_left_task_applied (<[1 := pk_tablet 2]> ∅) waiting_manager
         lagging_then_dup).1
  ∧ _left_task_applied (<[1 := pk_tablet 2]> ∅)
      (_left_task_applied (<[1 := pk_tablet 2]> ∅) waiting_manager
         lagging_then_dup).2 lagging_then_dup
    = _left_task_applied (<[1 := pk_tablet 2]> ∅) waiting_manager
        lagging_then_dup.
Proof.
  apply (left_task_applied_never_grows (<[1 := pk_tablet 2]> ∅)
           (<[1 := pk_tablet 9]> ∅) waiting_manager lagging_then_dup).
  vm_compute. reflexivity.
Defined.

(** The two outcomes of [_all_task_applied]. *)
Lemma all_task_applied_cases tm m req :
  (∃ looked, _all_task_applied tm m req = (true, m, looked))
  ∨ (∃ looked,
       _all_task_applied tm m req
       = (false,
          set_unapplied m
            (<[signature req := lagging_pairs tm (tablet_publish_versions req)]>
               (_unapplied_tablet_by_txn m)),
          looked)
       ∧ lagging_pairs tm (tablet_publish_versions req) ≠ ∅).
Proof.
  unfold _all_task_applied.
  destruct (is_OK (status_code (task_status req))); simpl; [| left; eauto].
  destruct (skipped_decide tm (tablet_publish_versions req)) as [Hs | Hns].
  - destruct (skipped_tablet_found tm _ Hs true ∅) as [looked ->]. left. eauto.
  - rewrite (all_task_applied_loop_done tm _ true ∅ Hns). simpl.
    destruct (bool_decide (lagging_pairs tm (tablet_publish_versions req) = ∅))
      eqn:E; simpl; [left; eauto |].
    apply bool_decide_eq_false in E. right. eexists. split; [| done].
    by rewrite (right_id_L ∅ (∪)).
Qed.

(** The body of the loop of [wait_publish_task_apply_finish] files the
    request under its signature: ready to report, or waiting with the pairs
    of its lagging tablets. *)
Lemma wait_step_cases tm now m req :
  wait_step tm now m req
  = {| _finish_task_requests := <[signature req := req]> (_finish_task_requests m);
       _waitting_finish_task_requests := _waitting_finish_task_requests m;
       _unapplied_tablet_by_txn := _unapplied_tablet_by_txn m |}
  ∨ (wait_step tm now m req
     = {| _finish_task_requests := _finish_task_requests m;
          _waitting_finish_task_requests :=
            <[signature req :=
                {| request := req; last_report_time := now;
                   not_report_tablet_num :=
                     Z.of_nat (length (tablet_publish_versions req)) |}]>
              (_waitting_finish_task_requests m);
          _unapplied_tablet_by_txn :=
            <[signature req := lagging_pairs tm (tablet_publish_versions req)]>
              (_unapplied_tablet_by_txn m) |}
     ∧ lagging_pairs tm (tablet_publish_versions req) ≠ ∅).
Proof.
  unfold wait_step.
  destruct (all_task_applied_cases tm m req) as [[looked ->] | (looked & -> & Hne)];
    [by left | by right].
Qed.

Lemma wait_step_keeps_invariants tm now m req :
  keyed_by_signature m → waitting_has_unapplied m →
  keyed_by_signature (wait_step tm now m req)
  ∧ waitting_has_unapplied (wait_step tm now m req).
Proof.
  intros Hk [Hw Hne].
  destruct (wait_step_cases tm now m req) as [-> | [-> HL]]; [done |].
  unfold keyed_by_signature, waitting_has_unapplied. simpl.
  split; [| split].
  - intros sig info. rewrite lookup_insert. case_decide as E.
    + intros [= <-]. done.
    + apply Hk.
  - intros sig. rewrite !lookup_insert. case_decide; [by eexists | apply Hw].
  - intros sig pairs. rewrite lookup_insert. case_decide.
    + by intros [= <-].
    + apply Hne.
Qed.

Lemma wait_step_filed tm now m req :
  filed (wait_step tm now m req) (signature req)
  ∧ ∀ sig, filed m sig → filed (wait_step tm now m req) sig.
Proof.
  unfold filed.
  destruct (wait_step_cases tm now m req) as [-> | [-> _]]; simpl; split.
  - left. rewrite lookup_insert_eq. by eexists.
  - intros sig [H | H]; [left | by right].
    rewrite lookup_insert. case_decide; [by eexists | done].
  - right. rewrite lookup_insert_eq. by eexists.
  - intros sig [H | H]; [by left | right].
    rewrite lookup_insert. case_decide; [by eexists | done].
Qed.

(** X5. [wait_publish_task_apply_finish] keeps the manager in a state where
    every waiting request is filed under its own signature and has an
    entry of unapplied tablets, none of the entries being empty; so right
    after it [_left_task_applied] finds the entry of every waiting
    request. *)
Theorem wait_publish_keeps_invariants tm clock reqs m :
  keyed_by_signature m → waitting_has_unapplied m →
  keyed_by_signature (wait_publish_task_apply_finish tm clock reqs m)
  ∧ waitting_has_unapplied (wait_publish_task_apply_finish tm clock reqs m).
Proof.
  unfold wait_publish_task_apply_finish. generalize 0%nat.
  revert m. induction reqs as [| req rest IH]; intros m i Hk Hw; [done |].
  simpl. destruct (wait_step_keeps_invariants tm (clock i) m req Hk Hw).
  by apply IH.
Qed.

Lemma empty_manager_invariants :
  keyed_by_signature empty_manager ∧ waitting_has_unapplied empty_manager.
Proof.
  split; [| split]; intros sig; simpl.
  - intros info. by rewrite lookup_empty.
  - rewrite lookup_empty. intros H. by apply is_Some_None in H.
  - intros pairs. by rewrite lookup_empty.
Qed.

Lemma wait_publish_keeps_invariants_witness :
  keyed_by_signature
    (wait_publish_task_apply_finish (<[1 := pk_tablet 2]> ∅) (λ _, 100)
       [lagging_then_dup; failed_request] empty_manager)
  ∧ waitting_has_unapplied
      (wait_publish_task_apply_finish (<[1 := pk_tablet 2]> ∅) (λ _, 100)
         [lagging_then_dup; failed_request] empty_manager).
Proof.
  apply (wait_publish_keeps_invariants (<[1 := pk_tablet 2]> ∅) (λ _, 100)
           [lagging_then_dup; failed_request] empty_manager).
  - apply empty_manager_invariants.
  - apply empty_manager_invariants.
Defined.

Lemma wait_step_stores tm now m req : stored (wait_step tm now m req) req.
Proof.
  unfold stored.
  destruct (wait_step_cases tm now m req) as [-> | [-> _]]; simpl.
  - left. apply lookup_insert_eq.
  - right. eexists. split; [apply lookup_insert_eq | done].
Qed.

Lemma wait_step_keeps_stored tm now m r req :
  signature r ≠ signature req →
  stored m req → stored (wait_step tm now m r) req.
Proof.
  intros Hne. unfold stored.
  destruct (wait_step_cases tm now m r) as [-> | [-> _]]; simpl;
    rewrite lookup_insert, decide_False by done; done.
Qed.

Lemma wait_from_keeps_stored tm clock post :
  ∀ i m req,
    signature req ∉ signature <$> post →
    stored m req →
    stored (wait_publish_task_apply_finish_from tm clock i post m) req.
Proof.
  induction post as [| r rest IH]; intros i m req Hnin Hst; [done |].
  rewrite fmap_cons in Hnin. apply not_elem_of_cons in Hnin as [Hne Hnin].
  simpl. apply IH; [done |]. by apply wait_step_keeps_stored.
Qed.

(** X6. [wait_publish_task_apply_finish] keeps every request of the batch
    that no later request of the batch has the signature of: it is
    afterwards what the manager holds under its signature, ready to report
    or waiting.  Every signature of the batch is filed afterwards, and so
    is every signature filed before. *)
Theorem wait_publish_files_every_request tm clock reqs m :
  (∀ pre req post,
     reqs = pre ++ req :: post →
     signature req ∉ signature <$> post →
     stored (wait_publish_task_apply_finish tm clock reqs m) req)
  ∧ (∀ req, req ∈ reqs →
            filed (wait_publish_task_apply_finish tm clock reqs m)
              (signature req))
  ∧ (∀ sig, filed m sig →
            filed (wait_publish_task_apply_finish tm clock reqs m) sig).
Proof.
  split.
  { intros pre req post -> Hnin.
    unfold wait_publish_task_apply_finish. generalize 0%nat. revert m.
    induction pre as [| r pre IH]; intros m i; simpl.
    - apply wait_from_keeps_stored; [done |]. apply wait_step_stores.
    - apply IH. }
  unfold wait_publish_task_apply_finish. generalize 0%nat.
  revert m. induction reqs as [| r rest IH]; intros m i.
  - split; [| done]. intros req Hin. by apply elem_of_nil in Hin.
  - simpl. destruct (IH (wait_step tm (clock i) m r) (S i)) as [IH1 IH2].
    destruct (wait_step_filed tm (clock i) m r) as [Hr Hold].
    split.
    + intros req Hin. apply elem_of_cons in Hin as [-> | Hin]; [| by apply IH1].
      by apply IH2.
    + intros sig H. by apply IH2, Hold.
Qed.

(** Two requests of one batch with the same signature that both have to
    wait: the manager holds the second only. *)
Example wait_publish_same_signature_overwrites :
  let m :=
    wait_publish_task_apply_finish (<[1 := pk_tablet 2]> ∅) (λ _, 100)
      [request_42 5; request_42 6] empty_manager in
  stored m (request_42 6) ∧ ¬ stored m (request_42 5)
  ∧ filed m 42.
Proof.
  split_and!.
  - right. eexists. split; [by vm_compute | done].
  - intros [H | (info & H & E)].
    + vm_compute in H. discriminate H.
    + vm_compute in H. injection H as <-. vm_compute in E. discriminate E.
  - right. vm_compute. by eexists.
Qed.

Lemma update_one_idem tm tv :
  let f := λ tv : TTabletVersionPair,
    match get_tablet tm (tablet_id tv) with
    | Some tablet =>
        {| tablet_id := tablet_id tv; version := max_readable_version tablet |}
    | None => tv
    end in
  tablet_id (f tv) = tablet_id tv ∧ f (f tv) = f tv ∧ lagging tm (f tv) = false.
Proof.
  simpl. unfold lagging.
  destruct (get_tablet tm (tablet_id tv)) as [tablet |] eqn:E; simpl.
  - rewrite E. split_and!; [done | done |]. apply Z.ltb_irrefl.
  - by rewrite E.
Qed.

(** X7. [update_tablet_version] keeps the tablet ids and their order, leaves
    the pairs of unknown tablets as they are, gives every known tablet its
    max readable version, so that no pair of the result is ahead of its
    tablet, and applying it twice is the same as applying it once. *)
Theorem update_tablet_version_spec tm tvs :
  tablet_id <$> update_tablet_version tm tvs = tablet_id <$> tvs
  ∧ update_tablet_version tm (update_tablet_version tm tvs)
    = update_tablet_version tm tvs
  ∧ (∀ tv, tv ∈ update_tablet_version tm tvs → lagging tm tv = false)
  ∧ (∀ i tv, tvs !! i = Some tv →
       update_tablet_version tm tvs !! i
       = Some match get_tablet tm (tablet_id tv) with
              | Some tablet =>
                  {| tablet_id := tablet_id tv;
                     version := max_readable_version tablet |}
              | None => tv
              end).
Proof.
  unfold update_tablet_version. split_and!.
  - rewrite <- list_fmap_compose. apply list_fmap_ext. intros i tv _.
    apply (update_one_idem tm tv).
  - rewrite <- list_fmap_compose. apply list_fmap_ext. intros i tv _.
    apply (update_one_idem tm tv).
  - intros tv Hin. apply list_elem_of_fmap in Hin as (tv0 & -> & _).
    apply (update_one_idem tm tv0).
  - intros i tv Hi. by rewrite list_lookup_fmap, Hi.
Qed.

End PublishVersionMoreFacts.

(** ** [finish_publish_version_task] *)

Section FinishPublishVersionFacts.
Import PublishVersionManager FinishPublishVersion.

Variable tm : TabletManager.
Variable submit_ok : SubmittedTask → bool.
Variable moved_from : TFinishTaskRequest → TFinishTaskRequest.
Variable now_check now_report : Z → Z.
Variable max_ms : Z.

Abbreviation finish_step' := (finish_step submit_ok moved_from).
Abbreviation waitting_step' :=
  (waitting_step tm submit_ok moved_from now_check now_report max_ms).
Abbreviation finish_publish' :=
  (finish_publish_version_task tm submit_ok moved_from now_check now_report
     max_ms).

(** [_left_task_applied] through the entry it finds. *)
Lemma left_task_applied_general (m : t) (req : TFinishTaskRequest) :
  (_left_task_applied tm m req).1
  = left_count tm (_unapplied_tablet_by_txn m !! signature req)
  ∧ _finish_task_requests (_left_task_applied tm m req).2
    = _finish_task_requests m
  ∧ _waitting_finish_task_requests (_left_task_applied tm m req).2
    = _waitting_finish_task_requests m
  ∧ ∀ s, _unapplied_tablet_by_txn (_left_task_applied tm m req).2 !! s
         = if decide (s = signature req)
           then left_entry tm (_unapplied_tablet_by_txn m !! signature req)
           else _unapplied_tablet_by_txn m !! s.
Proof.
  destruct (_unapplied_tablet_by_txn m !! signature req) as [pairs |] eqn:Hl.
  - rewrite (left_task_applied_present tm m req pairs Hl). simpl.
    split_and!; try done. intros s.
    destruct (decide (remaining tm pairs = ∅)).
    + rewrite lookup_delete. by repeat case_decide.
    + rewrite lookup_insert. by repeat case_decide.
  - rewrite (left_task_applied_absent tm m req Hl). simpl.
    split_and!; try done. intros s. case_decide; by subst.
Qed.

(** *** The loop over [_finish_task_requests] *)

Lemma finish_loop_spec (L : list (Z * TFinishTaskRequest)) :
  NoDup L.*1 →
  ∀ st,
    _waitting_finish_task_requests (manager (fold_left finish_step' L st))
      = _waitting_finish_task_requests (manager st)
    ∧ _unapplied_tablet_by_txn (manager (fold_left finish_step' L st))
      = _unapplied_tablet_by_txn (manager st)
    ∧ (∀ k, _finish_task_requests (manager (fold_left finish_step' L st)) !! k
            = match (list_to_map L : gmap Z TFinishTaskRequest) !! k with
              | Some r => Some (moved_from r)
              | None => _finish_task_requests (manager st) !! k
              end)
    ∧ (∀ k, k ∈ erase_signature (fold_left finish_step' L st)
            ↔ k ∈ erase_signature st
              ∨ ∃ r, (k, r) ∈ L ∧ submit_ok (FinishTask r) = true)
    ∧ (∀ task, task ∈ submitted (fold_left finish_step' L st)
               ↔ task ∈ submitted st
                 ∨ ∃ k r, (k, r) ∈ L ∧ task = FinishTask r
                          ∧ submit_ok (FinishTask r) = true).
Proof.
  induction L as [| [k0 r0] rest IH]; intros Hnd st.
  - simpl. split_and!; try done.
    + intros k. split; [by left |]. intros [? | (r & Hin & _)]; [done |].
      by apply elem_of_nil in Hin.
    + intros task. split; [by left |].
      intros [? | (k & r & Hin & _)]; [done |]. by apply elem_of_nil in Hin.
  - rewrite fmap_cons in Hnd. apply NoDup_cons in Hnd as [Hk0 Hnd].
    change (fold_left finish_step' ((k0, r0) :: rest) st)
      with (fold_left finish_step' rest (finish_step' st (k0, r0))).
    specialize (IH Hnd (finish_step' st (k0, r0))).
    destruct IH as (Hw & Hu & Hf & He & Ht).
    assert ((list_to_map rest : gmap Z TFinishTaskRequest) !! k0 = None) as Hnone
      by by apply not_elem_of_list_to_map_1.
    split_and!.
    + rewrite Hw. unfold finish_step. by destruct (submit_ok (FinishTask r0)).
    + rewrite Hu. unfold finish_step. by destruct (submit_ok (FinishTask r0)).
    + intros k. rewrite Hf.
      assert (_finish_task_requests (manager (finish_step' st (k0, r0)))
              = <[k0 := moved_from r0]> (_finish_task_requests (manager st)))
        as -> by (unfold finish_step; by destruct (submit_ok (FinishTask r0))).
      rewrite list_to_map_cons, !lookup_insert.
      destruct (decide (k0 = k)) as [<- | Hne]; [by rewrite Hnone |].
      by destruct (list_to_map rest !! k).
    + intros k. rewrite He. unfold finish_step.
      destruct (submit_ok (FinishTask r0)) eqn:Hs; simpl.
      * rewrite elem_of_app, list_elem_of_singleton. split.
        -- intros [[? | ->] | (r & Hin & Hok)]; [by left | right | right].
           ++ exists r0. split; [apply list_elem_of_here | done].
           ++ exists r. split; [by apply list_elem_of_further | done].
        -- intros [? | (r & Hin & Hok)]; [by left; left |].
           apply elem_of_cons in Hin as [[= -> ->] | Hin]; [by left; right |].
           right. eauto.
      * split.
        -- intros [? | (r & Hin & Hok)]; [by left | right].
           exists r. split; [by apply list_elem_of_further | done].
        -- intros [? | (r & Hin & Hok)]; [by left |].
           apply elem_of_cons in Hin as [[= -> ->] | Hin]; [congruence |].
           right. eauto.
    + intros task. rewrite Ht. unfold finish_step.
      destruct (submit_ok (FinishTask r0)) eqn:Hs; simpl.
      * rewrite elem_of_app, list_elem_of_singleton. split.
        -- intros [[? | ->] | (k & r & Hin & -> & Hok)]; [by left | right | right].
           ++ exists k0, r0. split; [apply list_elem_of_here | done].
           ++ exists k, r. split; [by apply list_elem_of_further | done].
        -- intros [? | (k & r & Hin & -> & Hok)]; [by left; left |].
           apply elem_of_cons in Hin as [[= -> ->] | Hin]; [by left; right |].
           right. eauto.
      * split.
        -- intros [? | (k & r & Hin & -> & Hok)]; [by left | right].
           exists k, r. split; [by apply list_elem_of_further | done].
        -- intros [? | (k & r & Hin & -> & Hok)]; [by left |].
           apply elem_of_cons in Hin as [[= -> ->] | Hin]; [congruence |].
           right. eauto.
Qed.

(** *** The loop over [_waitting_finish_task_requests] *)

Lemma waitting_step_spec (st : LoopState) (k : Z) (info : FinishTaskInfo) :
  signature (request info) = k →
  _finish_task_requests (manager (waitting_step' st (k, info)))
    = _finish_task_requests (manager st)
  ∧ (∀ s, _unapplied_tablet_by_txn (manager (waitting_step' st (k, info))) !! s
          = if decide (s = k)
            then left_entry tm (_unapplied_tablet_by_txn (manager st) !! k)
            else _unapplied_tablet_by_txn (manager st) !! s)
  ∧ erase_signature (waitting_step' st (k, info))
    = erase_signature st
      ++ (if (left_count tm (_unapplied_tablet_by_txn (manager st) !! k) =? 0)
             && submit_ok (FinishTask (request info))
          then [k] else [])
  ∧ (_waitting_finish_task_requests (manager (waitting_step' st (k, info)))
     = _waitting_finish_task_requests (manager st)
     ∨ ∃ info',
         _waitting_finish_task_requests (manager (waitting_step' st (k, info)))
         = <[k := info']> (_waitting_finish_task_requests (manager st))
         ∧ (request info' = request info
            ∨ request info' = moved_from (request info)))
  ∧ ∃ new,
      submitted (waitting_step' st (k, info)) = submitted st ++ new
      ∧ ((left_count tm (_unapplied_tablet_by_txn (manager st) !! k) =? 0)
         && submit_ok (FinishTask (request info)) = true →
         new = [FinishTask (request info)]).
Proof.
  intros Hsig. unfold waitting_step.
  destruct (left_task_applied_general (manager st) (request info))
    as (Hn & Hf & Hw & Hu).
  rewrite Hsig in Hn, Hu.
  destruct (_left_task_applied tm (manager st) (request info)) as [n m1].
  simpl in Hn, Hf, Hw, Hu. subst n.
  destruct (left_count tm (_unapplied_tablet_by_txn (manager st) !! k) =? 0)
    eqn:Hz.
  - destruct (submit_ok (FinishTask (request info))) eqn:Hok; simpl;
      (split_and!;
       [ done | done | by rewrite ?app_nil_r
       | right; eexists; split; [by rewrite Hw | by right] | ]).
    + by exists [FinishTask (request info)].
    + exists []. by rewrite app_nil_r.
  - destruct ((left_count tm (_unapplied_tablet_by_txn (manager st) !! k)
               <? not_report_tablet_num info)
              && (max_ms <? now_check k - last_report_time info)); simpl.
    + split_and!; [done | done | by rewrite app_nil_r | |].
      * right. eexists. split; [by rewrite Hw | by left].
      * destruct (submit_ok (UpdateTabletVersionTask k _)).
        -- by eexists.
        -- exists []. by rewrite app_nil_r.
    + split_and!; [done | done | by rewrite app_nil_r | by left |].
      exists []. by rewrite app_nil_r.
Qed.

Lemma waitting_loop_spec (L : list (Z * FinishTaskInfo)) :
  NoDup L.*1 →
  (∀ k info, (k, info) ∈ L → signature (request info) = k) →
  ∀ st,
    _finish_task_requests (manager (fold_left waitting_step' L st))
      = _finish_task_requests (manager st)
    ∧ (∀ s, _unapplied_tablet_by_txn (manager (fold_left waitting_step' L st)) !! s
            = match (list_to_map L : gmap Z FinishTaskInfo) !! s with
              | Some _ => left_entry tm (_unapplied_tablet_by_txn (manager st) !! s)
              | None => _unapplied_tablet_by_txn (manager st) !! s
              end)
    ∧ (∀ s, s ∈ erase_signature (fold_left waitting_step' L st)
            ↔ s ∈ erase_signature st
              ∨ ∃ info, (s, info) ∈ L
                 ∧ left_count tm (_unapplied_tablet_by_txn (manager st) !! s) = 0
                 ∧ submit_ok (FinishTask (request info)) = true)
    ∧ (∀ s, is_Some (_waitting_finish_task_requests (manager st) !! s) →
            is_Some (_waitting_finish_task_requests
                       (manager (fold_left waitting_step' L st)) !! s))
    ∧ (∀ s info',
         _waitting_finish_task_requests
           (manager (fold_left waitting_step' L st)) !! s = Some info' →
         _waitting_finish_task_requests (manager st) !! s = Some info'
         ∨ ∃ info, (s, info) ∈ L
                   ∧ (request info' = request info
                      ∨ request info' = moved_from (request info)))
    ∧ (∀ task, task ∈ submitted st →
               task ∈ submitted (fold_left waitting_step' L st))
    ∧ (∀ s info, (s, info) ∈ L →
         left_count tm (_unapplied_tablet_by_txn (manager st) !! s) = 0 →
         submit_ok (FinishTask (request info)) = true →
         FinishTask (request info) ∈ submitted (fold_left waitting_step' L st)).
Proof.
  induction L as [| [k0 i0] rest IH]; intros Hnd Hkey st.
  - simpl. split_and!; try done.
    + intros s. split; [by left |]. intros [? | (i & Hin & _)]; [done |].
      by apply elem_of_nil in Hin.
    + intros s info' H. by left.
    + intros s info Hin. by apply elem_of_nil in Hin.
  - rewrite fmap_cons in Hnd. apply NoDup_cons in Hnd as [Hk0 Hnd].
    change (fold_left waitting_step' ((k0, i0) :: rest) st)
      with (fold_left waitting_step' rest (waitting_step' st (k0, i0))).
    assert (∀ k info, (k, info) ∈ rest → signature (request info) = k) as Hkey'
      by (intros k info Hin; by apply Hkey, list_elem_of_further).
    destruct (IH Hnd Hkey' (waitting_step' st (k0, i0)))
      as (Hf & Hu & He & Hw & Hw' & Ht & Ht').
    destruct (waitting_step_spec st k0 i0 (Hkey k0 i0 (list_elem_of_here _ _)))
      as (Sf & Su & Se & Sw & new & St & St').
    assert ((list_to_map rest : gmap Z FinishTaskInfo) !! k0 = None) as Hnone
      by by apply not_elem_of_list_to_map_1.
    assert (∀ s info, (s, info) ∈ rest → s ≠ k0) as Hrest.
    { intros s info Hin ->. apply Hk0. apply list_elem_of_fmap.
      by exists (k0, info). }
    split_and!.
    + by rewrite Hf.
    + intros s. rewrite Hu, Su, list_to_map_cons, lookup_insert.
      destruct (decide (k0 = s)) as [<- | Hne].
      * rewrite Hnone. by rewrite decide_True.
      * rewrite decide_False by done. done.
    + intros s. rewrite He, Se, elem_of_app. split.
      * intros [[? | Hin] | (info & Hin & Hz & Hok)].
        -- by left.
        -- right. exists i0.
           destruct (left_count tm (_unapplied_tablet_by_txn (manager st) !! k0)
                     =? 0) eqn:Hz; simpl in Hin;
             [| by apply elem_of_nil in Hin].
           destruct (submit_ok (FinishTask (request i0))) eqn:Hok;
             [| by apply elem_of_nil in Hin].
           apply list_elem_of_singleton in Hin as ->.
           apply Z.eqb_eq in Hz.
           split_and!; [apply list_elem_of_here | done | done].
        -- right. exists info. rewrite Su in Hz.
           rewrite decide_False in Hz by by eapply Hrest.
           split_and!; [by apply list_elem_of_further | done | done].
      * intros [? | (info & Hin & Hz & Hok)]; [by left; left |].
        apply elem_of_cons in Hin as [[= -> ->] | Hin].
        -- left. right. apply Z.eqb_eq in Hz. rewrite Hz, Hok. simpl.
           by apply list_elem_of_singleton.
        -- right. exists info. rewrite Su.
           rewrite decide_False by by eapply Hrest. done.
    + intros s Hs. apply Hw. destruct Sw as [-> | (info' & -> & _)]; [done |].
      rewrite lookup_insert. by case_decide.
    + intros s info' Hl. destruct (Hw' s info' Hl) as [Hl' | (info & Hin & Hr)].
      * destruct Sw as [Sw | (i' & Sw & Hr)]; rewrite Sw in Hl'; [by left |].
        rewrite lookup_insert in Hl'. case_decide as E; [| by left].
        injection Hl' as <-. subst s. right. exists i0.
        split; [apply list_elem_of_here | done].
      * right. exists info. split; [by apply list_elem_of_further | done].
    + intros task Hin. apply Ht. rewrite St. apply elem_of_app. by left.
    + intros s info Hin Hz Hok.
      apply elem_of_cons in Hin as [[= -> ->] | Hin].
      * apply Ht. rewrite St, St'.
        -- apply elem_of_app. right. by apply list_elem_of_singleton.
        -- apply Z.eqb_eq in Hz. by rewrite Hz, Hok.
      * apply (Ht' s info Hin); [| done]. rewrite Su.
        rewrite decide_False by by eapply Hrest. done.
Qed.

(** *** The erase loops *)

Lemma erase_finish_spec (sigs : list Z) :
  ∀ m,
    _waitting_finish_task_requests (fold_left erase_finish sigs m)
      = _waitting_finish_task_requests m
    ∧ _unapplied_tablet_by_txn (fold_left erase_finish sigs m)
      = _unapplied_tablet_by_txn m
    ∧ ∀ k, _finish_task_requests (fold_left erase_finish sigs m) !! k
           = if decide (k ∈ sigs) then None else _finish_task_requests m !! k.
Proof.
  induction sigs as [| s rest IH]; intros m; simpl.
  - by split_and!.
  - destruct (IH (erase_finish m s)) as (Hw & Hu & Hf).
    split_and!; [by rewrite Hw | by rewrite Hu |].
    intros k. rewrite Hf. simpl. rewrite lookup_delete.
    destruct (decide (k ∈ rest)) as [Hin | Hnin].
    + rewrite decide_True; [done |]. by apply list_elem_of_further.
    + destruct (decide (s = k)) as [-> | Hne].
      * rewrite decide_True; [done |]. apply list_elem_of_here.
      * rewrite decide_False; [done |].
        intros Hin. apply elem_of_cons in Hin as [? | ?]; congruence.
Qed.

Lemma erase_waitting_spec (sigs : list Z) :
  ∀ m,
    _finish_task_requests (fold_left erase_waitting sigs m)
      = _finish_task_requests m
    ∧ (∀ k, _waitting_finish_task_requests (fold_left erase_waitting sigs m) !! k
            = if decide (k ∈ sigs) then None
              else _waitting_finish_task_requests m !! k)
    ∧ (∀ k, _unapplied_tablet_by_txn (fold_left erase_waitting sigs m) !! k
            = if decide (k ∈ sigs) then None
              else _unapplied_tablet_by_txn m !! k).
Proof.
  induction sigs as [| s rest IH]; intros m; simpl.
  - by split_and!.
  - destruct (IH (erase_waitting m s)) as (Hf & Hw & Hu).
    split_and!; [by rewrite Hf | |]; intros k; [rewrite Hw | rewrite Hu];
      simpl; rewrite lookup_delete;
      (destruct (decide (k ∈ rest)) as [Hin | Hnin];
       [ rewrite decide_True; [done |]; by apply list_elem_of_further
       | destruct (decide (s = k)) as [-> | Hne];
         [ rewrite decide_True; [done |]; apply list_elem_of_here
         | rewrite decide_False; [done |];
           intros Hin; apply elem_of_cons in Hin as [? | ?]; congruence ] ]).
Qed.

(** *** The whole function *)

(** The four stages of [finish_publish_version_task]. *)
Lemma finish_publish_stages (m : t) :
  ∃ st1 st2,
    st1 = fold_left finish_step' (map_to_list (_finish_task_requests m))
            {| erase_signature := []; submitted := []; manager := m |}
    ∧ st2 = fold_left waitting_step'
              (map_to_list (_waitting_finish_task_requests m))
              {| erase_signature := []; submitted := submitted st1;
                 manager := manager st1 |}
    ∧ finish_publish' m
      = (fold_left erase_waitting (erase_signature st2)
           (fold_left erase_finish (erase_signature st1) (manager st2)),
         submitted st2).
Proof.
  eexists _, _. split; [reflexivity |]. split; [reflexivity |].
  unfold finish_publish_version_task.
  destruct (finish_loop_spec (map_to_list (_finish_task_requests m))
              (NoDup_fst_map_to_list _)
              {| erase_signature := []; submitted := []; manager := m |})
    as (Hw & _). simpl in Hw. by rewrite Hw.
Qed.

(** What becomes of a request ready to report. *)
Lemma finish_outcome (m : t) (k : Z) :
  _finish_task_requests (finish_publish' m).1 !! k
  = match _finish_task_requests m !! k with
    | Some r => if submit_ok (FinishTask r) then None else Some (moved_from r)
    | None => None
    end
  ∧ (∀ r, _finish_task_requests m !! k = Some r →
          submit_ok (FinishTask r) = true →
          FinishTask r ∈ (finish_publish' m).2).
Proof.
  destruct (finish_publish_stages m) as (st1 & st2 & E1 & E2 & ->). simpl.
  destruct (finish_loop_spec (map_to_list (_finish_task_requests m))
              (NoDup_fst_map_to_list _)
              {| erase_signature := []; submitted := []; manager := m |})
    as (Hw1 & Hu1 & Hf1 & He1 & Ht1).
  rewrite <- E1 in Hw1, Hu1, Hf1, He1, Ht1. simpl in Hw1, Hu1, Hf1, He1, Ht1.
  assert (NoDup (map_to_list (_waitting_finish_task_requests m)).*1) as Hnd
    by apply NoDup_fst_map_to_list.
  destruct (erase_waitting_spec (erase_signature st2)
              (fold_left erase_finish (erase_signature st1) (manager st2)))
    as (-> & _).
  destruct (erase_finish_spec (erase_signature st1) (manager st2))
    as (_ & _ & ->).
  assert (_finish_task_requests (manager st2)
          = _finish_task_requests (manager st1)) as ->.
  { rewrite E2. clear. generalize (submitted st1). intros sub.
    generalize (manager st1). intros m1.
    assert (∀ L st, _finish_task_requests (manager (fold_left waitting_step' L st))
                    = _finish_task_requests (manager st)) as H.
    { induction L as [| [k i] rest IH]; intros st; [done |]. simpl.
      rewrite IH. unfold waitting_step.
      destruct (left_task_applied_general (manager st) (request i))
        as (_ & Hf & _).
      destruct (_left_task_applied tm (manager st) (request i)) as [n m2].
      simpl in Hf.
      destruct (n =? 0); [by destruct (submit_ok _) |].
      by destruct (_ && _). }
    by rewrite H. }
  rewrite Hf1, list_to_map_to_list.
  split.
  - destruct (_finish_task_requests m !! k) as [r |] eqn:Hk.
    + destruct (submit_ok (FinishTask r)) eqn:Hok.
      * rewrite decide_True; [done |]. apply He1. right. exists r.
        split; [by apply elem_of_map_to_list | done].
      * rewrite decide_False; [done |]. intros Hin.
        apply He1 in Hin as [Hin | (r' & Hin & Hok')];
          [by apply elem_of_nil in Hin |].
        apply elem_of_map_to_list in Hin. congruence.
    + by case_decide.
  - intros r Hk Hok.
    assert (FinishTask r ∈ submitted st1) as Hin.
    { apply Ht1. right. exists k, r.
      split_and!; [by apply elem_of_map_to_list | done | done]. }
    rewrite E2. clear -Hin. revert Hin. generalize (erase_signature st1).
    intros _.
    assert (∀ L st task, task ∈ submitted st →
                         task ∈ submitted (fold_left waitting_step' L st)) as H.
    { induction L as [| [k i] rest IH]; intros st task Hin; [done |]. simpl.
      apply IH. unfold waitting_step.
      destruct (_left_task_applied tm (manager st) (request i)) as [n m2].
      destruct (n =? 0).
      - destruct (submit_ok (FinishTask (request i))); simpl; [| done].
        apply elem_of_app. by left.
      - destruct (_ && _); simpl; [| done].
        destruct (submit_ok _); [| done]. apply elem_of_app. by left. }
    intros Hin. by apply H.
Qed.

Lemma keyed_map_to_list (m : t) :
  keyed_by_signature m →
  ∀ k info, (k, info) ∈ map_to_list (_waitting_finish_task_requests m) →
            signature (request info) = k.
Proof. intros Hk k info Hin. by apply Hk, elem_of_map_to_list. Qed.

(** What becomes of a waiting request and of the entries of unapplied
    tablets. *)
Lemma waitting_outcome (m : t) :
  keyed_by_signature m →
  ∀ k,
    (∀ info, _waitting_finish_task_requests m !! k = Some info →
       if (left_count tm (_unapplied_tablet_by_txn m !! k) =? 0)
          && submit_ok (FinishTask (request info))
       then _waitting_finish_task_requests (finish_publish' m).1 !! k = None
            ∧ _unapplied_tablet_by_txn (finish_publish' m).1 !! k = None
            ∧ FinishTask (request info) ∈ (finish_publish' m).2
       else is_Some (_waitting_finish_task_requests (finish_publish' m).1 !! k)
            ∧ _unapplied_tablet_by_txn (finish_publish' m).1 !! k
              = left_entry tm (_unapplied_tablet_by_txn m !! k))
    ∧ (_waitting_finish_task_requests m !! k = None →
       _waitting_finish_task_requests (finish_publish' m).1 !! k = None
       ∧ _unapplied_tablet_by_txn (finish_publish' m).1 !! k
         = _unapplied_tablet_by_txn m !! k)
    ∧ (∀ info',
         _waitting_finish_task_requests (finish_publish' m).1 !! k = Some info' →
         ∃ info, _waitting_finish_task_requests m !! k = Some info
                 ∧ (request info' = request info
                    ∨ request info' = moved_from (request info))).
Proof.
  intros Hkey k.
  destruct (finish_publish_stages m) as (st1 & st2 & E1 & E2 & ->). simpl.
  destruct (finish_loop_spec (map_to_list (_finish_task_requests m))
              (NoDup_fst_map_to_list _)
              {| erase_signature := []; submitted := []; manager := m |})
    as (Hw1 & Hu1 & _).
  rewrite <- E1 in Hw1, Hu1. simpl in Hw1, Hu1.
  destruct (waitting_loop_spec (map_to_list (_waitting_finish_task_requests m))
              (NoDup_fst_map_to_list _) (keyed_map_to_list m Hkey)
              {| erase_signature := []; submitted := submitted st1;
                 manager := manager st1 |})
    as (_ & Hu2 & He2 & Hw2 & Hw2' & _ & Ht2).
  rewrite <- E2 in Hu2, He2, Hw2, Hw2', Ht2.
  simpl in Hu2, He2, Hw2, Hw2', Ht2.
  rewrite Hu1 in Hu2, He2, Ht2. rewrite Hw1 in Hw2, Hw2'.
  destruct (erase_waitting_spec (erase_signature st2)
              (fold_left erase_finish (erase_signature st1) (manager st2)))
    as (_ & Hw4 & Hu4).
  destruct (erase_finish_spec (erase_signature st1) (manager st2))
    as (Hw3 & Hu3 & _).
  rewrite Hw3 in Hw4. rewrite Hu3 in Hu4.
  rewrite Hw4, Hu4, Hu2, list_to_map_to_list.
  assert (k ∈ erase_signature st2
          ↔ ∃ info, _waitting_finish_task_requests m !! k = Some info
                    ∧ left_count tm (_unapplied_tablet_by_txn m !! k) = 0
                    ∧ submit_ok (FinishTask (request info)) = true) as Her.
  { rewrite He2. split.
    - intros [Hin | (info & Hin & ? & ?)]; [by apply elem_of_nil in Hin |].
      exists info. by rewrite <- elem_of_map_to_list.
    - intros (info & Hin & ? & ?). right. exists info.
      by rewrite elem_of_map_to_list. }
  split_and!.
  - intros info Hl. rewrite Hl.
    destruct (left_count tm (_unapplied_tablet_by_txn m !! k) =? 0) eqn:Hz;
      simpl.
    + apply Z.eqb_eq in Hz.
      destruct (submit_ok (FinishTask (request info))) eqn:Hok.
      * rewrite !decide_True by (apply Her; eauto).
        split_and!; [done | done |].
        apply (Ht2 k info); [by apply elem_of_map_to_list | done | done].
      * rewrite !decide_False.
        -- split; [| done]. apply Hw2. by rewrite Hl.
        -- intros (i & Hi & _ & Hok')%Her. congruence.
        -- intros (i & Hi & _ & Hok')%Her. congruence.
    + apply Z.eqb_neq in Hz. rewrite !decide_False.
      * split; [| done]. apply Hw2. by rewrite Hl.
      * intros (i & _ & Hz' & _)%Her. done.
      * intros (i & _ & Hz' & _)%Her. done.
  - intros Hl. rewrite Hl.
    assert (k ∉ erase_signature st2) as Hnin.
    { intros (i & Hi & _)%Her. congruence. }
    rewrite !decide_False by done. split; [| done].
    destruct (_waitting_finish_task_requests (manager st2) !! k) as [i' |]
      eqn:Hl2; [| done].
    destruct (Hw2' k i' Hl2) as [Hl' | (i & Hin & _)]; [congruence |].
    apply elem_of_map_to_list in Hin. congruence.
  - intros info'. case_decide; [done |]. intros Hl2.
    destruct (Hw2' k info' Hl2) as [Hl' | (i & Hin & Hr)].
    + exists info'. split; [done | by left].
    + exists i. split; [by apply elem_of_map_to_list | done].
Qed.

(** A finish task enters the submitted list of the second loop only for an
    entry with nothing left to apply whose submit succeeds. *)
Lemma waitting_step_submitted (st : LoopState) (k : Z) (info : FinishTaskInfo)
    (r : TFinishTaskRequest) :
  signature (request info) = k →
  FinishTask r ∈ submitted (waitting_step' st (k, info)) →
  FinishTask r ∈ submitted st
  ∨ (r = request info
     ∧ left_count tm (_unapplied_tablet_by_txn (manager st) !! k) = 0
     ∧ submit_ok (FinishTask r) = true).
Proof.
  intros Hsig. unfold waitting_step.
  destruct (left_task_applied_general (manager st) (request info))
    as (Hn & _). rewrite Hsig in Hn.
  destruct (_left_task_applied tm (manager st) (request info)) as [n m1].
  simpl in Hn. subst n.
  destruct (Z.eqb_spec
              (left_count tm (_unapplied_tablet_by_txn (manager st) !! k)) 0)
    as [Hz | Hz].
  - destruct (submit_ok (FinishTask (request info))) eqn:Hok; simpl;
      [| by left].
    rewrite elem_of_app, list_elem_of_singleton.
    intros [? | [= ->]]; [by left | by right].
  - destruct (_ && _); simpl; [| by left].
    destruct (submit_ok (UpdateTabletVersionTask k _)); [| by left].
    rewrite elem_of_app, list_elem_of_singleton.
    intros [? | ?]; [by left | done].
Qed.

Lemma waitting_loop_submitted (L : list (Z * FinishTaskInfo)) :
  NoDup L.*1 →
  (∀ k info, (k, info) ∈ L → signature (request info) = k) →
  ∀ st r,
    FinishTask r ∈ submitted (fold_left waitting_step' L st) →
    FinishTask r ∈ submitted st
    ∨ ∃ k info, (k, info) ∈ L ∧ r = request info
        ∧ left_count tm (_unapplied_tablet_by_txn (manager st) !! k) = 0
        ∧ submit_ok (FinishTask r) = true.
Proof.
  induction L as [| [k0 i0] rest IH]; intros Hnd Hkey st r Hin; [by left |].
  rewrite fmap_cons in Hnd. apply NoDup_cons in Hnd as [Hk0 Hnd].
  change (fold_left waitting_step' ((k0, i0) :: rest) st)
    with (fold_left waitting_step' rest (waitting_step' st (k0, i0))) in Hin.
  assert (∀ k info, (k, info) ∈ rest → signature (request info) = k) as Hkey'
    by (intros k info Hi; by apply Hkey, list_elem_of_further).
  pose proof (Hkey k0 i0 (list_elem_of_here _ _)) as Hsig0.
  destruct (IH Hnd Hkey' _ _ Hin) as [Hin1 | (k & info & Hi & -> & Hz & Hok)].
  - destruct (waitting_step_submitted st k0 i0 r Hsig0 Hin1)
      as [? | (-> & Hz & Hok)]; [by left | right].
    exists k0, i0. split_and!; [apply list_elem_of_here | done | done | done].
  - right. exists k, info.
    destruct (waitting_step_spec st k0 i0 Hsig0) as (_ & Su & _).
    rewrite Su in Hz. rewrite decide_False in Hz.
    + split_and!; [by apply list_elem_of_further | done | done | done].
    + intros ->. apply Hk0. apply list_elem_of_fmap. by exists (k0, info).
Qed.

Lemma left_count_zero (e : option (gset (Z * Z))) :
  left_count tm e = 0 ↔ ∃ pairs, e = Some pairs ∧ remaining tm pairs = ∅.
Proof.
  destruct e as [pairs |]; simpl.
  - split.
    + intros Hz. exists pairs. split; [done |].
      apply leibniz_equiv, size_empty_iff. lia.
    + intros (p & [= <-] & ->). by rewrite size_empty.
  - split; [done | by intros (? & ? & _)].
Qed.

(** Where a submitted finish task comes from. *)
Lemma submitted_finish_task_origin (m : t) (r : TFinishTaskRequest) :
  keyed_by_signature m →
  FinishTask r ∈ (finish_publish' m).2 →
  submit_ok (FinishTask r) = true
  ∧ ((∃ k, _finish_task_requests m !! k = Some r)
     ∨ ∃ k info pairs,
         _waitting_finish_task_requests m !! k = Some info
         ∧ request info = r
         ∧ _unapplied_tablet_by_txn m !! k = Some pairs
         ∧ remaining tm pairs = ∅).
Proof.
  intros Hkey.
  destruct (finish_publish_stages m) as (st1 & st2 & E1 & E2 & ->). simpl.
  destruct (finish_loop_spec (map_to_list (_finish_task_requests m))
              (NoDup_fst_map_to_list _)
              {| erase_signature := []; submitted := []; manager := m |})
    as (_ & Hu1 & _ & _ & Ht1).
  rewrite <- E1 in Hu1, Ht1. simpl in Hu1, Ht1.
  rewrite E2. intros Hin.
  destruct (waitting_loop_submitted _ (NoDup_fst_map_to_list _)
              (keyed_map_to_list m Hkey) _ _ Hin)
    as [Hin1 | (k & info & Hi & -> & Hz & Hok)]; simpl in *.
  - apply Ht1 in Hin1 as [Hin1 | (k & r' & Hi & [= <-] & Hok)];
      [by apply elem_of_nil in Hin1 |].
    split; [done |]. left. exists k. by apply elem_of_map_to_list.
  - split; [done |]. right. rewrite Hu1 in Hz.
    apply left_count_zero in Hz as (pairs & Hp & He).
    exists k, info, pairs. split_and!; try done.
    by apply elem_of_map_to_list.
Qed.

(** Where a submitted update task comes from. *)
Lemma waitting_step_update (st : LoopState) (k : Z) (info : FinishTaskInfo)
    (s : Z) (tvs : list TTabletVersionPair) :
  signature (request info) = k →
  UpdateTabletVersionTask s tvs ∈ submitted (waitting_step' st (k, info)) →
  UpdateTabletVersionTask s tvs ∈ submitted st
  ∨ (s = k ∧ tvs = tablet_versions (request info)
     ∧ left_count tm (_unapplied_tablet_by_txn (manager st) !! k) ≠ 0
     ∧ left_count tm (_unapplied_tablet_by_txn (manager st) !! k)
       < not_report_tablet_num info
     ∧ max_ms < now_check k - last_report_time info
     ∧ submit_ok (UpdateTabletVersionTask s tvs) = true).
Proof.
  intros Hsig. unfold waitting_step.
  destruct (left_task_applied_general (manager st) (request info))
    as (Hn & _). rewrite Hsig in Hn.
  destruct (_left_task_applied tm (manager st) (request info)) as [n m1].
  simpl in Hn. subst n.
  destruct (Z.eqb_spec
              (left_count tm (_unapplied_tablet_by_txn (manager st) !! k)) 0)
    as [Hz | Hz].
  - destruct (submit_ok (FinishTask (request info))); simpl; [| by left].
    rewrite elem_of_app, list_elem_of_singleton.
    intros [? | ?]; [by left | done].
  - destruct (Z.ltb_spec
                (left_count tm (_unapplied_tablet_by_txn (manager st) !! k))
                (not_report_tablet_num info)) as [Hlt | ?]; simpl; [| by left].
    destruct (Z.ltb_spec max_ms (now_check k - last_report_time info))
      as [Ht | ?]; simpl; [| by left].
    destruct (submit_ok (UpdateTabletVersionTask k _)) eqn:Hok; [| by left].
    rewrite elem_of_app, list_elem_of_singleton.
    intros [? | [= -> ->]]; [by left | right]. by split_and!.
Qed.

Lemma waitting_loop_update (L : list (Z * FinishTaskInfo)) :
  NoDup L.*1 →
  (∀ k info, (k, info) ∈ L → signature (request info) = k) →
  ∀ st s tvs,
    UpdateTabletVersionTask s tvs ∈ submitted (fold_left waitting_step' L st) →
    UpdateTabletVersionTask s tvs ∈ submitted st
    ∨ ∃ info, (s, info) ∈ L ∧ tvs = tablet_versions (request info)
        ∧ left_count tm (_unapplied_tablet_by_txn (manager st) !! s) ≠ 0
        ∧ left_count tm (_unapplied_tablet_by_txn (manager st) !! s)
          < not_report_tablet_num info
        ∧ max_ms < now_check s - last_report_time info
        ∧ submit_ok (UpdateTabletVersionTask s tvs) = true.
Proof.
  induction L as [| [k0 i0] rest IH]; intros Hnd Hkey st s tvs Hin; [by left |].
  rewrite fmap_cons in Hnd. apply NoDup_cons in Hnd as [Hk0 Hnd].
  change (fold_left waitting_step' ((k0, i0) :: rest) st)
    with (fold_left waitting_step' rest (waitting_step' st (k0, i0))) in Hin.
  assert (∀ k info, (k, info) ∈ rest → signature (request info) = k) as Hkey'
    by (intros k info Hi; by apply Hkey, list_elem_of_further).
  pose proof (Hkey k0 i0 (list_elem_of_here _ _)) as Hsig0.
  destruct (IH Hnd Hkey' _ _ _ Hin)
    as [Hin1 | (info & Hi & -> & Hz & Hlt & Ht & Hok)].
  - destruct (waitting_step_update st k0 i0 s tvs Hsig0 Hin1)
      as [? | (-> & -> & ? & ? & ? & ?)]; [by left | right].
    exists i0. split_and!; try done. apply list_elem_of_here.
  - right. exists info.
    destruct (waitting_step_spec st k0 i0 Hsig0) as (_ & Su & _).
    rewrite Su in Hz, Hlt. rewrite decide_False in Hz, Hlt.
    + split_and!; try done. by apply list_elem_of_further.
    + intros ->. apply Hk0. apply list_elem_of_fmap. by exists (k0, info).
    + intros ->. apply Hk0. apply list_elem_of_fmap. by exists (k0, info).
Qed.

(** When the update of a waiting request is submitted. *)
Lemma waitting_step_update_submitted (st : LoopState) (k : Z)
    (info : FinishTaskInfo) :
  signature (request info) = k →
  left_count tm (_unapplied_tablet_by_txn (manager st) !! k) ≠ 0 →
  left_count tm (_unapplied_tablet_by_txn (manager st) !! k)
    < not_report_tablet_num info →
  max_ms < now_check k - last_report_time info →
  submit_ok (UpdateTabletVersionTask k (tablet_versions (request info))) = true →
  UpdateTabletVersionTask k (tablet_versions (request info))
    ∈ submitted (waitting_step' st (k, info)).
Proof.
  intros Hsig Hz Hlt Ht Hok. unfold waitting_step.
  destruct (left_task_applied_general (manager st) (request info))
    as (Hn & _). rewrite Hsig in Hn.
  destruct (_left_task_applied tm (manager st) (request info)) as [n m1].
  simpl in Hn. subst n.
  apply Z.eqb_neq in Hz. rewrite Hz.
  apply Z.ltb_lt in Hlt. apply Z.ltb_lt in Ht. rewrite Hlt, Ht. simpl.
  rewrite Hok. apply elem_of_app. right. by apply list_elem_of_singleton.
Qed.

Lemma waitting_loop_update_submitted (L : list (Z * FinishTaskInfo)) :
  NoDup L.*1 →
  (∀ k info, (k, info) ∈ L → signature (request info) = k) →
  ∀ st s info,
    (s, info) ∈ L →
    left_count tm (_unapplied_tablet_by_txn (manager st) !! s) ≠ 0 →
    left_count tm (_unapplied_tablet_by_txn (manager st) !! s)
      < not_report_tablet_num info →
    max_ms < now_check s - last_report_time info →
    submit_ok (UpdateTabletVersionTask s (tablet_versions (request info))) = true →
    UpdateTabletVersionTask s (tablet_versions (request info))
      ∈ submitted (fold_left waitting_step' L st).
Proof.
  induction L as [| [k0 i0] rest IH]; intros Hnd Hkey st s info Hin Hz Hlt Ht Hok;
    [by apply elem_of_nil in Hin |].
  rewrite fmap_cons in Hnd. apply NoDup_cons in Hnd as [Hk0 Hnd].
  change (fold_left waitting_step' ((k0, i0) :: rest) st)
    with (fold_left waitting_step' rest (waitting_step' st (k0, i0))).
  assert (∀ k info, (k, info) ∈ rest → signature (request info) = k) as Hkey'
    by (intros k i Hi; by apply Hkey, list_elem_of_further).
  pose proof (Hkey k0 i0 (list_elem_of_here _ _)) as Hsig0.
  apply elem_of_cons in Hin as [[= -> ->] | Hin].
  - destruct (waitting_loop_spec rest Hnd Hkey' (waitting_step' st (k0, i0)))
      as (_ & _ & _ & _ & _ & Hmono & _).
    apply Hmono. by apply waitting_step_update_submitted.
  - assert (s ≠ k0) as Hne.
    { intros ->. apply Hk0. apply list_elem_of_fmap. by exists (k0, info). }
    destruct (waitting_step_spec st k0 i0 Hsig0) as (_ & Su & _).
    apply (IH Hnd Hkey' _ s info Hin); try done;
      by rewrite Su, decide_False.
Qed.

(** X14. [finish_publish_version_task] submits a tablet-version update for
    a signature exactly when a request waits under it, the pool accepts the
    update, more than [max_update_tablet_version_internal_ms] have passed
    since its [last_report_time], and the count [_left_task_applied]
    returns is positive and below its [not_report_tablet_num].  That count
    is the number of pairs of the entry still behind, or 1 when the request
    has no entry: then the update goes out although nothing is left to
    apply.  The update carries the request's [tablet_versions]. *)
Theorem update_task_submitted_iff (m : t) (s : Z)
    (tvs : list TTabletVersionPair) :
  keyed_by_signature m →
  UpdateTabletVersionTask s tvs ∈ (finish_publish' m).2
  ↔ ∃ info,
      _waitting_finish_task_requests m !! s = Some info
      ∧ tvs = tablet_versions (request info)
      ∧ match _unapplied_tablet_by_txn m !! s with
        | Some pairs =>
            0 < Z.of_nat (size (remaining tm pairs)) < not_report_tablet_num info
        | None => 1 < not_report_tablet_num info
        end
      ∧ max_ms < now_check s - last_report_time info
      ∧ submit_ok (UpdateTabletVersionTask s tvs) = true.
Proof.
  intros Hkey.
  destruct (finish_publish_stages m) as (st1 & st2 & E1 & E2 & ->). simpl.
  destruct (finish_loop_spec (map_to_list (_finish_task_requests m))
              (NoDup_fst_map_to_list _)
              {| erase_signature := []; submitted := []; manager := m |})
    as (_ & Hu1 & _ & _ & Ht1).
  rewrite <- E1 in Hu1, Ht1. simpl in Hu1, Ht1.
  rewrite E2. split.
  - intros Hin.
    destruct (waitting_loop_update _ (NoDup_fst_map_to_list _)
                (keyed_map_to_list m Hkey) _ _ _ Hin)
      as [Hin1 | (info & Hi & -> & Hz & Hlt & Ht & Hok)]; simpl in *.
    + apply Ht1 in Hin1 as [Hin1 | (k & r' & _ & ? & _)];
        [by apply elem_of_nil in Hin1 | done].
    + rewrite Hu1 in Hz, Hlt. exists info.
      split_and!; try done; [by apply elem_of_map_to_list |].
      destruct (_unapplied_tablet_by_txn m !! s); simpl in *; lia.
  - intros (info & Hw & -> & Hc & Ht & Hok).
    apply waitting_loop_update_submitted;
      [ apply NoDup_fst_map_to_list | by apply keyed_map_to_list
      | by apply elem_of_map_to_list | | | done | done ];
      simpl; rewrite Hu1;
      destruct (_unapplied_tablet_by_txn m !! s); simpl; lia.
Qed.

(** X8. [finish_publish_version_task] erases a request that is ready to
    report exactly when the pool accepts its finish task, which is then
    among the submitted tasks; a request whose submit fails stays in
    [_finish_task_requests], moved-from, and nothing is added to the map. *)
Theorem finish_publish_reports_ready_requests (m : t) (k : Z) :
  _finish_task_requests (finish_publish' m).1 !! k
  = match _finish_task_requests m !! k with
    | Some r => if submit_ok (FinishTask r) then None else Some (moved_from r)
    | None => None
    end
  ∧ (∀ r, _finish_task_requests m !! k = Some r →
          submit_ok (FinishTask r) = true →
          FinishTask r ∈ (finish_publish' m).2).
Proof. apply finish_outcome. Qed.


(** X10. When every pair of the entry of a waiting request is applied,
    [finish_publish_version_task] erases the entry; if the pool accepts the
    finish task the request leaves [_waitting_finish_task_requests] and its
    task is submitted, and if the pool refuses it the request stays waiting
    with no entry left. *)
Theorem finish_publish_reports_applied_request (m : t) (k : Z)
    (info : FinishTaskInfo) (pairs : gset (Z * Z)) :
  keyed_by_signature m →
  _waitting_finish_task_requests m !! k = Some info →
  _unapplied_tablet_by_txn m !! k = Some pairs →
  remaining tm pairs = ∅ →
  _unapplied_tablet_by_txn (finish_publish' m).1 !! k = None
  ∧ (if submit_ok (FinishTask (request info))
     then _waitting_finish_task_requests (finish_publish' m).1 !! k = None
          ∧ FinishTask (request info) ∈ (finish_publish' m).2
     else is_Some (_waitting_finish_task_requests (finish_publish' m).1 !! k)).
Proof.
  intros Hkey Hw Hu He.
  destruct (waitting_outcome m Hkey k) as (H & _ & _).
  specialize (H info Hw). rewrite Hu in H. simpl in H.
  rewrite He, size_empty in H. simpl in H.
  rewrite decide_True in H by done.
  destruct (submit_ok (FinishTask (request info))); [by destruct H as (? & ? & ?) |].
  by destruct H.
Qed.

(** X12. [finish_publish_version_task] submits a finish task only for a
    request the pool accepts that was ready to report, or was waiting with
    an entry none of whose pairs has a running tablet behind the requested
    version. *)
Theorem finish_task_only_for_applied_requests (m : t)
    (r : TFinishTaskRequest) :
  keyed_by_signature m →
  FinishTask r ∈ (finish_publish' m).2 →
  submit_ok (FinishTask r) = true
  ∧ ((∃ k, _finish_task_requests m !! k = Some r)
     ∨ ∃ k info pairs,
         _waitting_finish_task_requests m !! k = Some info
         ∧ request info = r
         ∧ _unapplied_tablet_by_txn m !! k = Some pairs
         ∧ remaining tm pairs = ∅).
Proof. apply submitted_finish_task_origin. Qed.

(** X13. A request handed to [wait_publish_task_apply_finish] on an empty
    manager gets its finish task submitted by the next
    [finish_publish_version_task] exactly when the pool accepts the task
    and either [_all_task_applied] answered true at hand-over, or none of
    the pairs lagging then has a running tablet still behind now. *)
Theorem publish_then_finish (tm1 : TabletManager) (clock : nat → Z)
    (req : TFinishTaskRequest) :
  FinishTask req
    ∈ (finish_publish'
         (wait_publish_task_apply_finish tm1 clock [req] empty_manager)).2
  ↔ submit_ok (FinishTask req) = true
    ∧ ((_all_task_applied tm1 empty_manager req).1.1 = true
       ∨ remaining tm (lagging_pairs tm1 (tablet_publish_versions req)) = ∅).
Proof.
  unfold wait_publish_task_apply_finish. simpl.
  destruct (all_task_applied_cases tm1 empty_manager req)
    as [[looked E] | (looked & E & Hne)].
  - unfold wait_step. rewrite E. simpl.
    set (M := {| _finish_task_requests := <[signature req := req]> ∅;
                 _waitting_finish_task_requests := ∅;
                 _unapplied_tablet_by_txn := ∅ |}).
    assert (keyed_by_signature M) as Hkey.
    { intros s info. simpl. by rewrite lookup_empty. }
    split.
    + intros Hin.
      destruct (submitted_finish_task_origin M req Hkey Hin) as [Hok _].
      split; [done | by left].
    + intros [Hok _].
      apply (proj2 (finish_outcome M (signature req)) req); [| done].
      apply lookup_insert_eq.
  - unfold wait_step. rewrite E. simpl.
    set (info := {| request := req; last_report_time := clock 0%nat;
                    not_report_tablet_num :=
                      Z.of_nat (length (tablet_publish_versions req)) |}).
    set (L := lagging_pairs tm1 (tablet_publish_versions req)) in *.
    set (M := {| _finish_task_requests := ∅;
                 _waitting_finish_task_requests := <[signature req := info]> ∅;
                 _unapplied_tablet_by_txn := <[signature req := L]> ∅ |}).
    assert (keyed_by_signature M) as Hkey.
    { intros s i. simpl. rewrite lookup_insert. case_decide; [| by rewrite lookup_empty].
      by intros [= <-]. }
    split.
    + intros Hin.
      destruct (submitted_finish_task_origin M req Hkey Hin)
        as [Hok [[k Hk] | (k & i & pairs & Hw & _ & Hu & Hrem)]].
      * simpl in Hk. by rewrite lookup_empty in Hk.
      * split; [done |]. right. simpl in Hw, Hu.
        rewrite lookup_insert in Hw. case_decide as Ek;
          [| by rewrite lookup_empty in Hw].
        subst k. rewrite lookup_insert_eq in Hu. by injection Hu as ->.
    + intros [Hok [Ht | Hrem]]; [done |].
      destruct (waitting_outcome M Hkey (signature req)) as (H & _ & _).
      specialize (H info (lookup_insert_eq _ _ _)). simpl in H.
      rewrite lookup_insert_eq in H. simpl in H.
      rewrite Hrem, size_empty in H. simpl in H. rewrite Hok in H.
      by destruct H as (_ & _ & ?).
Qed.

(** One call keeps a waiting request without entry as it is. *)
Lemma finish_publish_keeps_waits_without_entry (m : t) (k : Z) :
  (∀ r, signature (moved_from r) = signature r) →
  waits_without_entry m k →
  waits_without_entry (finish_publish' m).1 k.
Proof.
  intros Hmove (Hkey & [info Hw] & Hu).
  split_and!.
  - intros s info' Hl.
    destruct (waitting_outcome m Hkey s) as (_ & _ & H).
    destruct (H info' Hl) as (i & Hi & [-> | ->]); [by apply Hkey |].
    rewrite Hmove. by apply Hkey.
  - destruct (waitting_outcome m Hkey k) as (H & _ & _).
    specialize (H info Hw). rewrite Hu in H. simpl in H. by destruct H.
  - destruct (waitting_outcome m Hkey k) as (H & _ & _).
    specialize (H info Hw). rewrite Hu in H. simpl in H. by destruct H.
Qed.

(** One call submits no finish task with the signature of a waiting request
    without entry that is not ready to report as well, and leaves no such
    request ready to report. *)
Lemma finish_publish_no_task_without_entry (m : t) (k : Z) :
  (∀ r, signature (moved_from r) = signature r) →
  waits_without_entry m k →
  (∀ k' r, _finish_task_requests m !! k' = Some r → signature r ≠ k) →
  (∀ r, signature r = k → FinishTask r ∉ (finish_publish' m).2)
  ∧ (∀ k' r, _finish_task_requests (finish_publish' m).1 !! k' = Some r →
             signature r ≠ k).
Proof.
  intros Hmove (Hkey & _ & Hu) Hnr. split.
  - intros r Hr Hin.
    destruct (submitted_finish_task_origin m r Hkey Hin)
      as [_ [[k' Hk'] | (k' & info' & pairs & Hw' & Hreq & Hu' & _)]].
    + by apply (Hnr k' r Hk').
    + assert (k' = k) as ->.
      { rewrite <- (Hkey k' info' Hw'), Hreq. done. }
      rewrite Hu in Hu'. discriminate Hu'.
  - intros k' r Hl. destruct (finish_outcome m k') as [E _].
    rewrite E in Hl.
    destruct (_finish_task_requests m !! k') as [r0 |] eqn:H0; [| done].
    destruct (submit_ok (FinishTask r0)); [done |].
    injection Hl as <-. rewrite Hmove. by apply (Hnr k' r0).
Qed.

End FinishPublishVersionFacts.

Section FinishRoundsFacts.
Import PublishVersionManager FinishPublishVersion.

Lemma finish_round_spec
    (moved_from : TFinishTaskRequest → TFinishTaskRequest)
    (acc : t * list SubmittedTask) (r : Round) :
  finish_round moved_from acc r
  = ((finish_publish_version_task (round_tablets r) (round_submit_ok r)
        moved_from (round_now_check r) (round_now_report r) (round_max_ms r)
        acc.1).1,
     acc.2
     ++ (finish_publish_version_task (round_tablets r) (round_submit_ok r)
           moved_from (round_now_check r) (round_now_report r) (round_max_ms r)
           acc.1).2).
Proof.
  unfold finish_round. by destruct (finish_publish_version_task _ _ _ _ _ _ _).
Qed.

Lemma finish_rounds_keep_waits_without_entry
    (moved_from : TFinishTaskRequest → TFinishTaskRequest)
    (rounds : list Round) (k : Z) :
  (∀ r, signature (moved_from r) = signature r) →
  ∀ acc,
    waits_without_entry acc.1 k →
    waits_without_entry (fold_left (finish_round moved_from) rounds acc).1 k.
Proof.
  intros Hmove. induction rounds as [| r rest IH]; intros acc H; [done |].
  simpl. apply IH. rewrite finish_round_spec. simpl.
  by apply finish_publish_keeps_waits_without_entry.
Qed.

Lemma finish_rounds_no_task_without_entry
    (moved_from : TFinishTaskRequest → TFinishTaskRequest)
    (rounds : list Round) (k : Z) :
  (∀ r, signature (moved_from r) = signature r) →
  ∀ acc,
    waits_without_entry acc.1 k →
    (∀ k' r, _finish_task_requests acc.1 !! k' = Some r → signature r ≠ k) →
    (∀ r, signature r = k → FinishTask r ∉ acc.2) →
    ∀ r, signature r = k →
         FinishTask r ∉ (fold_left (finish_round moved_from) rounds acc).2.
Proof.
  intros Hmove. induction rounds as [| rd rest IH]; intros acc Hw Hnr Hacc;
    [done |].
  simpl.
  destruct (finish_publish_no_task_without_entry (round_tablets rd)
              (round_submit_ok rd) moved_from (round_now_check rd)
              (round_now_report rd) (round_max_ms rd) acc.1 k Hmove Hw Hnr)
    as [Htasks Hnr'].
  apply IH; rewrite finish_round_spec; simpl.
  - by apply finish_publish_keeps_waits_without_entry.
  - done.
  - intros r Hr Hin. apply elem_of_app in Hin as [Hin | Hin].
    + by apply (Hacc r).
    + by apply (Htasks r).
Qed.

(** X11. A waiting request that has no entry of unapplied tablets stays
    waiting and without entry through any number of calls of
    [finish_publish_version_task], whatever the tablets and the pool do;
    and unless a request with its signature is ready to report as well, no
    finish task with its signature is submitted in any of these calls. *)
Theorem waiting_without_entry_is_never_reported
    (moved_from : TFinishTaskRequest → TFinishTaskRequest)
    (rounds : list Round) (m : t) (k : Z) :
  (∀ r, signature (moved_from r) = signature r) →
  waits_without_entry m k →
  waits_without_entry (finish_rounds moved_from rounds m).1 k
  ∧ ((∀ k' r, _finish_task_requests m !! k' = Some r → signature r ≠ k) →
     ∀ r, signature r = k →
          FinishTask r ∉ (finish_rounds moved_from rounds m).2).
Proof.
  intros Hmove Hw. unfold finish_rounds. split.
  - by apply finish_rounds_keep_waits_without_entry.
  - intros Hnr. apply finish_rounds_no_task_without_entry; try done.
    intros r _ Hin. by apply elem_of_nil in Hin.
Qed.

Lemma keyed_singleton (req : TFinishTaskRequest) (u : gmap Z (gset (Z * Z))) :
  keyed_by_signature
    {| _finish_task_requests := ∅;
       _waitting_finish_task_requests := {[ signature req := waiting_info req ]};
       _unapplied_tablet_by_txn := u |}.
Proof.
  intros s info. simpl. intros [<- <-]%lookup_singleton_Some. done.
Qed.


Lemma finish_publish_reports_applied_request_witness :
  _unapplied_tablet_by_txn
    (finish_publish_version_task two_tablets (λ _, true) move_lists_out
       (λ _, 0) (λ _, 0) 1000
       (manager_waiting lagging_then_dup {[ (1, 3) ]})).1 !! 42 = None
  ∧ _waitting_finish_task_requests
      (finish_publish_version_task two_tablets (λ _, true) move_lists_out
         (λ _, 0) (λ _, 0) 1000
         (manager_waiting lagging_then_dup {[ (1, 3) ]})).1 !! 42 = None
  ∧ FinishTask lagging_then_dup
    ∈ (finish_publish_version_task two_tablets (λ _, true) move_lists_out
         (λ _, 0) (λ _, 0) 1000
         (manager_waiting lagging_then_dup {[ (1, 3) ]})).2.
Proof.
  apply (finish_publish_reports_applied_request two_tablets (λ _, true)
           move_lists_out (λ _, 0) (λ _, 0) 1000
           (manager_waiting lagging_then_dup {[ (1, 3) ]}) 42
           (waiting_info lagging_then_dup) {[ (1, 3) ]}).
  - apply keyed_singleton.
  - apply lookup_singleton_eq.
  - apply lookup_singleton_eq.
  - apply set_eq. intros x. unfold remaining.
    rewrite elem_of_filter, elem_of_singleton. split; [| by intros ?%elem_of_empty].
    intros [H ->]. vm_compute in H. discriminate H.
Defined.

Lemma finish_task_only_for_applied_requests_witness :
  (λ _ : SubmittedTask, true) (FinishTask lagging_then_dup) = true
  ∧ ((∃ k, _finish_task_requests
             (manager_waiting lagging_then_dup {[ (1, 3) ]}) !! k
           = Some lagging_then_dup)
     ∨ ∃ k info pairs,
         _waitting_finish_task_requests
           (manager_waiting lagging_then_dup {[ (1, 3) ]}) !! k = Some info
         ∧ request info = lagging_then_dup
         ∧ _unapplied_tablet_by_txn
             (manager_waiting lagging_then_dup {[ (1, 3) ]}) !! k = Some pairs
         ∧ remaining two_tablets pairs = ∅).
Proof.
  apply (finish_task_only_for_applied_requests two_tablets (λ _, true)
           move_lists_out (λ _, 0) (λ _, 0) 1000
           (manager_waiting lagging_then_dup {[ (1, 3) ]}) lagging_then_dup).
  - apply keyed_singleton.
  - vm_compute. apply list_elem_of_here.
Defined.

Lemma update_task_submitted_iff_witness :
  UpdateTabletVersionTask 42 (tablet_versions lagging_then_dup)
    ∈ (finish_publish_version_task two_tablets (λ _, true) move_lists_out
         (λ _, 5000) (λ _, 0) 1000
         (manager_waiting lagging_then_dup {[ (1, 5) ]})).2.
Proof.
  apply (update_task_submitted_iff two_tablets (λ _, true) move_lists_out
           (λ _, 5000) (λ _, 0) 1000
           (manager_waiting lagging_then_dup {[ (1, 5) ]}) 42
           (tablet_versions lagging_then_dup)).
  - apply keyed_singleton.
  - exists (waiting_info lagging_then_dup).
    split_and!; [apply lookup_singleton_eq | done | | done | done].
    simpl. rewrite lookup_singleton_eq. by vm_compute.
Defined.

(** A waiting request without entry and with nothing left to apply: the
    update is submitted all the same, its finish task is not. *)
Example update_task_without_entry :
  (finish_publish_version_task (<[1 := pk_tablet 9]> ∅) (λ _, true)
     move_lists_out (λ _, 5000) (λ _, 0) 1000
     (manager_without_entry lagging_then_dup)).2
  = [UpdateTabletVersionTask 42 (tablet_versions lagging_then_dup)].
Proof. by vm_compute. Qed.

Lemma waiting_without_entry_is_never_reported_witness :
  waits_without_entry
    (finish_rounds move_lists_out
       [round_all_accepted two_tablets; round_all_accepted (<[1 := pk_tablet 9]> ∅)]
       (manager_without_entry lagging_then_dup)).1 42
  ∧ ∀ r, signature r = 42 →
         FinishTask r
         ∉ (finish_rounds move_lists_out
              [round_all_accepted two_tablets;
               round_all_accepted (<[1 := pk_tablet 9]> ∅)]
              (manager_without_entry lagging_then_dup)).2.
Proof.
  destruct (waiting_without_entry_is_never_reported move_lists_out
              [round_all_accepted two_tablets;
               round_all_accepted (<[1 := pk_tablet 9]> ∅)]
              (manager_without_entry lagging_then_dup) 42) as [H1 H2].
  - intros r. reflexivity.
  - split_and!.
    + apply keyed_singleton.
    + simpl. rewrite lookup_singleton_eq. by eexists.
    + apply lookup_empty.
  - split; [exact H1 |]. apply H2.
    intros k' r. simpl. by rewrite lookup_empty.
Defined.

End FinishRoundsFacts.

(** ** Edit versions with a merged flag *)

Section EditVersionFacts.

Lemma EditVersion_eqb_eq (a b : EditVersion) :
  EditVersionOps.eqb a b = true ↔ a = b.
Proof.
  unfold EditVersionOps.eqb. destruct a as [a1 a2], b as [b1 b2]. simpl.
  rewrite andb_true_iff, !Z.eqb_eq. split.
  - by intros [-> ->].
  - intros H. by simplify_eq.
Qed.

Lemma EditVersion_eqb_neq (a b : EditVersion) :
  EditVersionOps.eqb a b = false ↔ a ≠ b.
Proof.
  rewrite <- EditVersion_eqb_eq. by destruct (EditVersionOps.eqb a b).
Qed.

Lemma EditVersion_ltb_lex (a b : EditVersion) :
  EditVersionOps.ltb a b = true ↔
  major_number a < major_number b
  ∨ (major_number a = major_number b ∧ minor_number a < minor_number b).
Proof.
  unfold EditVersionOps.ltb.
  rewrite orb_true_iff, andb_true_iff, !Z.ltb_lt, Z.eqb_eq. tauto.
Qed.

Lemma EditVersion_ltb_irrefl (a : EditVersion) : EditVersionOps.ltb a a = false.
Proof.
  apply not_true_iff_false. rewrite EditVersion_ltb_lex. lia.
Qed.

(** The model of [operator<] passes the assertions of [test_l2_versions];
    the comparison worded by the spec does not. *)
Lemma test_l2_versions_passes :
  test_l2_versions EditVersionWithMergeOps.ltb = true.
Proof. vm_compute. reflexivity. Qed.

Lemma test_l2_versions_rejects_spec_order :
  test_l2_versions EditVersionWithMergeOps.spec_ltb = false.
Proof. vm_compute. reflexivity. Qed.

(** Whatever [operator<] is, the test pins the order of [m1] and [m2]. *)
Lemma test_l2_versions_pins_tie_break lt :
  test_l2_versions lt = true → lt m2 m1 = true ∧ lt m1 m2 = false.
Proof.
  unfold test_l2_versions. rewrite !andb_true_iff, !negb_true_iff. tauto.
Qed.

(** An irreflexive comparison that orders distinct versions
    lexicographically, looks only at the two flags when the versions are
    equal, and passes [test_l2_versions], is the model. *)
Lemma test_l2_versions_determines_operator lt :
  (∀ a, lt a a = false) →
  (∀ a b, edit_version a ≠ edit_version b →
          lt a b = EditVersionOps.ltb (edit_version a) (edit_version b)) →
  (∀ a b a' b', edit_version a = edit_version b →
                edit_version a' = edit_version b' →
                merged a = merged a' → merged b = merged b' →
                lt a b = lt a' b') →
  test_l2_versions lt = true →
  ∀ a b, lt a b = EditVersionWithMergeOps.ltb a b.
Proof.
  intros Hirr Hlex Hflags Htest a b.
  apply test_l2_versions_pins_tie_break in Htest as [H21 H12].
  unfold EditVersionWithMergeOps.ltb.
  destruct (EditVersionOps.eqb (edit_version a) (edit_version b)) eqn:E.
  - apply EditVersion_eqb_eq in E.
    destruct (merged a) eqn:Ma, (merged b) eqn:Mb; simpl.
    + rewrite (Hflags a b m1 m1); auto.
    + rewrite (Hflags a b m1 m2); auto.
    + rewrite (Hflags a b m2 m1); auto.
    + rewrite (Hflags a b m2 m2); auto.
  - apply EditVersion_eqb_neq in E. by apply Hlex.
Qed.

(** C2 (counterexample). [m1] and [m2] of the test have the same version,
    [m1] is merged and [m2] is not; the non-merged [m2] is below [m1], not
    above it. *)
Lemma non_merged_compares_less :
  edit_version m1 = edit_version m2
  ∧ merged m1 = true ∧ merged m2 = false
  ∧ EditVersionWithMergeOps.ltb m2 m1 = true
  ∧ EditVersionWithMergeOps.ltb m1 m2 = false.
Proof. by split_and!. Qed.

(** C2 (amended). At equal version and different merged flags the merged
    value compares greater: the non-merged one is below it and not
    conversely.  Values with different versions compare lexicographically
    by (major, minor). *)
Theorem merged_compares_greater (a b : EditVersionWithMerge) :
  (edit_version a = edit_version b ∧ merged a = false ∧ merged b = true →
   EditVersionWithMergeOps.ltb a b = true
   ∧ EditVersionWithMergeOps.ltb b a = false)
  ∧ (edit_version a ≠ edit_version b →
     (EditVersionWithMergeOps.ltb a b = true ↔
      major_number (edit_version a) < major_number (edit_version b)
      ∨ (major_number (edit_version a) = major_number (edit_version b)
         ∧ minor_number (edit_version a) < minor_number (edit_version b)))).
Proof.
  unfold EditVersionWithMergeOps.ltb. split.
  - intros (Hv & Ha & Hb). rewrite <- Hv.
    assert (EditVersionOps.eqb (edit_version a) (edit_version a) = true) as ->
      by by apply EditVersion_eqb_eq.
    by rewrite Ha, Hb.
  - intros Hne. apply EditVersion_eqb_neq in Hne. rewrite Hne.
    apply EditVersion_ltb_lex.
Qed.

Lemma merged_compares_greater_witness :
  (EditVersionWithMergeOps.ltb m4 m3 = true
   ∧ EditVersionWithMergeOps.ltb m3 m4 = false)
  ∧ (EditVersionWithMergeOps.ltb m3 m6 = true ↔
     10 < 11 ∨ (10 = 11 ∧ 0 < 0)).
Proof.
  split.
  - apply (proj1 (merged_compares_greater m4 m3)). by split_and!.
  - apply (proj2 (merged_compares_greater m3 m6)). simpl. discriminate.
Defined.

End EditVersionFacts.

(** ** [modify_l2_versions] *)

Section ModifyL2Versions.
Import PersistentIndexMetaPB PersistentIndex.

Lemma is_prefix_spec (input versions : list EditVersion) :
  is_prefix input versions = true ↔ input `prefix_of` versions.
Proof.
  revert versions. induction input as [| i input IH]; intros versions; simpl.
  - split; [intros _; apply prefix_nil | done].
  - destruct versions as [| v versions].
    + split; [done |]. intros [k Hk]. discriminate Hk.
    + rewrite andb_true_iff, EditVersion_eqb_eq, IH. split.
      * intros [-> Hp]. by apply prefix_cons.
      * intros [k Hk]. simpl in Hk. injection Hk as -> ->.
        split; [done |]. by exists k.
Qed.

Lemma is_prefix_false (input versions : list EditVersion) :
  is_prefix input versions = false ↔ ¬ input `prefix_of` versions.
Proof.
  rewrite <- is_prefix_spec. by destruct (is_prefix input versions).
Qed.

(** C4. If the input versions are a prefix of the non-empty
    [meta.l2_versions], the call succeeds: the prefix is gone, the merged
    version is first with flag [true], the other versions and flags follow
    unchanged and no other field changes.  If [meta.l2_versions] is empty
    or the input is not a prefix, the call fails and returns the descriptor
    it was given. *)
Theorem modify_l2_versions_spec (input : list EditVersion)
    (merged_version : EditVersion) (meta : PersistentIndexMetaPB.t) :
  (∀ rest, l2_versions meta = input ++ rest → l2_versions meta ≠ [] →
     ∃ meta',
       modify_l2_versions input merged_version meta = (OK, meta')
       ∧ l2_versions meta' = merged_version :: rest
       ∧ l2_version_merged meta'
         = true :: drop (length input) (l2_version_merged meta)
       ∧ key_size meta' = key_size meta ∧ size meta' = size meta
       ∧ version meta' = version meta ∧ l0_meta meta' = l0_meta meta
       ∧ l1_version meta' = l1_version meta)
  ∧ (l2_versions meta = [] ∨ ¬ input `prefix_of` l2_versions meta →
     ∃ st, st ≠ OK ∧ modify_l2_versions input merged_version meta = (st, meta)).
Proof.
  unfold modify_l2_versions. split.
  - intros rest Hrest Hne.
    destruct (l2_versions meta) as [| v vs] eqn:Hv; [done |].
    assert (is_prefix input (v :: vs) = true) as ->.
    { apply is_prefix_spec. by exists rest. }
    eexists. split; [done |]. simpl.
    split_and!; try done.
    by rewrite Hrest, drop_app_length.
  - intros Hbad. exists InternalError. split; [done |].
    destruct (l2_versions meta) as [| v vs] eqn:Hv; [done |].
    destruct Hbad as [Hbad | Hbad]; [done |].
    apply is_prefix_false in Hbad. by rewrite Hbad.
Qed.

Lemma modify_l2_versions_spec_witness :
  (∃ meta',
     modify_l2_versions input_l2_versions_test (ev 3 0) index_meta_test
       = (OK, meta')
     ∧ l2_versions meta' = [ev 3 0; ev 4 1; ev 5 0]
     ∧ l2_version_merged meta'
       = true :: drop 3 (l2_version_merged index_meta_test)
     ∧ key_size meta' = key_size index_meta_test
     ∧ size meta' = size index_meta_test
     ∧ version meta' = version index_meta_test
     ∧ l0_meta meta' = l0_meta index_meta_test
     ∧ l1_version meta' = l1_version index_meta_test)
  ∧ (∃ st, st ≠ OK
       ∧ modify_l2_versions input_l2_versions_test (ev 3 0) (meta_with [] [])
         = (st, meta_with [] [])).
Proof.
  split.
  - apply (proj1 (modify_l2_versions_spec input_l2_versions_test (ev 3 0)
                    index_meta_test) [ev 4 1; ev 5 0]).
    + reflexivity.
    + simpl. discriminate.
  - apply (proj2 (modify_l2_versions_spec input_l2_versions_test (ev 3 0)
                    (meta_with [] []))).
    left. reflexivity.
Defined.

(** The run of [pindex_major_compact_meta]: three versions remain, equal to
    [current_l2_versions[i + 2]], only the first is merged; on the cleared
    descriptor the call fails. *)
Example pindex_major_compact_meta :
  modify_l2_versions input_l2_versions_test (ev 3 0) index_meta_test
    = (OK, meta_with [ev 3 0; ev 4 1; ev 5 0] [true; false; false])
  ∧ Status_ok
      (fst (modify_l2_versions input_l2_versions_test (ev 3 0) (meta_with [] [])))
    = false.
Proof. by split. Qed.

(** A prefix that is not at the front is refused. *)
Example modify_l2_versions_middle_refused :
  modify_l2_versions [ev 1 1; ev 3 0] (ev 3 0) index_meta_test
    = (InternalError, index_meta_test).
Proof. reflexivity. Qed.

End ModifyL2Versions.

(** ** The compaction manager *)

Section CompactionManagerFacts.
Import PersistentIndexCompactionManager.

Implicit Types (m : t) (marked : gmap Z DataDir) (c : Call).

Lemma task_num_insert m data_dir n d :
  default 0 (<[data_dir := n]> (_data_dir_to_task_num_map m) !! d)
  = if decide (data_dir = d) then n else task_num m d.
Proof.
  unfold task_num. rewrite lookup_insert. by case_decide.
Qed.

Lemma marked_on_insert_fresh marked tablet_id data_dir d :
  marked !! tablet_id = None →
  marked_on (<[tablet_id := data_dir]> marked) d
  = if decide (data_dir = d) then S (marked_on marked d) else marked_on marked d.
Proof.
  intros Hfresh. unfold marked_on. case_decide as Hd.
  - rewrite map_filter_insert_True by done.
    apply map_size_insert_None, map_lookup_filter_None. by left.
  - rewrite map_filter_insert_False by done.
    by rewrite delete_id.
Qed.

Lemma marked_on_delete marked tablet_id data_dir d :
  marked !! tablet_id = Some data_dir →
  marked_on marked d
  = if decide (data_dir = d) then S (marked_on (delete tablet_id marked) d)
    else marked_on (delete tablet_id marked) d.
Proof.
  intros Hin. unfold marked_on. rewrite map_filter_delete. case_decide as Hd.
  - rewrite map_size_delete_Some.
    + assert (size (filter (λ kv : Z * DataDir, kv.2 = d) marked) ≠ 0%nat);
        [| lia].
      intros Hz. apply map_size_empty_inv in Hz.
      assert (filter (λ kv : Z * DataDir, kv.2 = d) marked !! tablet_id
              = Some data_dir) as Hl
        by (by apply map_lookup_filter_Some).
      rewrite Hz in Hl. by rewrite lookup_empty in Hl.
    + exists data_dir. by apply map_lookup_filter_Some.
  - rewrite delete_id; [done |].
    apply map_lookup_filter_None. right. intros x Hx. simpl. congruence.
Qed.

Lemma is_running_spec m marked tablet_id :
  agrees m marked → is_running m tablet_id = true ↔ is_Some (marked !! tablet_id).
Proof.
  intros [Hset _]. unfold is_running. by rewrite bool_decide_eq_true.
Qed.

(** Ids are tracked by any call. *)
Lemma step_running_ids m marked c :
  (∀ i, i ∈ _running_tablets m ↔ is_Some (marked !! i)) →
  ∀ i, i ∈ _running_tablets (step m c) ↔ is_Some (marked_step marked c !! i).
Proof.
  intros Hset i. destruct c as [tid d | tid d]; simpl.
  - rewrite elem_of_union, elem_of_singleton, Hset, lookup_insert.
    case_decide as E.
    + subst. split; eauto.
    + split; [intros [? | ?]; [congruence | done] | by right].
  - rewrite elem_of_difference, elem_of_singleton, Hset, lookup_delete.
    case_decide as E.
    + subst. split; [by intros [_ ?] | intros H'; by apply is_Some_None in H'].
    + split; [by intros [? _] | intros ?; split; [done | congruence]].
Qed.

Lemma step_agrees m marked c :
  agrees m marked → disciplined marked [c] = true →
  agrees (step m c) (marked_step marked c).
Proof.
  intros [Hset Hnum] Hd. split; [by apply step_running_ids |].
  simpl in Hd. rewrite andb_true_r in Hd.
  intros d. destruct c as [tid dir | tid dir]; apply bool_decide_eq_true in Hd;
    unfold task_num at 1; simpl; rewrite task_num_insert.
  - rewrite marked_on_insert_fresh by done. rewrite !Hnum.
    case_decide; subst; lia.
  - rewrite !Hnum. case_decide as E.
    + subst. rewrite (marked_on_delete marked tid d d Hd), decide_True by done.
      lia.
    + by rewrite (marked_on_delete marked tid dir d Hd), decide_False.
Qed.

Lemma run_running_ids calls :
  ∀ m marked,
    (∀ i, i ∈ _running_tablets m ↔ is_Some (marked !! i)) →
    ∀ i, i ∈ _running_tablets (run calls m)
         ↔ is_Some (marked_after calls marked !! i).
Proof.
  induction calls as [| c calls IH]; intros m marked H; [done |].
  simpl. apply IH. by apply step_running_ids.
Qed.

Lemma run_agrees calls :
  ∀ m marked,
    agrees m marked → disciplined marked calls = true →
    agrees (run calls m) (marked_after calls marked).
Proof.
  induction calls as [| c calls IH]; intros m marked Hag Hd; [done |].
  simpl in *. apply andb_true_iff in Hd as [Hc Hrest].
  apply IH; [| done]. apply step_agrees; [done |].
  simpl. by rewrite Hc.
Qed.

Lemma create_agrees : agrees create ∅.
Proof.
  split.
  - intros i. simpl. rewrite lookup_empty. split; [set_solver |].
    intros H. by apply is_Some_None in H.
  - intros d. unfold task_num, marked_on. simpl.
    by rewrite lookup_empty, map_filter_empty, map_size_empty.
Qed.

(** On the modelled manager [is_running(t)] holds after any sequence of
    calls iff [t] is marked.  On a sequence that marks a tablet only while
    it is not marked and unmarks it only while it is marked, with the
    directory it was marked on, [disk_limit(dir)] holds iff the number of
    tablets marked on [dir] is at least the limit.  What a repeated
    [mark_running], or an [unmark_running] of another tablet or directory,
    does to the count is not fixed by the contract. *)
Theorem compaction_manager_tracks_marked (calls : list Call)
    (limit tablet_id : Z) (data_dir : DataDir) :
  (is_running (run calls create) tablet_id = true
   ↔ is_Some (marked_after calls ∅ !! tablet_id))
  ∧ (disciplined ∅ calls = true →
     (disk_limit limit (run calls create) data_dir = true
      ↔ limit ≤ Z.of_nat (marked_on (marked_after calls ∅) data_dir))).
Proof.
  split.
  - unfold is_running. rewrite bool_decide_eq_true.
    apply run_running_ids. apply create_agrees.
  - intros Hd. destruct (run_agrees calls create ∅ create_agrees Hd) as [_ Hnum].
    unfold disk_limit. by rewrite Z.leb_le, Hnum.
Qed.

Lemma compaction_manager_tracks_marked_witness :
  disk_limit 2 (run mark_two_unmark_one create) "/data" = true
  ↔ 2 ≤ Z.of_nat (marked_on (marked_after mark_two_unmark_one ∅) "/data").
Proof.
  apply (proj2 (compaction_manager_tracks_marked mark_two_unmark_one 2 1 "/data")).
  vm_compute. reflexivity.
Defined.

(** The run of [pindex_compaction_disk_limit]; the three tablets share one
    data directory. *)
Example pindex_compaction_disk_limit :
  let dir := "/data" in
  let mgr0 := create in
  let mgr1 := mark_running 101 dir mgr0 in
  let mgr2 := mark_running 102 dir mgr1 in
  let mgr3 := unmark_running 101 dir mgr2 in
  disk_limit 1 mgr0 dir = false
  ∧ is_running mgr1 101 = true ∧ is_running mgr1 102 = false
  ∧ is_running mgr1 103 = false
  ∧ disk_limit 1 mgr1 dir = true
  ∧ disk_limit 2 mgr1 dir = false
  ∧ is_running mgr2 101 = true ∧ is_running mgr2 102 = true
  ∧ is_running mgr2 103 = false
  ∧ disk_limit 2 mgr2 dir = true
  ∧ is_running mgr3 101 = false ∧ is_running mgr3 102 = true
  ∧ is_running mgr3 103 = false
  ∧ disk_limit 2 mgr3 dir = false.
Proof. vm_compute. by split_and!. Qed.

End CompactionManagerFacts.

(** ** Choosing the buckets to move out of a page *)

Section MoveBucketsFacts.
Import MoveBuckets.
Local Open Scope N_scope.

Implicit Types (packs : list N) (sel cand : list nat) (target : N).

Lemma candidates_full (idxs : list nat) :
  ∃ others, candidates idxs = idxs :: others.
Proof.
  induction idxs as [| i rest [others IH]]; simpl; [by exists [] |].
  rewrite IH. simpl. eauto.
Qed.

Lemma candidates_sublist (idxs : list nat) sel :
  sel ∈ candidates idxs ↔ sel `sublist_of` idxs.
Proof.
  revert sel. induction idxs as [| i rest IH]; intros sel; simpl.
  - rewrite list_elem_of_singleton. split; [intros ->; constructor |].
    apply sublist_nil_r.
  - rewrite elem_of_app, list_elem_of_fmap, sublist_cons_r. split.
    + intros [(s & -> & Hs) | Hs]; [right | left; by apply IH].
      exists s. split; [done |]. by apply IH.
    + intros [Hs | (s & -> & Hs)]; [right; by apply IH | left].
      exists s. split; [done |]. by apply IH.
Qed.

Lemma packs_sum_seq (pre l : list N) :
  packs_sum (pre ++ l) (seq (length pre) (length l)) = total_packs l.
Proof.
  revert pre. induction l as [| x l IH]; intros pre; [done |].
  simpl. unfold pack_of at 1.
  rewrite list_lookup_middle by done. simpl. f_equal.
  specialize (IH (pre ++ [x])).
  rewrite <- app_assoc, length_app in IH. simpl in IH.
  by rewrite Nat.add_1_r in IH.
Qed.

Lemma packs_sum_all packs :
  packs_sum packs (seq 0 (length packs)) = total_packs packs.
Proof. apply (packs_sum_seq [] packs). Qed.

(** The fold over the candidates: the result reaches the target, is one of
    the candidates (or the initial best), and has the least measure. *)
Lemma fold_better_spec (measure : list nat → N) target packs
    (cands : list (list nat)) :
  ∀ best r,
    fold_left (better measure target packs) cands best = Some r →
    (best = Some r ∨ r ∈ cands)
    ∧ ((∀ b, best = Some b → target ≤ packs_sum packs b) →
       target ≤ packs_sum packs r)
    ∧ (∀ b, best = Some b → measure r ≤ measure b)
    ∧ (∀ c, c ∈ cands → target ≤ packs_sum packs c → measure r ≤ measure c).
Proof.
  induction cands as [| c cands IH]; intros best r Hfold; simpl in Hfold.
  - subst best. split_and!; [by left | by intros H; apply H | |].
    + intros b [= ->]. lia.
    + intros c Hc. by apply elem_of_nil in Hc.
  - destruct (IH _ _ Hfold) as (Hfrom & Hfeas & Hmin_best & Hmin_cands).
    unfold better in Hfrom, Hfeas, Hmin_best.
    destruct (N.leb_spec target (packs_sum packs c)) as [Hc | Hc].
    + destruct best as [b |].
      * destruct (N.ltb_spec (measure c) (measure b)) as [Hlt | Hge].
        -- split_and!.
           ++ right. destruct Hfrom as [[= ->] | ?];
                [apply list_elem_of_here | by apply list_elem_of_further].
           ++ intros _. apply Hfeas. by intros ? [= <-].
           ++ intros b' [= <-]. specialize (Hmin_best c eq_refl). lia.
           ++ intros c' Hc' Hf. apply elem_of_cons in Hc' as [-> | Hc'];
                [by apply Hmin_best | by apply Hmin_cands].
        -- split_and!.
           ++ destruct Hfrom as [? | ?]; [by left | right].
              by apply list_elem_of_further.
           ++ intros Hb. apply Hfeas. intros ? [= <-]. by apply Hb.
           ++ intros b' [= <-]. by apply Hmin_best.
           ++ intros c' Hc' Hf. apply elem_of_cons in Hc' as [-> | Hc'];
                [| by apply Hmin_cands].
              specialize (Hmin_best b eq_refl). lia.
      * split_and!.
        -- right. destruct Hfrom as [[= ->] | ?];
             [apply list_elem_of_here | by apply list_elem_of_further].
        -- intros _. apply Hfeas. by intros ? [= <-].
        -- by intros b' [=].
        -- intros c' Hc' Hf. apply elem_of_cons in Hc' as [-> | Hc'];
             [by apply Hmin_best | by apply Hmin_cands].
    + split_and!.
      * destruct Hfrom as [? | ?]; [by left | right].
        by apply list_elem_of_further.
      * done.
      * done.
      * intros c' Hc' Hf. apply elem_of_cons in Hc' as [-> | Hc'];
          [lia | by apply Hmin_cands].
Qed.

Lemma fold_better_is_Some (measure : list nat → N) target packs
    (cands : list (list nat)) :
  ∀ best, is_Some best →
          is_Some (fold_left (better measure target packs) cands best).
Proof.
  induction cands as [| c cands IH]; intros best Hbest; [done |].
  simpl. apply IH. unfold better.
  destruct (target <=? packs_sum packs c); [| done].
  destruct best as [b |]; [| done].
  by destruct (measure c <? measure b).
Qed.

(** Whatever is made small, the search returns a selection of the page's
    buckets that reaches a target not above the total, and none that
    reaches it has a smaller measure. *)
Lemma select_reaches_target (measure : list nat → N) target packs :
  target ≤ total_packs packs →
  target ≤ packs_sum packs (select measure target packs)
  ∧ select measure target packs `sublist_of` seq 0 (length packs)
  ∧ (∀ sel, sel `sublist_of` seq 0 (length packs) →
            target ≤ packs_sum packs sel →
            measure (select measure target packs) ≤ measure sel).
Proof.
  intros Htotal. unfold select.
  destruct (candidates_full (seq 0 (length packs))) as [others Hc].
  assert (is_Some (fold_left (better measure target packs)
                     (candidates (seq 0 (length packs))) None)) as [r Hr].
  { rewrite Hc. simpl. apply fold_better_is_Some.
    unfold better. rewrite packs_sum_all.
    apply N.leb_le in Htotal. by rewrite Htotal. }
  rewrite Hr. simpl.
  destruct (fold_better_spec _ _ _ _ _ _ Hr) as (Hfrom & Hfeas & _ & Hmin).
  split_and!.
  - apply Hfeas. by intros b [=].
  - destruct Hfrom as [[=] | Hin]. by apply candidates_sublist.
  - intros sel Hsel Hf. apply Hmin; [| done]. by apply candidates_sublist.
Qed.

(** C7. For a target not above the total of the record counts,
    [get_move_buckets] returns bucket indices of the page, in increasing
    order and each at most once, whose record counts sum to at least the
    target; no selection reaching the target has fewer buckets. *)
Theorem get_move_buckets_reaches_target target packs :
  target ≤ total_packs packs →
  target ≤ packs_sum packs (get_move_buckets target packs)
  ∧ get_move_buckets target packs `sublist_of` seq 0 (length packs)
  ∧ (∀ sel, sel `sublist_of` seq 0 (length packs) →
            target ≤ packs_sum packs sel →
            (length (get_move_buckets target packs) ≤ length sel)%nat).
Proof.
  intros Htotal.
  destruct (select_reaches_target (λ sel, N.of_nat (length sel)) target packs
              Htotal) as (Hsum & Hsub & Hmin).
  split_and!; [done | done |].
  intros sel Hsel Hf. specialize (Hmin sel Hsel Hf). simpl in Hmin.
  unfold get_move_buckets. lia.
Qed.

Lemma get_move_buckets_reaches_target_witness :
  9 ≤ packs_sum five_buckets (get_move_buckets 9 five_buckets)
  ∧ get_move_buckets 9 five_buckets `sublist_of` seq 0 (length five_buckets)
  ∧ (∀ sel, sel `sublist_of` seq 0 (length five_buckets) →
            9 ≤ packs_sum five_buckets sel →
            (length (get_move_buckets 9 five_buckets) ≤ length sel)%nat).
Proof.
  apply (get_move_buckets_reaches_target 9 five_buckets).
  vm_compute. discriminate.
Defined.

(** The same holds when "smallest" is read as the least combined count. *)
Lemma get_move_buckets_least_count_reaches_target target packs :
  target ≤ total_packs packs →
  target ≤ packs_sum packs (get_move_buckets_least_count target packs).
Proof.
  intros Htotal. by apply (select_reaches_target (packs_sum packs)).
Qed.

Example get_move_buckets_runs :
  get_move_buckets 9 five_buckets = [0%nat; 4%nat]
  ∧ get_move_buckets 4 five_buckets = [2%nat]
  ∧ get_move_buckets 0 five_buckets = []
  ∧ get_move_buckets_least_count 9 five_buckets = [1%nat; 3%nat; 4%nat].
Proof. vm_compute. by split_and!. Qed.

End MoveBucketsFacts.

(** ** The mutable index (L0) *)

Section MutableIndexFacts.
Import MutableIndex.
Variable shard_of : Slice → nat.

Implicit Types (idx : t) (k : Slice) (v : IndexValue)
  (keys : list Slice) (values : list IndexValue) (idxes : list nat).

Lemma insert_one_ok idx k v idx' :
  insert_one shard_of idx k v = (OK, idx') →
  lookup_key shard_of idx k = None
  ∧ length (shards idx') = length (shards idx)
  ∧ ∀ k', lookup_key shard_of idx' k'
          = if decide (k' = k) then Some v else lookup_key shard_of idx k'.
Proof.
  unfold insert_one, lookup_key.
  destruct (shards idx !! shard_of k) as [m |] eqn:Hm; [| done].
  destruct (m !! k) eqn:Hk; [done |]. intros [= <-]. simpl.
  split_and!; [done | by rewrite length_insert |].
  intros k'. apply lookup_lt_Some in Hm as Hlt.
  destruct (decide (shard_of k' = shard_of k)) as [E | E].
  - rewrite E, list_lookup_insert_eq by done. simpl.
    rewrite lookup_insert, Hm. simpl.
    destruct (decide (k = k')), (decide (k' = k)); congruence.
  - rewrite list_lookup_insert_ne by done.
    rewrite decide_False; [done |]. congruence.
Qed.

Lemma insert_one_failed idx k v st idx' :
  insert_one shard_of idx k v = (st, idx') → st ≠ OK → idx' = idx.
Proof.
  unfold insert_one.
  destruct (shards idx !! shard_of k) as [m |]; [| by intros [= _ <-]].
  destruct (m !! k); [by intros [= _ <-] |]. by intros [= <- _].
Qed.

Lemma insert_one_present idx k v x :
  lookup_key shard_of idx k = Some x →
  insert_one shard_of idx k v = (AlreadyExists, idx).
Proof.
  unfold insert_one, lookup_key.
  destruct (shards idx !! shard_of k) as [m |]; [| done]. simpl.
  by intros ->.
Qed.

Lemma insert_one_absent idx k v :
  routed shard_of idx → lookup_key shard_of idx k = None →
  ∃ idx', insert_one shard_of idx k v = (OK, idx').
Proof.
  intros Hr. unfold insert_one, lookup_key.
  destruct (lookup_lt_is_Some_2 (shards idx) (shard_of k) (Hr k)) as [m ->].
  simpl. intros ->. eauto.
Qed.

Lemma insert_one_routed idx k v st idx' :
  insert_one shard_of idx k v = (st, idx') →
  routed shard_of idx → routed shard_of idx'.
Proof.
  intros H Hr. destruct (decide (st = OK)) as [-> | Hne].
  - apply insert_one_ok in H as (_ & Hlen & _). intros k'. rewrite Hlen. apply Hr.
  - by rewrite (insert_one_failed _ _ _ _ _ H Hne).
Qed.

(** An index made by [create] routes every key when the routing stays
    below the shard count, and [insert] keeps it so. *)
Lemma create_routed (nshard : nat) :
  (∀ k, (shard_of k < nshard)%nat) → routed shard_of (create nshard).
Proof. intros H k. simpl. by rewrite length_replicate. Qed.

Lemma insert_routed keys values idxes :
  ∀ idx st idx',
    insert shard_of keys values idxes idx = (st, idx') →
    routed shard_of idx → routed shard_of idx'.
Proof.
  induction idxes as [| i0 rest IH]; intros idx st idx' Hins Hr;
    simpl in Hins.
  - by injection Hins as _ <-.
  - destruct (keys !! i0) as [k0 |]; [| by injection Hins as _ <-].
    destruct (values !! i0) as [v0 |]; [| by injection Hins as _ <-].
    destruct (insert_one shard_of idx k0 v0) as [st1 idx1] eqn:H1.
    pose proof (insert_one_routed _ _ _ _ _ H1 Hr) as Hr1.
    destruct st1; try (by injection Hins as _ <-).
    by apply (IH _ _ _ Hins).
Qed.

(** No insert changes the value of a key that is present. *)
Lemma insert_keeps_present keys values idxes :
  ∀ idx st idx' k x,
    insert shard_of keys values idxes idx = (st, idx') →
    lookup_key shard_of idx k = Some x →
    lookup_key shard_of idx' k = Some x.
Proof.
  induction idxes as [| i rest IH]; intros idx st idx' k x Hins Hk;
    simpl in Hins.
  - by injection Hins as _ <-.
  - destruct (keys !! i) as [k0 |]; [| by injection Hins as _ <-].
    destruct (values !! i) as [v0 |]; [| by injection Hins as _ <-].
    destruct (insert_one shard_of idx k0 v0) as [st1 idx1] eqn:H1.
    destruct (decide (st1 = OK)) as [-> | Hne].
    + apply (IH _ _ _ _ _ Hins).
      apply insert_one_ok in H1 as (Hnone & _ & Hl). rewrite Hl.
      rewrite decide_False; [done |]. congruence.
    + rewrite (insert_one_failed _ _ _ _ _ H1 Hne) in Hins.
      destruct st1; try done; by injection Hins as _ <-.
Qed.

(** A successful insert stores every pair of the batch. *)
Lemma insert_ok_stores keys values idxes :
  ∀ idx idx',
    insert shard_of keys values idxes idx = (OK, idx') →
    ∀ i k v, i ∈ idxes → keys !! i = Some k → values !! i = Some v →
             lookup_key shard_of idx' k = Some v.
Proof.
  induction idxes as [| i0 rest IH]; intros idx idx' Hins i k v Hi Hk Hv.
  - by apply elem_of_nil in Hi.
  - simpl in Hins.
    destruct (keys !! i0) as [k0 |] eqn:Hk0; [| done].
    destruct (values !! i0) as [v0 |] eqn:Hv0; [| done].
    destruct (insert_one shard_of idx k0 v0) as [st1 idx1] eqn:H1.
    destruct st1; try done.
    apply elem_of_cons in Hi as [-> | Hi].
    + rewrite Hk in Hk0. rewrite Hv in Hv0. simplify_eq.
      apply (insert_keeps_present _ _ _ _ _ _ _ _ Hins).
      apply insert_one_ok in H1 as (_ & _ & Hl). rewrite Hl.
      by rewrite decide_True.
    + by apply (IH _ _ Hins i).
Qed.

Lemma insert_ok_in_range keys values idxes :
  ∀ idx idx',
    insert shard_of keys values idxes idx = (OK, idx') →
    ∀ i, i ∈ idxes → is_Some (keys !! i) ∧ is_Some (values !! i).
Proof.
  induction idxes as [| i0 rest IH]; intros idx idx' Hins i Hi.
  - by apply elem_of_nil in Hi.
  - simpl in Hins.
    destruct (keys !! i0) as [k0 |] eqn:Hk0; [| done].
    destruct (values !! i0) as [v0 |] eqn:Hv0; [| done].
    destruct (insert_one shard_of idx k0 v0) as [st1 idx1] eqn:H1.
    destruct st1; try done.
    apply elem_of_cons in Hi as [-> | Hi]; [by rewrite Hk0, Hv0 |].
    by apply (IH _ _ Hins).
Qed.

(** A batch holding a key that is present fails with AlreadyExists. *)
Lemma insert_present_fails keys values idxes :
  ∀ idx j k,
    routed shard_of idx →
    Forall (λ j', is_Some (keys !! j') ∧ is_Some (values !! j')) idxes →
    j ∈ idxes → keys !! j = Some k → is_Some (lookup_key shard_of idx k) →
    ∃ idx', insert shard_of keys values idxes idx = (AlreadyExists, idx').
Proof.
  induction idxes as [| j0 rest IH]; intros idx j k Hr Hrange Hj Hk Hpres.
  - by apply elem_of_nil in Hj.
  - apply Forall_cons in Hrange as [[[k0 Hk0] [v0 Hv0]] Hrange].
    simpl. rewrite Hk0, Hv0.
    destruct (lookup_key shard_of idx k0) as [x |] eqn:Hl.
    + rewrite (insert_one_present _ _ _ _ Hl). eauto.
    + destruct (insert_one_absent idx k0 v0 Hr Hl) as [idx1 H1]. rewrite H1.
      assert (j ∈ rest) as Hj'.
      { apply elem_of_cons in Hj as [-> | ?]; [| done].
        rewrite Hk in Hk0. simplify_eq. rewrite Hl in Hpres.
        by apply is_Some_None in Hpres. }
      apply (IH idx1 j k); try done.
      * by apply (insert_one_routed _ _ _ _ _ H1).
      * apply insert_one_ok in H1 as (_ & _ & Hl1). rewrite Hl1.
        case_decide; [by eexists | done].
Qed.

(** [get] writes, at each listed position, the value stored for the key
    there, or [NullIndexValue] when the key has no entry. *)
Lemma get_spec keys idx idxes :
  ∀ acc,
    Forall (λ i, is_Some (keys !! i) ∧ (i < length (out_values acc))%nat) idxes →
    ∃ res,
      get shard_of keys idxes idx acc = (OK, res)
      ∧ length (out_values res) = length (out_values acc)
      ∧ (∀ i k, i ∈ idxes → keys !! i = Some k →
           out_values res !! i
           = Some (default NullIndexValue (lookup_key shard_of idx k)))
      ∧ (∀ i, i ∉ idxes → out_values res !! i = out_values acc !! i).
Proof.
  induction idxes as [| i0 rest IH]; intros acc Hrange.
  - exists acc. split_and!; try done. intros i k Hi. by apply elem_of_nil in Hi.
  - apply Forall_cons in Hrange as [[[k0 Hk0] Hlt] Hrange].
    simpl. rewrite Hk0.
    set (x := default NullIndexValue (lookup_key shard_of idx k0)).
    assert (∃ acc', (match lookup_key shard_of idx k0 with
                     | Some v =>
                         get shard_of keys rest idx
                           {| out_values := <[i0 := v]> (out_values acc);
                              not_found := not_found acc;
                              num_found := num_found acc
                                + (if v =? NullIndexValue then 0 else 1) |}
                     | None =>
                         get shard_of keys rest idx
                           {| out_values := <[i0 := NullIndexValue]> (out_values acc);
                              not_found := not_found acc ++ [i0];
                              num_found := num_found acc |}
                     end) = get shard_of keys rest idx acc'
                    ∧ out_values acc' = <[i0 := x]> (out_values acc))
      as (acc' & -> & Hacc').
    { unfold x. destruct (lookup_key shard_of idx k0); eexists; by split. }
    destruct (IH acc') as (res & Hget & Hlen & Hin & Hout).
    { eapply Forall_impl; [exact Hrange |]. intros i [? ?]. split; [done |].
      by rewrite Hacc', length_insert. }
    exists res. rewrite Hacc', length_insert in Hlen.
    split_and!; [done | done | |].
    + intros i k Hi Hk. destruct (decide (i ∈ rest)) as [Hr | Hr].
      * by apply Hin.
      * apply elem_of_cons in Hi as [-> | ?]; [| done].
        rewrite (Hout _ Hr), Hacc', list_lookup_insert_eq by done.
        rewrite Hk in Hk0. by simplify_eq.
    + intros i Hi. apply not_elem_of_cons in Hi as [Hne Hi].
      by rewrite (Hout _ Hi), Hacc', list_lookup_insert_ne.
Qed.

End MutableIndexFacts.

(** C6. After a successful insert of a batch, a second insert whose batch
    holds one of those keys again returns AlreadyExists, and a get of the
    first batch on the index it leaves returns, at every position, the
    value of the first insert. *)
Theorem insert_duplicate_rejected (shard_of : Slice → nat)
    (idx0 idx1 : MutableIndex.t)
    (keys keys2 : list Slice) (values values2 : list IndexValue)
    (idxes idxes2 : list nat) (i j : nat) (k : Slice) :
  MutableIndex.routed shard_of idx0 →
  MutableIndex.insert shard_of keys values idxes idx0 = (OK, idx1) →
  Forall (λ j', is_Some (keys2 !! j') ∧ is_Some (values2 !! j')) idxes2 →
  i ∈ idxes → keys !! i = Some k →
  j ∈ idxes2 → keys2 !! j = Some k →
  ∃ idx2,
    MutableIndex.insert shard_of keys2 values2 idxes2 idx1 = (AlreadyExists, idx2)
    ∧ (∀ i' k' v', i' ∈ idxes → keys !! i' = Some k' → values !! i' = Some v' →
         MutableIndex.lookup_key shard_of idx2 k' = Some v')
    ∧ (∀ acc,
         Forall (λ i', (i' < length (MutableIndex.out_values acc))%nat) idxes →
         ∃ res,
           MutableIndex.get shard_of keys idxes idx2 acc = (OK, res)
           ∧ ∀ i' v', i' ∈ idxes → values !! i' = Some v' →
                      MutableIndex.out_values res !! i' = Some v').
Proof.
  intros Hr Hins Hrange Hi Hk Hj Hk2.
  destruct (insert_ok_in_range _ _ _ _ _ _ Hins i Hi) as [_ [v Hv]].
  pose proof (insert_routed _ _ _ _ _ _ _ Hins Hr) as Hr1.
  destruct (insert_present_fails shard_of keys2 values2 idxes2 idx1 j k
              Hr1 Hrange Hj Hk2) as [idx2 Hins2].
  { exists v. by apply (insert_ok_stores _ _ _ _ _ _ Hins i). }
  assert (∀ i' k' v', i' ∈ idxes → keys !! i' = Some k' → values !! i' = Some v' →
            MutableIndex.lookup_key shard_of idx2 k' = Some v') as Hkept.
  { intros i' k' v' Hi' Hk' Hv'.
    apply (insert_keeps_present _ _ _ _ _ _ _ _ _ Hins2).
    by apply (insert_ok_stores _ _ _ _ _ _ Hins i'). }
  exists idx2. split_and!; [done | done |].
  intros acc Hacc.
  destruct (get_spec shard_of keys idx2 idxes acc) as (res & Hget & _ & Hin & _).
  { apply Forall_forall. intros i' Hi'. split.
    - by destruct (insert_ok_in_range _ _ _ _ _ _ Hins i' Hi').
    - by apply (proj1 (Forall_forall _ _) Hacc). }
  exists res. split; [done |]. intros i' v' Hi' Hv'.
  destruct (insert_ok_in_range _ _ _ _ _ _ Hins i' Hi') as [[k' Hk'] _].
  rewrite (Hin i' k' Hi' Hk'). by rewrite (Hkept i' k' v').
Qed.

Lemma insert_duplicate_rejected_witness :
  ∃ idx2,
    MutableIndex.insert MutableIndex.by_length MutableIndex.three_keys
      MutableIndex.other_values [2; 0]%nat MutableIndex.after_first_insert
    = (AlreadyExists, idx2)
    ∧ (∀ i' k' v', i' ∈ [0; 1; 2]%nat →
         MutableIndex.three_keys !! i' = Some k' →
         MutableIndex.three_values !! i' = Some v' →
         MutableIndex.lookup_key MutableIndex.by_length idx2 k' = Some v')
    ∧ (∀ acc,
         Forall (λ i', (i' < length (MutableIndex.out_values acc))%nat)
           [0; 1; 2]%nat →
         ∃ res,
           MutableIndex.get MutableIndex.by_length MutableIndex.three_keys
             [0; 1; 2]%nat idx2 acc = (OK, res)
           ∧ ∀ i' v', i' ∈ [0; 1; 2]%nat →
                      MutableIndex.three_values !! i' = Some v' →
                      MutableIndex.out_values res !! i' = Some v').
Proof.
  apply (insert_duplicate_rejected MutableIndex.by_length
           (MutableIndex.create 2) MutableIndex.after_first_insert
           MutableIndex.three_keys MutableIndex.three_keys
           MutableIndex.three_values MutableIndex.other_values
           [0; 1; 2]%nat [2; 0]%nat 2%nat 2%nat "ccc").
  - intros k. simpl. apply Nat.mod_upper_bound. lia.
  - vm_compute. reflexivity.
  - repeat constructor; by eexists.
  - by repeat constructor.
  - reflexivity.
  - by repeat constructor.
  - reflexivity.
Defined.

(** The start of [test_fixlen_mutable_index] with three keys: the first
    insert succeeds, the duplicate insert does not, and get returns the
    values of the first insert with every position found. *)
Example test_fixlen_mutable_index :
  let '(st1, idx1) :=
    MutableIndex.insert MutableIndex.by_length MutableIndex.three_keys
      MutableIndex.three_values [0; 1; 2]%nat (MutableIndex.create 2) in
  let '(st2, idx2) :=
    MutableIndex.insert MutableIndex.by_length MutableIndex.three_keys
      MutableIndex.other_values [0; 1; 2]%nat idx1 in
  st1 = OK ∧ st2 = AlreadyExists
  ∧ MutableIndex.get MutableIndex.by_length MutableIndex.three_keys
      [0; 1; 2]%nat idx2 MutableIndex.fresh_result
    = (OK, {| MutableIndex.out_values := MutableIndex.three_values;
              MutableIndex.not_found := [];
              MutableIndex.num_found := 3 |}).
Proof. vm_compute. by split_and!. Qed.

(** ** [parse_mem_spec] *)

Section StringFacts.

Lemma rbegin_app (s : string) (c : ascii) :
  rbegin (s +:+ String c EmptyString) = Some c.
Proof.
  induction s as [| a s IH]; [done |]. simpl.
  destruct (s +:+ String c EmptyString) eqn:E; [| done].
  by destruct s.
Qed.

Lemma length_app_char (s : string) (c : ascii) :
  String.length (s +:+ String c EmptyString) = S (String.length s).
Proof. induction s as [| a s IH]; simpl; [done | by rewrite IH]. Qed.

Lemma substring_app_l (s t : string) :
  substring 0 (String.length s) (s +:+ t) = s.
Proof.
  induction s as [| a s IH]; simpl.
  - by destruct t.
  - by rewrite IH.
Qed.

Lemma substring_all (s : string) : substring 0 (String.length s) s = s.
Proof.
  induction s as [| a s IH]; simpl; [done | by rewrite IH].
Qed.

Lemma wrap_int32_small (z : Z) :
  - 2 ^ 31 ≤ z < 2 ^ 31 → wrap_int32 z = z.
Proof.
  intros H. unfold wrap_int32. rewrite Z.mod_small; lia.
Qed.

Lemma data_prefix_app (s : string) (c : ascii) :
  Z.of_nat (String.length s) < 2 ^ 31 →
  data_prefix (s +:+ String c EmptyString)
    (wrap_int32
       (Z.of_nat (String.length (s +:+ String c EmptyString)) - 1)) = s.
Proof.
  intros H. rewrite length_app_char, wrap_int32_small by lia.
  unfold data_prefix.
  replace (Z.to_nat (Z.of_nat (S (String.length s)) - 1))
    with (String.length s) by lia.
  apply substring_app_l.
Qed.

Lemma data_prefix_all (s : string) :
  Z.of_nat (String.length s) < 2 ^ 31 →
  data_prefix s (wrap_int32 (Z.of_nat (String.length s))) = s.
Proof.
  intros H. rewrite wrap_int32_small by lia.
  unfold data_prefix. rewrite Nat2Z.id. apply substring_all.
Qed.

End StringFacts.

(** [Double.to_int64] truncates toward zero: on a finite [double] it is the
    quotient [Z.quot] of the numerator by the denominator of its value, when
    that is an [int64_t], and on nothing else it has a value. *)
Lemma to_int64_truncates (x : spec_float) (z : Z) :
  Double.to_int64 x = Some z
  ↔ match x with
    | S754_zero _ => z = 0
    | S754_finite s m e =>
        z = Z.quot ((if s then - Z.pos m else Z.pos m) * 2 ^ Z.max e 0)
              (2 ^ Z.max (- e) 0)
        ∧ INT64_MIN ≤ z ≤ INT64_MAX
    | S754_infinity _ | S754_nan => False
    end.
Proof.
  destruct x as [s | s | | s m e]; simpl; [split; congruence | done | done |].
  assert ((if 0 <=? e then Z.pos m * 2 ^ e else Z.pos m / 2 ^ (- e))
          = Z.quot (Z.pos m * 2 ^ Z.max e 0) (2 ^ Z.max (- e) 0)) as ->.
  { destruct (Z.leb_spec 0 e).
    - rewrite Z.max_l, Z.max_r by lia. by rewrite Z.pow_0_r, Z.quot_1_r.
    - rewrite Z.max_r, Z.max_l by lia. rewrite Z.pow_0_r, Z.mul_1_r.
      symmetry. apply Z.quot_div_nonneg; [lia |]. apply Z.pow_pos_nonneg; lia. }
  assert ((if s
           then - Z.quot (Z.pos m * 2 ^ Z.max e 0) (2 ^ Z.max (- e) 0)
           else Z.quot (Z.pos m * 2 ^ Z.max e 0) (2 ^ Z.max (- e) 0))
          = Z.quot ((if s then - Z.pos m else Z.pos m) * 2 ^ Z.max e 0)
              (2 ^ Z.max (- e) 0)) as ->.
  { destruct s; [| done].
    rewrite Z.mul_opp_l, Z.quot_opp_l; [done |].
    apply Z.pow_nonzero; lia. }
  destruct (Z.leb_spec INT64_MIN
              (Z.quot ((if s then - Z.pos m else Z.pos m) * 2 ^ Z.max e 0)
                 (2 ^ Z.max (- e) 0)));
    destruct (Z.leb_spec
                (Z.quot ((if s then - Z.pos m else Z.pos m) * 2 ^ Z.max e 0)
                   (2 ^ Z.max (- e) 0)) INT64_MAX); simpl;
    (split; [intros [= <-] | intros [-> ?]]); try done; lia.
Qed.

Section ParseMemSpecFacts.
Import ParseUtil.
Variable string_to_int : string → Z * ParseResult.
Variable string_to_float : string → spec_float * ParseResult.

Abbreviation parse := (parse_mem_spec string_to_int string_to_float).

Lemma switch_suffix_float (c : ascii) (size mult : Z) :
  float_unit c = Some mult →
  switch_suffix c size = (wrap_int32 (size - 1), mult, false) ∧ mult ≠ -1.
Proof.
  unfold float_unit, switch_suffix.
  destruct (is_char c "t" "T"); [intros [= <-]; by split |].
  destruct (is_char c "g" "G"); [intros [= <-]; by split |].
  destruct (is_char c "m" "M"); [intros [= <-]; by split |].
  destruct (is_char c "k" "K"); [intros [= <-]; by split |].
  done.
Qed.

Lemma is_char_not (c a b x y : ascii) :
  is_char c a b = true → a ≠ x → a ≠ y → b ≠ x → b ≠ y → is_char c x y = false.
Proof.
  unfold is_char. rewrite orb_true_iff, orb_false_iff, !Ascii.eqb_eq, !Ascii.eqb_neq.
  intros [-> | ->]; by split.
Qed.

Lemma switch_suffix_byte (c : ascii) (size : Z) :
  is_char c "b" "B" = true →
  switch_suffix c size = (wrap_int32 (size - 1), -1, false).
Proof.
  intros H. unfold switch_suffix.
  rewrite (is_char_not c "b" "B" "t" "T"), (is_char_not c "b" "B" "g" "G"),
    (is_char_not c "b" "B" "m" "M"), (is_char_not c "b" "B" "k" "K"), H;
    done.
Qed.

Lemma switch_suffix_percent (size : Z) :
  switch_suffix "%" size = (wrap_int32 (size - 1), -1, true).
Proof. reflexivity. Qed.

Lemma switch_suffix_none (c : ascii) (size : Z) :
  no_suffix c = true → switch_suffix c size = (wrap_int32 size, -1, false).
Proof.
  unfold no_suffix, switch_suffix.
  rewrite negb_true_iff, !orb_false_iff.
  by intros [[[[[-> ->] ->] ->] ->] ->].
Qed.

(** Every last character falls in exactly one of the four classes. *)
Lemma suffix_cases (c : ascii) :
  match float_unit c with
  | Some _ => is_char c "b" "B" = false ∧ c ≠ "%"%char ∧ no_suffix c = false
  | None =>
      if is_char c "b" "B" then c ≠ "%"%char ∧ no_suffix c = false
      else if Ascii.eqb c "%" then no_suffix c = false
      else no_suffix c = true
  end.
Proof.
  unfold float_unit, no_suffix.
  destruct (is_char c "t" "T") eqn:Ht.
  { rewrite (is_char_not c "t" "T" "b" "B") by done. split_and!; try done.
    intros ->. done. }
  destruct (is_char c "g" "G") eqn:Hg.
  { rewrite (is_char_not c "g" "G" "b" "B") by done. split_and!; try done.
    intros ->. done. }
  destruct (is_char c "m" "M") eqn:Hm.
  { rewrite (is_char_not c "m" "M" "b" "B") by done. split_and!; try done.
    intros ->. done. }
  destruct (is_char c "k" "K") eqn:Hk.
  { rewrite (is_char_not c "k" "K" "b" "B") by done. split_and!; try done.
    intros ->. done. }
  destruct (is_char c "b" "B") eqn:Hb; simpl.
  { split; [| done]. intros ->. done. }
  by destruct (Ascii.eqb c "%").
Qed.

(** A non-empty string is a number text followed by its last character. *)
Lemma string_snoc (s : string) :
  s ≠ EmptyString → ∃ N c, s = N +:+ String c EmptyString.
Proof.
  induction s as [| a s IH]; [done |]. intros _.
  destruct s as [| b s].
  - by exists EmptyString, a.
  - destruct IH as (N & c & ->); [done |]. by exists (String a N), c.
Qed.

End ParseMemSpecFacts.

(** C5 (amended). For a string of at most 2^31 - 1 characters
    ([number_str_len] is an [int32_t]): the empty string gives 0.
    Otherwise the last character [c] of [N c] selects the form: for t, g,
    m, k in either case the text [N] is parsed as a float and the result is
    the [double] product of 1024^4, 1024^3, 1024^2, 1024 with it; for b or
    B [N] is parsed as an integer and returned; for % [N] is parsed as an
    integer and the result is the [double] value (N / 100.0) * memory_limit;
    for any other last character the whole string is parsed as an integer
    and returned.  A [double] result is converted by [Double.to_int64]:
    truncated toward zero when it is finite and the truncated value is an
    [int64_t], and with no value fixed otherwise.  Whenever the parser does
    not report PARSE_SUCCESS the result is InvalidArgument. *)
Theorem parse_mem_spec_forms
    (string_to_int : string → Z * ParseResult)
    (string_to_float : string → spec_float * ParseResult)
    (N : string) (c : ascii) (memory_limit : Z) :
  Z.of_nat (String.length N) + 1 < 2 ^ 31 →
  let parse := ParseUtil.parse_mem_spec string_to_int string_to_float in
  let s := N +:+ String c EmptyString in
  parse EmptyString memory_limit = Some (Value 0)
  ∧ (∀ mult, ParseUtil.float_unit c = Some mult →
       parse s memory_limit
       = match string_to_float N with
         | (v, PARSE_SUCCESS) =>
             Value <$> Double.to_int64 (Double.mul (Double.of_int64 mult) v)
         | _ => Some (Err InvalidArgument)
         end)
  ∧ (is_char c "b" "B" = true →
       parse s memory_limit
       = match string_to_int N with
         | (n, PARSE_SUCCESS) => Some (Value n)
         | _ => Some (Err InvalidArgument)
         end)
  ∧ (c = "%"%char →
       parse s memory_limit
       = match string_to_int N with
         | (n, PARSE_SUCCESS) =>
             Value <$>
               Double.to_int64
                 (Double.mul
                    (Double.div (Double.of_int64 n) (Double.of_int64 100))
                    (Double.of_int64 memory_limit))
         | _ => Some (Err InvalidArgument)
         end)
  ∧ (ParseUtil.no_suffix c = true →
       parse s memory_limit
       = match string_to_int s with
         | (n, PARSE_SUCCESS) => Some (Value n)
         | _ => Some (Err InvalidArgument)
         end).
Proof.
  intros Hlen parse s. subst parse s. unfold ParseUtil.parse_mem_spec.
  split; [done |]. rewrite rbegin_app.
  split_and!.
  - intros mult Hu.
    destruct (switch_suffix_float c
                (Z.of_nat (String.length (N +:+ String c EmptyString))) mult Hu)
      as [-> Hne].
    apply Z.eqb_neq in Hne. rewrite Hne. simpl.
    rewrite data_prefix_app by lia.
    destruct (string_to_float N) as [v r]. by destruct r.
  - intros Hb. rewrite switch_suffix_byte by done. simpl.
    rewrite data_prefix_app by lia.
    destruct (string_to_int N) as [n r]. by destruct r.
  - intros ->. rewrite switch_suffix_percent. simpl.
    rewrite data_prefix_app by lia.
    destruct (string_to_int N) as [n r]. by destruct r.
  - intros Hn. rewrite switch_suffix_none by done. simpl.
    rewrite data_prefix_all by (rewrite length_app_char; lia).
    destruct (string_to_int (N +:+ String c EmptyString)) as [n r].
    by destruct r.
Qed.

Lemma parse_mem_spec_forms_witness :
  ParseUtil.parse_mem_spec decimal_string_to_int decimal_string_to_float
    "1.5k" 1000 = Some (Value 1536)
  ∧ ParseUtil.parse_mem_spec decimal_string_to_int decimal_string_to_float
      "" 1000 = Some (Value 0).
Proof.
  destruct (parse_mem_spec_forms decimal_string_to_int decimal_string_to_float
              "1.5" "k" 1000) as (Hempty & Hfloat & _).
  - vm_compute. reflexivity.
  - split; [| exact Hempty].
    change "1.5k"%string with ("1.5" +:+ String "k" EmptyString).
    rewrite (Hfloat 1024 eq_refl). vm_compute. reflexivity.
Defined.

(** C5 (counterexample). With decimal parsers, a float is accepted before k
    but refused before %, and 29% of 100 bytes comes out as 28, not 29. *)
Lemma percent_takes_integer_and_truncates :
  ParseUtil.parse_mem_spec decimal_string_to_int decimal_string_to_float
    "1.5k" 1000 = Some (Value 1536)
  ∧ ParseUtil.parse_mem_spec decimal_string_to_int decimal_string_to_float
      "1.5%" 1000 = Some (Err InvalidArgument)
  ∧ ParseUtil.parse_mem_spec decimal_string_to_int decimal_string_to_float
      "29%" 100 = Some (Value 28)
  ∧ 29 * 100 / 100 = 29.
Proof. vm_compute. by split_and!. Qed.

(** Runs of [parse_mem_spec] with the decimal parsers. *)
Example parse_mem_spec_runs :
  let parse :=
    ParseUtil.parse_mem_spec decimal_string_to_int decimal_string_to_float in
  parse "123" 0 = Some (Value 123)
  ∧ parse "123b" 0 = Some (Value 123)
  ∧ parse "-7B" 0 = Some (Value (-7))
  ∧ parse "2G" 0 = Some (Value 2147483648)
  ∧ parse "1t" 0 = Some (Value 1099511627776)
  ∧ parse "0.1m" 0 = Some (Value 104857)
  ∧ parse "50%" 1000 = Some (Value 500)
  ∧ parse "1.5" 0 = Some (Err InvalidArgument)
  ∧ parse "k" 0 = Some (Err InvalidArgument)
  ∧ parse "1x" 0 = Some (Err InvalidArgument)
  ∧ parse "9999999999999999999999t" 0 = None.
Proof. vm_compute. by split_and!. Qed.


(** ** More on [parse_mem_spec] *)

Section ParseMemSpecMoreFacts.
Import ParseUtil.
Variable string_to_int : string → Z * ParseResult.
Variable string_to_float : string → spec_float * ParseResult.

Abbreviation parse' := (parse_mem_spec string_to_int string_to_float).

Lemma substring_app_short (s t : string) (n : nat) :
  (n ≤ String.length s)%nat → substring 0 n (s +:+ t) = substring 0 n s.
Proof.
  revert n. induction s as [| a s IH]; intros n Hn; simpl in *.
  - assert (n = 0%nat) as -> by lia. by destruct t.
  - destruct n as [| n]; [done |]. simpl. rewrite IH; [done | lia].
Qed.

Lemma wrap_int32_le (z : Z) : 0 ≤ z → wrap_int32 z ≤ z.
Proof.
  intros H. unfold wrap_int32.
  assert ((z + 2 ^ 31) mod 2 ^ 32 ≤ z + 2 ^ 31); [| lia].
  apply Z.mod_le; lia.
Qed.

(** The characters handed to the parser for [N c] with a suffix [c] do not
    depend on [c]. *)
Lemma data_prefix_suffix_irrelevant (N : string) (c1 c2 : ascii) :
  data_prefix (N +:+ String c1 EmptyString)
    (wrap_int32 (Z.of_nat (String.length (N +:+ String c1 EmptyString)) - 1))
  = data_prefix (N +:+ String c2 EmptyString)
      (wrap_int32 (Z.of_nat (String.length (N +:+ String c2 EmptyString)) - 1)).
Proof.
  rewrite !length_app_char. unfold data_prefix.
  assert (Z.to_nat (wrap_int32 (Z.of_nat (S (String.length N)) - 1))
          ≤ String.length N)%nat as Hle.
  { pose proof (wrap_int32_le (Z.of_nat (S (String.length N)) - 1)). lia. }
  by rewrite !substring_app_short.
Qed.

Lemma parse_same_switch (N : string) (c1 c2 : ascii) (memory_limit : Z) :
  (∀ size, switch_suffix c1 size = switch_suffix c2 size) →
  (∀ size, (switch_suffix c1 size).1.1 = wrap_int32 (size - 1)) →
  parse' (N +:+ String c1 EmptyString) memory_limit
  = parse' (N +:+ String c2 EmptyString) memory_limit.
Proof.
  intros Hsw Hlen. unfold parse_mem_spec. rewrite !rbegin_app.
  pose proof (Hlen (Z.of_nat (String.length (N +:+ String c1 EmptyString))))
    as H1.
  pose proof (Hlen (Z.of_nat (String.length (N +:+ String c2 EmptyString))))
    as H2.
  rewrite (Hsw (Z.of_nat (String.length (N +:+ String c2 EmptyString)))) in H2.
  rewrite (Hsw (Z.of_nat (String.length (N +:+ String c1 EmptyString)))) in H1.
  rewrite (Hsw (Z.of_nat (String.length (N +:+ String c1 EmptyString)))).
  destruct (switch_suffix c2
              (Z.of_nat (String.length (N +:+ String c1 EmptyString))))
    as [[len1 mult1] pct1] eqn:E1.
  destruct (switch_suffix c2
              (Z.of_nat (String.length (N +:+ String c2 EmptyString))))
    as [[len2 mult2] pct2] eqn:E2.
  simpl in H1, H2. subst len1 len2.
  rewrite !length_app_char in E1, E2. rewrite E1 in E2.
  injection E2 as <- <-.
  by rewrite (data_prefix_suffix_irrelevant N c1 c2).
Qed.

(** X15. The unit suffix is case-insensitive: [N] followed by t, g, m, k or
    b gives the same result as [N] followed by T, G, M, K or B, for every
    text [N], limit and pair of parsers. *)
Theorem parse_mem_spec_suffix_case_insensitive (N : string) (memory_limit : Z) :
  let parse_mem := parse_mem_spec string_to_int string_to_float in
  parse_mem (N +:+ "t") memory_limit = parse_mem (N +:+ "T") memory_limit
  ∧ parse_mem (N +:+ "g") memory_limit = parse_mem (N +:+ "G") memory_limit
  ∧ parse_mem (N +:+ "m") memory_limit = parse_mem (N +:+ "M") memory_limit
  ∧ parse_mem (N +:+ "k") memory_limit = parse_mem (N +:+ "K") memory_limit
  ∧ parse_mem (N +:+ "b") memory_limit = parse_mem (N +:+ "B") memory_limit.
Proof.
  intros parse_mem. split_and!; by apply parse_same_switch.
Qed.

Lemma switch_suffix_percent_only (c : ascii) (size : Z) :
  (switch_suffix c size).2 = true → c = "%"%char.
Proof.
  unfold switch_suffix.
  repeat (match goal with
          | |- context [if is_char c ?a ?b then _ else _] =>
              destruct (is_char c a b); [done |]
          end).
  destruct (Ascii.eqb_spec c "%"); done.
Qed.

(** X16. The limit matters for percentages only: when the last character is
    not [%], the result is the same for every [memory_limit]. *)
Theorem parse_mem_spec_limit_only_for_percent (s : string) (limit1 limit2 : Z) :
  rbegin s ≠ Some "%"%char →
  parse' s limit1 = parse' s limit2.
Proof.
  intros Hc. unfold parse_mem_spec.
  destruct (rbegin s) as [c |]; [| done].
  pose proof (switch_suffix_percent_only c (Z.of_nat (String.length s))) as Hp.
  destruct (switch_suffix c (Z.of_nat (String.length s)))
    as [[len mult] pct]. simpl in Hp.
  destruct (negb (mult =? -1)); [done |].
  destruct (string_to_int (data_prefix s len)) as [n r].
  destruct (negb (is_PARSE_SUCCESS r)); [done |].
  destruct pct; [| done]. exfalso. apply Hc. by rewrite Hp.
Qed.

(** X17. A final [b] is optional: when [N] ends with a character that is no
    suffix, [N b] and [N B] give what [N] alone gives. *)
Theorem parse_mem_spec_byte_suffix_optional (N : string) (c : ascii)
    (memory_limit : Z) :
  Z.of_nat (String.length N) + 1 < 2 ^ 31 →
  rbegin N = Some c → no_suffix c = true →
  parse' (N +:+ "b") memory_limit = parse' N memory_limit
  ∧ parse' (N +:+ "B") memory_limit = parse' N memory_limit.
Proof.
  intros Hlen Hc Hn.
  assert (parse' N memory_limit
          = match string_to_int N with
            | (n, PARSE_SUCCESS) => Some (Value n)
            | _ => Some (Err InvalidArgument)
            end) as ->.
  { unfold parse_mem_spec. rewrite Hc, switch_suffix_none by done. simpl.
    rewrite data_prefix_all by lia.
    destruct (string_to_int N) as [n r]. by destruct r. }
  assert (∀ b, is_char b "b" "B" = true →
               parse' (N +:+ String b EmptyString) memory_limit
               = match string_to_int N with
                 | (n, PARSE_SUCCESS) => Some (Value n)
                 | _ => Some (Err InvalidArgument)
                 end) as Hb.
  { intros b Hb. unfold parse_mem_spec.
    rewrite rbegin_app, switch_suffix_byte by done. simpl.
    rewrite data_prefix_app by lia.
    destruct (string_to_int N) as [n r]. by destruct r. }
  split; by apply Hb.
Qed.

(** X18. The only error [parse_mem_spec] returns is InvalidArgument, and it
    returns it exactly when the string is not empty and the parser it calls
    on the number text does not report PARSE_SUCCESS. *)
Theorem parse_mem_spec_error_is_invalid_argument (s : string)
    (memory_limit : Z) (st : Status) :
  parse' s memory_limit = Some (Err st)
  ↔ st = InvalidArgument
    ∧ ∃ c, rbegin s = Some c
           ∧ let '(len, mult, _) :=
               switch_suffix c (Z.of_nat (String.length s)) in
             if mult =? -1
             then (string_to_int (data_prefix s len)).2 ≠ PARSE_SUCCESS
             else (string_to_float (data_prefix s len)).2 ≠ PARSE_SUCCESS.
Proof.
  unfold parse_mem_spec.
  destruct (rbegin s) as [c |] eqn:Hc.
  2:{ split; [done |]. by intros (_ & c & ? & _). }
  destruct (switch_suffix c (Z.of_nat (String.length s)))
    as [[len mult] pct] eqn:Hsw.
  split.
  - destruct (mult =? -1) eqn:Hm; simpl.
    + destruct (string_to_int (data_prefix s len)) as [n r] eqn:Hp.
      destruct r; simpl;
        try (intros [= <-]; split; [done |];
             exists c; rewrite Hsw, Hm, Hp; by split).
      destruct pct; [| done].
      by destruct (Double.to_int64 _).
    + destruct (string_to_float (data_prefix s len)) as [v r] eqn:Hp.
      destruct r; simpl;
        try (intros [= <-]; split; [done |];
             exists c; rewrite Hsw, Hm, Hp; by split).
      by destruct (Double.to_int64 _).
  - intros (-> & c' & [= <-] & H). rewrite Hsw in H.
    destruct (mult =? -1); simpl.
    + destruct (string_to_int (data_prefix s len)) as [n r].
      by destruct r.
    + destruct (string_to_float (data_prefix s len)) as [v r].
      by destruct r.
Qed.

End ParseMemSpecMoreFacts.

Lemma parse_mem_spec_limit_only_for_percent_witness :
  ParseUtil.parse_mem_spec decimal_string_to_int decimal_string_to_float
    "1.5k" 100
  = ParseUtil.parse_mem_spec decimal_string_to_int decimal_string_to_float
      "1.5k" 4096.
Proof.
  apply (parse_mem_spec_limit_only_for_percent decimal_string_to_int
           decimal_string_to_float "1.5k" 100 4096).
  simpl. discriminate.
Defined.

Lemma parse_mem_spec_byte_suffix_optional_witness :
  ParseUtil.parse_mem_spec decimal_string_to_int decimal_string_to_float
    ("123" +:+ "b") 0
  = ParseUtil.parse_mem_spec decimal_string_to_int decimal_string_to_float
      "123" 0
  ∧ ParseUtil.parse_mem_spec decimal_string_to_int decimal_string_to_float
      ("123" +:+ "B") 0
    = ParseUtil.parse_mem_spec decimal_string_to_int decimal_string_to_float
        "123" 0.
Proof.
  apply (parse_mem_spec_byte_suffix_optional decimal_string_to_int
           decimal_string_to_float "123" "3" 0).
  - vm_compute. reflexivity.
  - reflexivity.
  - reflexivity.
Defined.

